(** * claude-chrome-stream: frame pipeline and frame/action synchronisation

    A shallow embedding of [src/StreamProcessor.ts] (visual delta detection,
    forwarding policy, keep-alive) and of [FrameBuffer.ts] (bounded frame
    store, action/frame correlation, frame waits), followed by the
    properties established about them.

    Conventions.
    - JavaScript integers (frame ids, millisecond clocks, counters) are [Z].
    - A number that the code only stores, passes on or compares (the
      thresholds, a [deltaPercent] once computed, a coordinate) is the
      exact rational [Q] it stands for.  Where [StreamProcessor] computes
      with numbers - the percentage of differing pixels, the average of
      [getStats] - the computation is the one of IEEE 754 doubles
      ([Double], over the Standard Library's [SpecFloat]).  The scroll
      deltas and drag positions of [InputController] are taken in exact
      arithmetic.
    - Every [Date.now()] of the source is an explicit clock argument.
    - A promise is a key of a store of outcomes; [setTimeout] handles are
      entries of a timer queue; closures are records of their captured
      variables. *)

From Stdlib Require Import ZArith QArith Qround Qpower Lia String Bool.
From Stdlib Require Floats.SpecFloat.
From stdpp Require Import gmap list sorting.

Open Scope Z_scope.

(* ===================================================================== *)
(** * types.ts *)
(* ===================================================================== *)

Record FrameMetadata := {
  deviceScaleFactor : Q;
  pageScaleFactor : Q;
  offsetTop : Q;
  offsetLeft : Q;
  scrollOffsetX : Q;
  scrollOffsetY : Q
}.

Record ScreencastFrame := {
  frameId : Z;
  timestamp : Z;
  data : string;
  metadata : FrameMetadata;
  hasChange : bool;
  deltaPercent : Q
}.

Record FrameComparisonResult := {
  cmp_hasChange : bool;
  cmp_deltaPercent : Q;
  diffPixelCount : Z;
  totalPixels : Z
}.

Inductive ActionType :=
| screenshot | left_click | right_click | middle_click | double_click
| triple_click | left_click_drag | left_mouse_down | left_mouse_up
| mouse_move | type | key | scroll | hold_key | wait | navigate | zoom.

(** [BrowserAction]: the discriminant [action], the optional base field
    [frameId], and the payload of the variant kept as text. *)
Record BrowserAction := {
  action : ActionType;
  action_frameId : option Z;
  action_payload : string
}.

Record ActionResult := {
  success : bool;
  result_frameId : Z;
  error : option string;
  result_screenshot : option string;
  result_timestamp : Z;
  result_action : BrowserAction
}.

(** A Node [Buffer]. *)
Definition Buffer := list Byte.byte.

(** Truthiness of a reference that is either an object or [null]. *)
Definition isNonNull {A : Type} (o : option A) : bool :=
  match o with Some _ => true | None => false end.

(* ===================================================================== *)
(** * JavaScript numbers *)
(* ===================================================================== *)

Module Double.

(** A JavaScript number is an IEEE 754 binary64 value: 53 bits of
    precision and exponents below 1024, with the arithmetic of
    [SpecFloat] (round to nearest, ties to even). *)
Definition t : Set := SpecFloat.spec_float.

Definition prec : Z := 53.
Definition emax : Z := 1024.

(** The number an integer is as a double: itself below 2^53 in
    magnitude, the nearest double beyond. *)
Definition of_Z (z : Z) : t := SpecFloat.binary_normalize prec emax z 0 false.

Definition div : t -> t -> t := SpecFloat.SFdiv prec emax.
Definition mul : t -> t -> t := SpecFloat.SFmul prec emax.

(** The rational a finite double stands for, in lowest terms.  [Infinity]
    and [NaN] stand for no rational; they are given 0 here and are told
    apart where the code looks at them ([geb]). *)
Definition to_Q (x : t) : Q :=
  match x with
  | SpecFloat.S754_finite s m e =>
      Qred (inject_Z (if s then Z.neg m else Z.pos m) * Qpower 2 e)
  | _ => 0%Q
  end.

(** [x >= q] for a double [x] and the double that [q] stands for. *)
Definition geb (x : t) (q : Q) : bool :=
  match x with
  | SpecFloat.S754_infinity s => negb s
  | SpecFloat.S754_nan => false
  | _ => Qle_bool q (to_Q x)
  end.

End Double.

(* ===================================================================== *)
(** * StreamProcessor.ts *)
(* ===================================================================== *)

(** What [sharp(buf).ensureAlpha().raw().toBuffer({resolveWithObject})]
    yields: RGBA bytes and the dimensions of the decoded image (an image
    has at least one row and one column). *)
Record RawImage := {
  raw_data : list Byte.byte;
  raw_width : positive;
  raw_height : positive
}.

(** The libraries the stream processor calls.  [None] stands for a thrown
    exception (a rejected promise for [sharp]). *)
Class Imaging := {
  Buffer_from_base64 : string -> Buffer;
  sharp_raw : Buffer -> option RawImage;
  pixelmatch : list Byte.byte -> list Byte.byte -> positive -> positive -> option Z
}.

Module StreamProcessor.

Record StreamConfig := {
  viewportWidth : Z;
  viewportHeight : Z;
  quality : Z;
  everyNthFrame : Z;
  deltaThreshold : Q;
  keepAliveMs : Z;
  maxBufferSize : Z
}.

Record CDPMetadata := {
  cdp_offsetTop : Q;
  cdp_pageScaleFactor : Q;
  cdp_deviceWidth : Z;
  cdp_deviceHeight : Z;
  cdp_scrollOffsetX : Q;
  cdp_scrollOffsetY : Q;
  cdp_timestamp : Z
}.

Record CDPScreencastFrameEvent := {
  ev_data : string;
  ev_metadata : CDPMetadata;
  ev_sessionId : Z
}.

(** The fields of the class; [cdpSession] records whether the session is
    non-null. *)
Record t := {
  cdpSession : bool;
  config : StreamConfig;
  isStreaming : bool;
  cur_frameId : Z;
  lastFrameData : option Buffer;
  lastFrameTime : Z;
  lastSentFrameTime : Z;
  pendingFrame : option ScreencastFrame;
  frameCount : Z;
  droppedFrameCount : Z;
  totalDeltaTime : Z
}.

Definition create (cfg : StreamConfig) : t :=
  {| cdpSession := false; config := cfg; isStreaming := false;
     cur_frameId := 0; lastFrameData := None; lastFrameTime := 0;
     lastSentFrameTime := 0; pendingFrame := None; frameCount := 0;
     droppedFrameCount := 0; totalDeltaTime := 0 |}.

Definition initialize (sp : t) : t :=
  {| cdpSession := true; config := config sp; isStreaming := isStreaming sp;
     cur_frameId := cur_frameId sp; lastFrameData := lastFrameData sp;
     lastFrameTime := lastFrameTime sp;
     lastSentFrameTime := lastSentFrameTime sp;
     pendingFrame := pendingFrame sp; frameCount := frameCount sp;
     droppedFrameCount := droppedFrameCount sp;
     totalDeltaTime := totalDeltaTime sp |}.

(** The literal returned on a dimension mismatch, in the [catch] branch and
    when no comparison is attempted. *)
Definition assumeChange : FrameComparisonResult :=
  {| cmp_hasChange := true; cmp_deltaPercent := 100%Q;
     diffPixelCount := 0; totalPixels := 0 |}.

Section WithImaging.
Context {IM : Imaging}.

(** [compareFrames]: the whole body sits in [try ... catch], so a failure
    of either decode or of [pixelmatch] ends in the [catch] literal.  The
    percentage [(diffPixelCount / totalPixels) * 100] is computed in
    doubles, each operation rounded, and compared with the threshold as
    the double it is. *)
Definition compareFrames (cfg : StreamConfig) (prevBuffer currBuffer : Buffer)
  : FrameComparisonResult :=
  match sharp_raw prevBuffer, sharp_raw currBuffer with
  | Some prevRaw, Some currRaw =>
      if negb (Pos.eqb (raw_width prevRaw) (raw_width currRaw))
         || negb (Pos.eqb (raw_height prevRaw) (raw_height currRaw))
      then assumeChange
      else
        let width := raw_width prevRaw in
        let height := raw_height prevRaw in
        let total := Z.pos width * Z.pos height in
        match pixelmatch (raw_data prevRaw) (raw_data currRaw) width height with
        | Some diff =>
            let dp :=
              Double.mul (Double.div (Double.of_Z diff) (Double.of_Z total))
                (Double.of_Z 100) in
            {| cmp_hasChange := Double.geb dp (deltaThreshold cfg);
               cmp_deltaPercent := Double.to_Q dp;
               diffPixelCount := diff;
               totalPixels := total |}
        | None => assumeChange
        end
  | _, _ => assumeChange
  end.

(** [createFrame(base64Data, metadata, forceChange)]; [tstamp] is the
    [Date.now()] stored in the frame. *)
Definition createFrame (sp : t) (base64Data : string) (meta : CDPMetadata)
  (forceChange : bool) (tstamp : Z) : t * ScreencastFrame :=
  let fid := cur_frameId sp + 1 in
  let buffer := Buffer_from_base64 base64Data in
  let comparison :=
    match lastFrameData sp with
    | Some prev =>
        if forceChange then assumeChange
        else compareFrames (config sp) prev buffer
    | None => assumeChange
    end in
  ({| cdpSession := cdpSession sp; config := config sp;
      isStreaming := isStreaming sp;
      cur_frameId := fid;
      lastFrameData := Some buffer;
      lastFrameTime := lastFrameTime sp;
      lastSentFrameTime := lastSentFrameTime sp;
      pendingFrame := pendingFrame sp; frameCount := frameCount sp;
      droppedFrameCount := droppedFrameCount sp;
      totalDeltaTime := totalDeltaTime sp |},
   {| frameId := fid;
      timestamp := tstamp;
      data := base64Data;
      metadata :=
        {| deviceScaleFactor := 1;
           pageScaleFactor := cdp_pageScaleFactor meta;
           offsetTop := cdp_offsetTop meta;
           offsetLeft := 0;
           scrollOffsetX := cdp_scrollOffsetX meta;
           scrollOffsetY := cdp_scrollOffsetY meta |};
      hasChange := cmp_hasChange comparison;
      deltaPercent := cmp_deltaPercent comparison |}).

(** [captureFrame()]: [shot] is the answer of [Page.captureScreenshot]
    ([None]: the call threw, an error event is emitted, [null] returned). *)
Definition captureFrame (sp : t) (shot : option string) (tstamp : Z)
  : t * option ScreencastFrame :=
  if negb (cdpSession sp) then (sp, None)
  else match shot with
       | None => (sp, None)
       | Some d =>
           let meta :=
             {| cdp_offsetTop := 0; cdp_pageScaleFactor := 1;
                cdp_deviceWidth := viewportWidth (config sp);
                cdp_deviceHeight := viewportHeight (config sp);
                cdp_scrollOffsetX := 0; cdp_scrollOffsetY := 0;
                cdp_timestamp := tstamp |} in
           let '(sp', frame) := createFrame sp d meta true tstamp in
           (sp', Some frame)
       end.

Definition set_sent (sp : t) (tsent : Z) (frame : ScreencastFrame)
  (delta : Z) : t :=
  {| cdpSession := cdpSession sp; config := config sp;
     isStreaming := isStreaming sp; cur_frameId := cur_frameId sp;
     lastFrameData := lastFrameData sp; lastFrameTime := lastFrameTime sp;
     lastSentFrameTime := tsent;
     pendingFrame := Some frame; frameCount := frameCount sp;
     droppedFrameCount := droppedFrameCount sp;
     totalDeltaTime := totalDeltaTime sp + delta |}.

Definition count_dropped (sp : t) : t :=
  {| cdpSession := cdpSession sp; config := config sp;
     isStreaming := isStreaming sp; cur_frameId := cur_frameId sp;
     lastFrameData := lastFrameData sp; lastFrameTime := lastFrameTime sp;
     lastSentFrameTime := lastSentFrameTime sp;
     pendingFrame := pendingFrame sp; frameCount := frameCount sp;
     droppedFrameCount := droppedFrameCount sp + 1;
     totalDeltaTime := totalDeltaTime sp |}.

Definition count_arrival (sp : t) (now : Z) : t :=
  {| cdpSession := cdpSession sp; config := config sp;
     isStreaming := isStreaming sp; cur_frameId := cur_frameId sp;
     lastFrameData := lastFrameData sp; lastFrameTime := now;
     lastSentFrameTime := lastSentFrameTime sp;
     pendingFrame := pendingFrame sp; frameCount := frameCount sp + 1;
     droppedFrameCount := droppedFrameCount sp;
     totalDeltaTime := totalDeltaTime sp |}.

(** [handleScreencastFrame(event)]: [now] is the handler's [Date.now()],
    [tstamp] the one taken inside [createFrame].  The second component is
    the frame handed to [emitFrame], [None] when nothing is forwarded. *)
Definition handleScreencastFrame (sp : t) (event : CDPScreencastFrameEvent)
  (now tstamp : Z) : t * option ScreencastFrame :=
  if negb (cdpSession sp) then (sp, None)
  else
    let timeSinceLastFrame := now - lastFrameTime sp in
    let sp1 := count_arrival sp now in
    let '(sp2, frame) :=
      createFrame sp1 (ev_data event) (ev_metadata event) false tstamp in
    let timeSinceLastSent := now - lastSentFrameTime sp2 in
    let shouldSend :=
      hasChange frame || (keepAliveMs (config sp2) <=? timeSinceLastSent) in
    if shouldSend
    then (set_sent sp2 now frame timeSinceLastFrame, Some frame)
    else (count_dropped sp2, None).

(** The callback installed by [startKeepAlive]: [now] is the tick's
    [Date.now()], [tstamp] the clock inside [createFrame] and [tsent] the
    clock read in the [then] continuation. *)
Definition keepAliveTick (sp : t) (now : Z) (shot : option string)
  (tstamp tsent : Z) : t * option ScreencastFrame :=
  let timeSinceLastSent := now - lastSentFrameTime sp in
  if (keepAliveMs (config sp) <=? timeSinceLastSent)
     && isNonNull (lastFrameData sp)
  then
    match captureFrame sp shot tstamp with
    | (sp', Some frame) => (set_sent sp' tsent frame 0, Some frame)
    | (sp', None) => (sp', None)
    end
  else (sp, None).

End WithImaging.

End StreamProcessor.

(* ===================================================================== *)
(** * FrameBuffer.ts *)
(* ===================================================================== *)

Module FrameBuffer.

Record FrameBufferConfig := {
  maxSize : Z;
  stabilityWaitMs : Z;
  maxWaitMs : Z;
  stabilityThreshold : Q
}.

Definition DEFAULT_CONFIG : FrameBufferConfig :=
  {| maxSize := 10; stabilityWaitMs := 200; maxWaitMs := 2000;
     stabilityThreshold := 0.5 |}.

(** A thrown or rejected value, identified by its message. *)
Inductive Error := Err (message : string).

Definition NoFrameError : Error := Err "No frame available for action".
Definition NextFrameTimeoutError : Error := Err "Timeout waiting for next frame".
Definition StableFrameTimeoutError : Error :=
  Err "Timeout waiting for stable frame".

(** [beforeFrame] is typed non-null in the source, but
    [checkPendingActions] fills it with [getFrame(...)!], which is [null]
    once the frame has been evicted. *)
Record FrameActionResult := {
  far_action : BrowserAction;
  far_result : ActionResult;
  beforeFrame : option ScreencastFrame;
  afterFrame : option ScreencastFrame;
  causedChange : bool;
  latencyMs : Z
}.

(** [pa_id] is the identity of the object (what [indexOf] compares) and
    names the promise whose [resolve]/[reject] the object carries. *)
Record PendingAction := {
  pa_id : nat;
  pa_action : BrowserAction;
  pa_frameId : Z;
  pa_timestamp : Z
}.

(** The ['frame_added'] listeners the class installs on itself, each with
    the variables its closure captures.  The promise key also names the
    closure and its [timeoutId]. *)
Inductive Handler :=
| NextFrameHandler (p : nat) (currentFrameId : Z)
| StableFrameHandler (p : nat) (durationMs : Z) (lastChangeTime : Z)
    (lastFrame : option ScreencastFrame).

Definition handler_id (h : Handler) : nat :=
  match h with
  | NextFrameHandler p _ => p
  | StableFrameHandler p _ _ _ => p
  end.

Record t := {
  frames : list ScreencastFrame;
  config : FrameBufferConfig;
  pendingActions : list PendingAction;
  listeners : list Handler
}.

Definition create (cfg : FrameBufferConfig) : t :=
  {| frames := []; config := cfg; pendingActions := []; listeners := [] |}.

Definition set_frames (fb : t) (fs : list ScreencastFrame) : t :=
  {| frames := fs; config := config fb;
     pendingActions := pendingActions fb; listeners := listeners fb |}.

Definition set_pendingActions (fb : t) (ps : list PendingAction) : t :=
  {| frames := frames fb; config := config fb;
     pendingActions := ps; listeners := listeners fb |}.

Definition set_listeners (fb : t) (ls : list Handler) : t :=
  {| frames := frames fb; config := config fb;
     pendingActions := pendingActions fb; listeners := ls |}.

(** ** Effects on the surrounding event loop *)

Inductive Value :=
| ActionValue (r : FrameActionResult)
| FrameValue (f : ScreencastFrame).

Inductive Outcome :=
| Resolved (v : Value)
| Rejected (e : Error).

(** The callbacks handed to [setTimeout], with their captured variables. *)
Inductive TimerCallback :=
| ActionDeadline (pending : PendingAction) (result : ActionResult)
    (before : ScreencastFrame)
| NextFrameTimeout (p : nat)
| StableFrameTimeout (p : nat).

(** The [timeoutId] a wait keeps for [clearTimeout]; the deadline timer of
    [registerAction] is never cleared. *)
Definition timer_owner (cb : TimerCallback) : option nat :=
  match cb with
  | ActionDeadline _ _ _ => None
  | NextFrameTimeout p => Some p
  | StableFrameTimeout p => Some p
  end.

Inductive Effect :=
| Settle (p : nat) (o : Outcome)
| SetTimeout (cb : TimerCallback) (delay : Z)
| ClearTimeout (p : nat).

(** ** Frame store *)

(** [while (this.frames.length > maxSize) this.frames.shift()], with a
    bound on the number of iterations; [None] when the bound is reached
    with the condition still true.  [shift] on an empty array leaves it
    empty. *)
Fixpoint trim (fuel : nat) (maxSize : Z) (fs : list ScreencastFrame)
  : option (list ScreencastFrame) :=
  if maxSize <? Z.of_nat (length fs) then
    match fuel with
    | O => None
    | S k => trim k maxSize (tail fs)
    end
  else Some fs.

Definition getLatestFrame (fb : t) : option ScreencastFrame :=
  last (frames fb).

Definition getFrame (fb : t) (id : Z) : option ScreencastFrame :=
  List.find (fun f => frameId f =? id) (frames fb).

Definition getAllFrames (fb : t) : list ScreencastFrame := frames fb.

(** [Array.prototype.findIndex]; [None] for [-1]. *)
Fixpoint findIndex {A : Type} (p : A -> bool) (l : list A) : option nat :=
  match l with
  | [] => None
  | x :: r => if p x then Some O else option_map S (findIndex p r)
  end.

Definition getFramesSince (fb : t) (id : Z) : list ScreencastFrame :=
  match findIndex (fun f => frameId f =? id) (frames fb) with
  | None => []
  | Some index => drop (S index) (frames fb)
  end.

(** ** Listeners *)

(** One ['frame_added'] handler applied to [frame]: the handler as it is
    afterwards ([None] once it has called [this.off]) and its effects. *)
Definition runHandler (cfg : FrameBufferConfig) (h : Handler)
  (frame : ScreencastFrame) (now : Z) : option Handler * list Effect :=
  match h with
  | NextFrameHandler p currentFrameId =>
      if currentFrameId <? frameId frame
      then (None, [ClearTimeout p; Settle p (Resolved (FrameValue frame))])
      else (Some h, [])
  | StableFrameHandler p durationMs lastChangeTime _ =>
      if hasChange frame
         && negb (Qle_bool (deltaPercent frame) (stabilityThreshold cfg))
      then (Some (StableFrameHandler p durationMs now (Some frame)), [])
      else if durationMs <=? now - lastChangeTime
      then (None, [ClearTimeout p; Settle p (Resolved (FrameValue frame))])
      else (Some (StableFrameHandler p durationMs lastChangeTime (Some frame)),
            [])
  end.

(** [this.emit('frame_added', frame)]: every listener registered when the
    emit starts runs once, in registration order. *)
Fixpoint emitFrameAdded (cfg : FrameBufferConfig) (hs : list Handler)
  (frame : ScreencastFrame) (now : Z) : list Handler * list Effect :=
  match hs with
  | [] => ([], [])
  | h :: r =>
      let '(h', e1) := runHandler cfg h frame now in
      let '(r', e2) := emitFrameAdded cfg r frame now in
      (match h' with Some k => k :: r' | None => r' end, e1 ++ e2)
  end.

Definition off (fb : t) (p : nat) : t :=
  set_listeners fb
    (List.filter (fun h => negb (Nat.eqb (handler_id h) p)) (listeners fb)).

Definition findHandler (fb : t) (p : nat) : option Handler :=
  List.find (fun h => Nat.eqb (handler_id h) p) (listeners fb).

(** ** Pending actions *)

Definition indexOf (pending : PendingAction) (l : list PendingAction)
  : option nat :=
  findIndex (fun q => Nat.eqb (pa_id q) (pa_id pending)) l.

(** The test of [checkPendingActions] that puts [pending] in [toResolve]. *)
Definition stableFor (cfg : FrameBufferConfig) (frame : ScreencastFrame)
  (now : Z) (pending : PendingAction) : bool :=
  if pa_frameId pending <? frameId frame then
    let timeSinceAction := now - pa_timestamp pending in
    Qle_bool (deltaPercent frame) (stabilityThreshold cfg)
    || (stabilityWaitMs cfg <=? timeSinceAction)
  else false.

Definition frameResult (fb : t) (frame : ScreencastFrame) (now : Z)
  (pending : PendingAction) : FrameActionResult :=
  {| far_action := pa_action pending;
     far_result :=
       {| success := true; result_frameId := frameId frame;
          error := None; result_screenshot := None;
          result_timestamp := now; result_action := pa_action pending |};
     beforeFrame := getFrame fb (pa_frameId pending);
     afterFrame := Some frame;
     causedChange := hasChange frame;
     latencyMs := now - pa_timestamp pending |}.

(** The second loop of [checkPendingActions]. *)
Fixpoint resolveAll (fb : t) (frame : ScreencastFrame) (now : Z)
  (toResolve : list PendingAction) : t * list Effect :=
  match toResolve with
  | [] => (fb, [])
  | pending :: r =>
      match indexOf pending (pendingActions fb) with
      | Some index =>
          let fb' := set_pendingActions fb (delete index (pendingActions fb)) in
          let '(fb'', effs) := resolveAll fb' frame now r in
          (fb'',
           Settle (pa_id pending)
             (Resolved (ActionValue (frameResult fb' frame now pending)))
           :: effs)
      | None => resolveAll fb frame now r
      end
  end.

Definition checkPendingActions (fb : t) (frame : ScreencastFrame) (now : Z)
  : t * list Effect :=
  let toResolve :=
    List.filter (stableFor (config fb) frame now) (pendingActions fb) in
  resolveAll fb frame now toResolve.

(** [addFrame(frame)]; [None] when the trimming loop does not terminate. *)
Definition addFrame (fb : t) (frame : ScreencastFrame) (now : Z)
  : option (t * list Effect) :=
  let pushed := frames fb ++ [frame] in
  match trim (length pushed) (maxSize (config fb)) pushed with
  | None => None
  | Some fs =>
      let fb1 := set_frames fb fs in
      let '(ls, e1) := emitFrameAdded (config fb1) (listeners fb1) frame now in
      let fb2 := set_listeners fb1 ls in
      let '(fb3, e2) := checkPendingActions fb2 frame now in
      Some (fb3, e1 ++ e2)
  end.

(** ** registerAction *)

(** What the promise executor of [registerAction] has captured when it
    suspends on [await executeAction()]. *)
Record ActionCall := {
  call_action : BrowserAction;
  call_beforeFrame : ScreencastFrame;
  call_startTime : Z
}.

(** The synchronous prefix of [registerAction]: the [throw] of an [async]
    function is the rejection of the promise it returns. *)
Definition registerAction_begin (fb : t) (a : BrowserAction) (now : Z)
  : Error + ActionCall :=
  match getLatestFrame fb with
  | None => inl NoFrameError
  | Some before =>
      inr {| call_action := a; call_beforeFrame := before;
             call_startTime := now |}
  end.

Inductive ExecutorOutcome :=
| Returned (result : ActionResult)
| Threw (e : Error).

Definition isNonVisual (a : BrowserAction) : bool :=
  match action a with
  | wait | screenshot => true
  | _ => false
  end.

(** The continuation of [registerAction] after [await executeAction()],
    run at clock [now] for the call whose promise is [p]. *)
Definition registerAction_resume (fb : t) (p : nat) (call : ActionCall)
  (out : ExecutorOutcome) (now : Z) : t * list Effect :=
  match out with
  | Threw e => (fb, [Settle p (Rejected e)])
  | Returned result =>
      if negb (success result) then
        (fb, [Settle p (Resolved (ActionValue
           {| far_action := call_action call; far_result := result;
              beforeFrame := Some (call_beforeFrame call);
              afterFrame := None; causedChange := false;
              latencyMs := now - call_startTime call |}))])
      else if isNonVisual (call_action call) then
        (fb, [Settle p (Resolved (ActionValue
           {| far_action := call_action call; far_result := result;
              beforeFrame := Some (call_beforeFrame call);
              afterFrame := Some (call_beforeFrame call);
              causedChange := false;
              latencyMs := now - call_startTime call |}))])
      else
        let pendingAction :=
          {| pa_id := p; pa_action := call_action call;
             pa_frameId := frameId (call_beforeFrame call);
             pa_timestamp := call_startTime call |} in
        (set_pendingActions fb (pendingActions fb ++ [pendingAction]),
         [SetTimeout
            (ActionDeadline pendingAction result (call_beforeFrame call))
            (maxWaitMs (config fb))])
  end.

(** The [setTimeout] callback of [registerAction]. *)
Definition onActionDeadline (fb : t) (pending : PendingAction)
  (result : ActionResult) (before : ScreencastFrame) (now : Z)
  : t * list Effect :=
  match indexOf pending (pendingActions fb) with
  | Some index =>
      let fb' := set_pendingActions fb (delete index (pendingActions fb)) in
      let latestFrame := getLatestFrame fb' in
      (fb',
       [Settle (pa_id pending) (Resolved (ActionValue
          {| far_action := pa_action pending; far_result := result;
             beforeFrame := Some before;
             afterFrame := latestFrame;
             causedChange :=
               match latestFrame with
               | Some l => negb (frameId l =? frameId before)
               | None => false
               end;
             latencyMs := now - pa_timestamp pending |}))])
  | None => (fb, [])
  end.

(** ** Frame waits *)

Definition waitForNextFrame (fb : t) (p : nat) (timeout : Z)
  : t * list Effect :=
  let currentFrameId :=
    match getLatestFrame fb with
    | Some f => frameId f
    | None => 0
    end in
  (set_listeners fb (listeners fb ++ [NextFrameHandler p currentFrameId]),
   [SetTimeout (NextFrameTimeout p) timeout]).

Definition onNextFrameTimeout (fb : t) (p : nat) : t * list Effect :=
  (off fb p, [Settle p (Rejected NextFrameTimeoutError)]).

Definition waitForStableFrame (fb : t) (p : nat) (durationMs timeout now : Z)
  : t * list Effect :=
  (set_listeners fb
     (listeners fb ++ [StableFrameHandler p durationMs now (getLatestFrame fb)]),
   [SetTimeout (StableFrameTimeout p) timeout]).

(** The timeout callback of [waitForStableFrame]; it reads the closure
    variable [lastFrame], which lives in the registered handler. *)
Definition onStableFrameTimeout (fb : t) (p : nat) : t * list Effect :=
  match findHandler fb p with
  | Some (StableFrameHandler _ _ _ (Some lastFrame)) =>
      (off fb p, [Settle p (Resolved (FrameValue lastFrame))])
  | Some (StableFrameHandler _ _ _ None) =>
      (off fb p, [Settle p (Rejected StableFrameTimeoutError)])
  | _ => (fb, [])
  end.

(** [clear()]. *)
Definition clear (fb : t) : t :=
  {| frames := []; config := config fb; pendingActions := [];
     listeners := listeners fb |}.

End FrameBuffer.

(* ===================================================================== *)
(** * The event loop around one FrameBuffer *)
(* ===================================================================== *)

(** The single-threaded JavaScript run-time as far as [FrameBuffer] uses
    it: a store of settled promises, the [registerAction] calls suspended
    on their executor, and the timer queue.  Time only moves between
    events; an event dated [t] first lets every timer due by [t] fire. *)
Module EventLoop.
Import FrameBuffer.

Record Timer := {
  due : Z;
  callback : TimerCallback
}.

(** Node's [setTimeout]: a delay below 1 or above 2^31-1 is set to 1. *)
Definition timerDelay (delay : Z) : Z :=
  if (delay <? 1) || (2147483647 <? delay) then 1 else delay.

(** The queue is kept in firing order: by due time, then by creation. *)
Fixpoint schedule (tm : Timer) (q : list Timer) : list Timer :=
  match q with
  | [] => [tm]
  | x :: r => if due x <=? due tm then x :: schedule tm r else tm :: q
  end.

(** [promises] holds the settled promises (an absent key is a promise that
    is still pending), [calls] the [registerAction] calls suspended on
    [await executeAction()], [clock] the current [Date.now()]. *)
Record World := {
  buffer : FrameBuffer.t;
  promises : gmap nat Outcome;
  calls : gmap nat ActionCall;
  timers : list Timer;
  nextPromise : nat;
  clock : Z
}.

Definition boot (cfg : FrameBufferConfig) : World :=
  {| buffer := FrameBuffer.create cfg; promises := ∅; calls := ∅;
     timers := []; nextPromise := O; clock := 0 |}.

Definition set_buffer (w : World) (fb : FrameBuffer.t) : World :=
  {| buffer := fb; promises := promises w; calls := calls w;
     timers := timers w; nextPromise := nextPromise w; clock := clock w |}.

Definition set_promises (w : World) (ps : gmap nat Outcome) : World :=
  {| buffer := buffer w; promises := ps; calls := calls w;
     timers := timers w; nextPromise := nextPromise w; clock := clock w |}.

Definition set_calls (w : World) (cs : gmap nat ActionCall) : World :=
  {| buffer := buffer w; promises := promises w; calls := cs;
     timers := timers w; nextPromise := nextPromise w; clock := clock w |}.

Definition set_timers (w : World) (ts : list Timer) : World :=
  {| buffer := buffer w; promises := promises w; calls := calls w;
     timers := ts; nextPromise := nextPromise w; clock := clock w |}.

Definition set_clock (w : World) (t : Z) : World :=
  {| buffer := buffer w; promises := promises w; calls := calls w;
     timers := timers w; nextPromise := nextPromise w; clock := t |}.

(** A fresh promise for a call that returns one. *)
Definition allocate (w : World) : nat * World :=
  (nextPromise w,
   {| buffer := buffer w; promises := promises w; calls := calls w;
      timers := timers w; nextPromise := S (nextPromise w);
      clock := clock w |}).

(** Settling an already settled promise does nothing. *)
Definition settle (p : nat) (o : Outcome) (ps : gmap nat Outcome)
  : gmap nat Outcome :=
  match ps !! p with
  | Some _ => ps
  | None => <[p := o]> ps
  end.

(** [tm] is the timer whose handle the wait [p] keeps. *)
Definition ownedBy (p : nat) (tm : Timer) : bool :=
  match timer_owner (callback tm) with
  | Some q => Nat.eqb q p
  | None => false
  end.

Definition applyEffect (w : World) (e : Effect) : World :=
  match e with
  | Settle p o => set_promises w (settle p o (promises w))
  | SetTimeout cb delay =>
      set_timers w
        (schedule {| due := clock w + timerDelay delay; callback := cb |}
           (timers w))
  | ClearTimeout p =>
      set_timers w (List.filter (fun tm => negb (ownedBy p tm)) (timers w))
  end.

Definition applyEffects (w : World) (es : list Effect) : World :=
  fold_left applyEffect es w.

Definition perform (w : World) (r : FrameBuffer.t * list Effect) : World :=
  applyEffects (set_buffer w (fst r)) (snd r).

(** One timer fires, at its due time or at the current clock if that is
    later. *)
Definition fire (w : World) (tm : Timer) : World :=
  let now := Z.max (clock w) (due tm) in
  let w' := set_clock w now in
  perform w'
    match callback tm with
    | ActionDeadline pending result before =>
        onActionDeadline (buffer w') pending result before now
    | NextFrameTimeout p => onNextFrameTimeout (buffer w') p
    | StableFrameTimeout p => onStableFrameTimeout (buffer w') p
    end.

(** Time moves to [t]: the timers due by then fire in queue order. *)
Definition advance (t : Z) (w : World) : World :=
  let t' := Z.max (clock w) t in
  let dueNow := List.filter (fun tm => due tm <=? t') (timers w) in
  let later := List.filter (fun tm => t' <? due tm) (timers w) in
  set_clock (fold_left fire dueNow (set_timers w later)) t'.

(** What can happen to the buffer: a call of one of its methods, the
    completion of the executor that call [p] of [registerAction] awaits,
    or nothing but the passing of time. *)
Inductive Event :=
| AddFrame (frame : ScreencastFrame)
| RegisterAction (a : BrowserAction)
| ExecutorSettles (p : nat) (out : ExecutorOutcome)
| WaitForNextFrame (timeout : Z)
| WaitForStableFrame (durationMs timeout : Z)
| Clear
| Idle.

(** One event at the current clock; [None] when the event never returns
    control to the loop. *)
Definition handle (w : World) (ev : Event) : option World :=
  match ev with
  | AddFrame frame =>
      match addFrame (buffer w) frame (clock w) with
      | Some r => Some (perform w r)
      | None => None
      end
  | RegisterAction a =>
      let '(p, w1) := allocate w in
      match registerAction_begin (buffer w1) a (clock w1) with
      | inl e => Some (applyEffect w1 (Settle p (Rejected e)))
      | inr call => Some (set_calls w1 (<[p := call]> (calls w1)))
      end
  | ExecutorSettles p out =>
      match calls w !! p with
      | Some call =>
          let w1 := set_calls w (delete p (calls w)) in
          Some (perform w1
                  (registerAction_resume (buffer w1) p call out (clock w1)))
      | None => Some w
      end
  | WaitForNextFrame timeout =>
      let '(p, w1) := allocate w in
      Some (perform w1 (waitForNextFrame (buffer w1) p timeout))
  | WaitForStableFrame durationMs timeout =>
      let '(p, w1) := allocate w in
      Some (perform w1
              (waitForStableFrame (buffer w1) p durationMs timeout (clock w1)))
  | Clear => Some (set_buffer w (clear (buffer w)))
  | Idle => Some w
  end.

Definition step (w : World) (te : Z * Event) : option World :=
  handle (advance (fst te) w) (snd te).

Fixpoint run (w : World) (trace : list (Z * Event)) : option World :=
  match trace with
  | [] => Some w
  | te :: r =>
      match step w te with
      | Some w' => run w' r
      | None => None
      end
  end.

End EventLoop.

(* ===================================================================== *)
(** * StreamProcessor.ts: life cycle, statistics, and the frames it emits *)
(* ===================================================================== *)

Module StreamControl.
Import StreamProcessor.

(** The two fields of [Partial<StreamConfig>] that [updateConfig] reads;
    [None] is [undefined]. *)
Record ConfigUpdate := {
  upd_deltaThreshold : option Q;
  upd_keepAliveMs : option Z
}.

(** Node's [setInterval(callback, delay)]: a delay that is not between 1
    and 2^31-1 is set to 1, and a delay that is not an integer is
    truncated.  The result is the period, in milliseconds, at which the
    interval runs. *)
Definition intervalDelay (delay : Q) : Z :=
  if Qle_bool 1 delay && Qle_bool delay 2147483647
  then Qfloor delay
  else 1.

(** The processor together with its [keepAliveTimer]: [None] is [null],
    [Some d] an interval that runs every [d] milliseconds. *)
Record t := {
  processor : StreamProcessor.t;
  keepAliveTimer : option Z
}.

Definition set_isStreaming (sp : StreamProcessor.t) (b : bool)
  : StreamProcessor.t :=
  {| cdpSession := cdpSession sp; config := config sp; isStreaming := b;
     cur_frameId := cur_frameId sp; lastFrameData := lastFrameData sp;
     lastFrameTime := lastFrameTime sp;
     lastSentFrameTime := lastSentFrameTime sp;
     pendingFrame := pendingFrame sp; frameCount := frameCount sp;
     droppedFrameCount := droppedFrameCount sp;
     totalDeltaTime := totalDeltaTime sp |}.

Definition set_config (sp : StreamProcessor.t) (cfg : StreamConfig)
  : StreamProcessor.t :=
  {| cdpSession := cdpSession sp; config := cfg;
     isStreaming := isStreaming sp;
     cur_frameId := cur_frameId sp; lastFrameData := lastFrameData sp;
     lastFrameTime := lastFrameTime sp;
     lastSentFrameTime := lastSentFrameTime sp;
     pendingFrame := pendingFrame sp; frameCount := frameCount sp;
     droppedFrameCount := droppedFrameCount sp;
     totalDeltaTime := totalDeltaTime sp |}.

Definition with_deltaThreshold (cfg : StreamConfig) (d : Q) : StreamConfig :=
  {| viewportWidth := viewportWidth cfg; viewportHeight := viewportHeight cfg;
     quality := quality cfg; everyNthFrame := everyNthFrame cfg;
     deltaThreshold := d; keepAliveMs := keepAliveMs cfg;
     maxBufferSize := maxBufferSize cfg |}.

Definition with_keepAliveMs (cfg : StreamConfig) (k : Z) : StreamConfig :=
  {| viewportWidth := viewportWidth cfg; viewportHeight := viewportHeight cfg;
     quality := quality cfg; everyNthFrame := everyNthFrame cfg;
     deltaThreshold := deltaThreshold cfg; keepAliveMs := k;
     maxBufferSize := maxBufferSize cfg |}.

(** [new StreamProcessor(config)] followed by [initialize(cdpSession)]. *)
Definition launch (cfg : StreamConfig) : t :=
  {| processor := initialize (create cfg); keepAliveTimer := None |}.

(** [startKeepAlive()]: the old interval is cleared and a new one is set
    with [setInterval(..., keepAliveMs / 2)]. *)
Definition startKeepAlive (s : t) : t :=
  {| processor := processor s;
     keepAliveTimer :=
       Some (intervalDelay
               (inject_Z (keepAliveMs (config (processor s))) / 2)%Q) |}.

Definition stopKeepAlive (s : t) : t :=
  {| processor := processor s; keepAliveTimer := None |}.

(** [start()]: [sendError] is [Some e] when [Page.startScreencast] throws
    [e]; the result is [inl] for a thrown error. *)
Definition start (s : t) (sendError : option string) : string + t :=
  if negb (cdpSession (processor s)) then inl "CDP session not initialized"%string
  else if isStreaming (processor s) then inr s
  else match sendError with
       | Some e => inl e
       | None =>
           inr (startKeepAlive
                  {| processor := set_isStreaming (processor s) true;
                     keepAliveTimer := keepAliveTimer s |})
       end.

(** [stop()]: an error of [Page.stopScreencast] is ignored. *)
Definition stop (s : t) : t :=
  if negb (cdpSession (processor s)) || negb (isStreaming (processor s))
  then s
  else
    let s1 := stopKeepAlive s in
    {| processor := set_isStreaming (processor s1) false;
       keepAliveTimer := keepAliveTimer s1 |}.

Definition updateConfig (s : t) (updates : ConfigUpdate) : t :=
  let s1 :=
    match upd_deltaThreshold updates with
    | Some d =>
        {| processor :=
             set_config (processor s)
               (with_deltaThreshold (config (processor s)) d);
           keepAliveTimer := keepAliveTimer s |}
    | None => s
    end in
  match upd_keepAliveMs updates with
  | Some k =>
      let s2 :=
        {| processor :=
             set_config (processor s1)
               (with_keepAliveMs (config (processor s1)) k);
           keepAliveTimer := keepAliveTimer s1 |} in
      if isStreaming (processor s2)
      then startKeepAlive (stopKeepAlive s2)
      else s2
  | None => s1
  end.

(** The calls made on a started processor from outside. *)
Inductive Command :=
| Start (sendError : option string)
| Stop
| UpdateConfig (updates : ConfigUpdate).

(** One command; a [start()] that throws leaves the object as it was. *)
Definition command (s : t) (c : Command) : t :=
  match c with
  | Start e => match start s e with inr s' => s' | inl _ => s end
  | Stop => stop s
  | UpdateConfig u => updateConfig s u
  end.

Record Stats := {
  stat_frameCount : Z;
  stat_droppedFrameCount : Z;
  stat_avgDeltaTime : Q;
  stat_currentFrameId : Z
}.

Definition getStats (sp : StreamProcessor.t) : Stats :=
  {| stat_frameCount := frameCount sp;
     stat_droppedFrameCount := droppedFrameCount sp;
     stat_avgDeltaTime :=
       if 0 <? frameCount sp
       then Double.to_Q
              (Double.div (Double.of_Z (totalDeltaTime sp))
                 (Double.of_Z (frameCount sp)))
       else 0%Q;
     stat_currentFrameId := cur_frameId sp |}.

Section WithImaging.
Context {IM : Imaging}.

(** What makes the processor create a frame: a screencast event, a tick
    of the keep-alive interval, or a call of [captureFrame()]. *)
Inductive Input :=
| Screencast (event : CDPScreencastFrameEvent) (now tstamp : Z)
| KeepAlive (now : Z) (shot : option string) (tstamp tsent : Z)
| Capture (shot : option string) (tstamp : Z).

(** One input handled to completion: the new state and the frame handed
    to [emitFrame], if any ([captureFrame()] returns its frame to the
    caller and emits nothing). *)
Definition react (sp : StreamProcessor.t) (i : Input)
  : StreamProcessor.t * option ScreencastFrame :=
  match i with
  | Screencast event now tstamp => handleScreencastFrame sp event now tstamp
  | KeepAlive now shot tstamp tsent => keepAliveTick sp now shot tstamp tsent
  | Capture shot tstamp => (fst (captureFrame sp shot tstamp), None)
  end.

(** The inputs handled one after the other, and the frames emitted, in
    the order of emission. *)
Fixpoint reactAll (sp : StreamProcessor.t) (inputs : list Input)
  : StreamProcessor.t * list ScreencastFrame :=
  match inputs with
  | [] => (sp, [])
  | i :: r =>
      let '(sp1, out) := react sp i in
      let '(sp2, outs) := reactAll sp1 r in
      (sp2, match out with Some f => f :: outs | None => outs end)
  end.

End WithImaging.

End StreamControl.

(* ===================================================================== *)
(** * InputController.ts *)
(* ===================================================================== *)

Module InputController.

Inductive ScrollDirection :=
| scroll_up | scroll_down | scroll_left | scroll_right.

Inductive ModifierKey := shift | ctrl | alt | super | meta.

(** The calls the handlers make on the page and on the CDP session. *)
Inductive PageOp :=
| MouseMove (x y : Q)
| MouseDown
| MouseUp
| MouseWheel (x y deltaX deltaY : Q)
| Sleep (ms : Q).

Definition scaleCoordinate (c : Q * Q) : Q * Q := (fst c, snd c).

(** The deltas [handleScroll] computes. *)
Definition scrollDeltas (direction : ScrollDirection) (amount : Q)
  (modifier : option ModifierKey) : Q * Q :=
  let pixelsPerUnit := 100%Q in
  let isHorizontal :=
    match modifier with Some shift => true | _ => false end in
  match direction with
  | scroll_up =>
      (if isHorizontal then (- amount * pixelsPerUnit)%Q else 0%Q,
       if isHorizontal then 0%Q else (- amount * pixelsPerUnit)%Q)
  | scroll_down =>
      (if isHorizontal then (amount * pixelsPerUnit)%Q else 0%Q,
       if isHorizontal then 0%Q else (amount * pixelsPerUnit)%Q)
  | scroll_left => ((- amount * pixelsPerUnit)%Q, 0%Q)
  | scroll_right => ((amount * pixelsPerUnit)%Q, 0%Q)
  end.

(** [handleScroll]: the calls it makes, in order. *)
Definition handleScroll (coordinate : Q * Q) (direction : ScrollDirection)
  (amount : Q) (modifier : option ModifierKey) : list PageOp :=
  let '(x, y) := scaleCoordinate coordinate in
  let '(deltaX, deltaY) := scrollDeltas direction amount modifier in
  [MouseMove x y; MouseWheel x y deltaX deltaY; Sleep 100].

(** The body of the loop of [handleDrag] for the values [i, i+1, ...] of
    its counter, [n] of them. *)
Fixpoint dragSteps (startX startY endX endY : Q) (i : Z) (n : nat)
  : list PageOp :=
  match n with
  | O => []
  | S k =>
      let x := (startX + ((endX - startX) * inject_Z i) / 10)%Q in
      let y := (startY + ((endY - startY) * inject_Z i) / 10)%Q in
      MouseMove x y :: Sleep 10 :: dragSteps startX startY endX endY (i + 1) k
  end.

(** [handleDrag]: the calls it makes, in order ([steps = 10], the counter
    runs from 1 to 10). *)
Definition handleDrag (startCoordinate endCoordinate : Q * Q) : list PageOp :=
  let '(startX, startY) := scaleCoordinate startCoordinate in
  let '(endX, endY) := scaleCoordinate endCoordinate in
  [MouseMove startX startY; MouseDown]
  ++ dragSteps startX startY endX endY 1 10
  ++ [MouseUp].

End InputController.

(* ===================================================================== *)
(** * Sample data *)
(* ===================================================================== *)

Module Samples.

Definition noMetadata : FrameMetadata :=
  {| deviceScaleFactor := 1; pageScaleFactor := 1; offsetTop := 0;
     offsetLeft := 0; scrollOffsetX := 0; scrollOffsetY := 0 |}.

Definition mkFrame (id : Z) (changed : bool) (delta : Q) : ScreencastFrame :=
  {| frameId := id; timestamp := 0; data := ""%string;
     metadata := noMetadata; hasChange := changed; deltaPercent := delta |}.

Definition click : BrowserAction :=
  {| action := left_click; action_frameId := None;
     action_payload := "[10, 20]"%string |}.

Definition pause : BrowserAction :=
  {| action := wait; action_frameId := None;
     action_payload := "{duration: 1}"%string |}.

Definition okResult (a : BrowserAction) : ActionResult :=
  {| success := true; result_frameId := 1; error := None;
     result_screenshot := None; result_timestamp := 0; result_action := a |}.

Definition failedResult (a : BrowserAction) : ActionResult :=
  {| success := false; result_frameId := 1;
     error := Some "Element not found"%string;
     result_screenshot := None; result_timestamp := 0; result_action := a |}.

(** A stand-in for the imaging libraries, good enough to run the stream
    processor: a buffer is the bytes of its text, an image is one byte of
    width, one byte of height and then one byte per pixel, and two pixels
    differ when their bytes differ. *)
Definition toyDecode (b : Buffer) : option RawImage :=
  match b with
  | w :: h :: px =>
      match Z.of_N (Byte.to_N w), Z.of_N (Byte.to_N h) with
      | Z.pos pw, Z.pos ph =>
          if Z.of_nat (length px) =? Z.pos pw * Z.pos ph
          then Some {| raw_data := px; raw_width := pw; raw_height := ph |}
          else None
      | _, _ => None
      end
  | _ => None
  end.

Fixpoint toyDiff (a b : list Byte.byte) : Z :=
  match a, b with
  | x :: r, y :: s => (if Byte.eqb x y then 0 else 1) + toyDiff r s
  | _, _ => 0
  end.

Definition toyMatch (a b : list Byte.byte) (w h : positive) : option Z :=
  if Z.of_nat (length a) =? Z.pos w * Z.pos h then Some (toyDiff a b) else None.

Definition toyImaging : Imaging :=
  {| Buffer_from_base64 := list_byte_of_string;
     sharp_raw := toyDecode;
     pixelmatch := toyMatch |}.

(** The text whose bytes are a toy image of the given size and pixels. *)
Definition image (w h : Byte.byte) (px : list Byte.byte) : string :=
  string_of_list_byte (w :: h :: px).

Definition streamConfig : StreamProcessor.StreamConfig :=
  {| StreamProcessor.viewportWidth := 1280;
     StreamProcessor.viewportHeight := 800;
     StreamProcessor.quality := 80;
     StreamProcessor.everyNthFrame := 1;
     StreamProcessor.deltaThreshold := 2;
     StreamProcessor.keepAliveMs := 2000;
     StreamProcessor.maxBufferSize := 10 |}.

Definition cdpMeta : StreamProcessor.CDPMetadata :=
  {| StreamProcessor.cdp_offsetTop := 0;
     StreamProcessor.cdp_pageScaleFactor := 1;
     StreamProcessor.cdp_deviceWidth := 1280;
     StreamProcessor.cdp_deviceHeight := 800;
     StreamProcessor.cdp_scrollOffsetX := 0;
     StreamProcessor.cdp_scrollOffsetY := 0;
     StreamProcessor.cdp_timestamp := 0 |}.

Definition imageA : string := image Byte.x02 Byte.x01 [Byte.x01; Byte.x01].
Definition imageB : string := image Byte.x02 Byte.x01 [Byte.x09; Byte.x09].
Definition imageWide : string :=
  image Byte.x03 Byte.x01 [Byte.x01; Byte.x01; Byte.x01].

Definition screencast (d : string) : StreamProcessor.CDPScreencastFrameEvent :=
  {| StreamProcessor.ev_data := d;
     StreamProcessor.ev_metadata := cdpMeta;
     StreamProcessor.ev_sessionId := 1 |}.

(** An image of ten by ten pixels of which the first [k] are lit. *)
Definition imageLit (k : nat) : string :=
  image Byte.x0a Byte.x0a (repeat Byte.x01 k ++ repeat Byte.x00 (100 - k)).

(** A stream processor that has received [imageA] as its first frame, at
    1000 ms. *)
Definition afterFirstFrame : StreamProcessor.t :=
  fst (StreamProcessor.handleScreencastFrame (IM := toyImaging)
         (StreamProcessor.initialize (StreamProcessor.create streamConfig))
         (screencast imageA) 1000 1000).

End Samples.

(* ===================================================================== *)
(** * Vocabulary of the properties *)
(* ===================================================================== *)

(** Strictly ascending frame ids. *)
Definition ascending (fs : list ScreencastFrame) : Prop :=
  StronglySorted (fun a b => frameId a < frameId b) fs.

(** The last [n] elements of a list. *)
Definition lastN {A : Type} (n : nat) (l : list A) : list A :=
  drop (length l - n) l.

(** The pixel comparison of [prev] with [cur] cannot be performed: a
    decode fails, the dimensions differ, or [pixelmatch] throws. *)
Definition comparisonFails {IM : Imaging} (prev cur : Buffer) : Prop :=
  match sharp_raw prev, sharp_raw cur with
  | Some a, Some b =>
      raw_width a <> raw_width b
      \/ raw_height a <> raw_height b
      \/ pixelmatch (raw_data a) (raw_data b) (raw_width a) (raw_height a)
         = None
  | _, _ => True
  end.

(** A sequence of [addFrame] calls, each with the clock it runs at. *)
Fixpoint addFrames (fb : FrameBuffer.t) (inputs : list (ScreencastFrame * Z))
  : option FrameBuffer.t :=
  match inputs with
  | [] => Some fb
  | (frame, now) :: r =>
      match FrameBuffer.addFrame fb frame now with
      | Some (fb', _) => addFrames fb' r
      | None => None
      end
  end.

Section Vocabulary.
Import FrameBuffer EventLoop.

(** [q] is not the object [p]. *)
Definition otherThan (p : PendingAction) (q : PendingAction) : bool :=
  negb (Nat.eqb (pa_id q) (pa_id p)).

(** The promise [i] is the one of a registered listener or of a pending
    action. *)
Definition known (fb : FrameBuffer.t) (i : nat) : Prop :=
  (exists h, In h (listeners fb) /\ handler_id h = i)
  \/ (exists q, In q (pendingActions fb) /\ pa_id q = i).

(** Effects that set no timer and settle only promises in [ids]. *)
Definition quiet (ids : nat -> Prop) (effs : list Effect) : Prop :=
  forall e, In e effs ->
  match e with
  | Settle i _ => ids i
  | SetTimeout _ _ => False
  | ClearTimeout _ => True
  end.

(** Effects that leave [p] alone. *)
Definition benign (p : nat) (effs : list Effect) : Prop :=
  forall e, In e effs ->
  match e with
  | Settle i _ => i <> p
  | SetTimeout cb _ => timer_owner cb <> Some p
  | ClearTimeout _ => True
  end.

(** All timers of the queue are due strictly after the current clock. *)
Definition timersAhead (w : World) : Prop :=
  forall tm, In tm (timers w) -> clock w < due tm.

(** The promise [p] exists, is unsettled, and no listener, pending action
    or clearable timer refers to it. *)
Definition dormant (p : nat) (w : World) : Prop :=
  promises w !! p = None
  /\ ~ known (buffer w) p
  /\ (forall tm, In tm (timers w) -> timer_owner (callback tm) <> Some p)
  /\ (p < nextPromise w)%nat.

(** [tm] is the deadline timer of the call whose promise is [p]. *)
Definition deadlineOf (p : nat) (tm : Timer) : Prop :=
  match callback tm with
  | ActionDeadline pending _ _ => pa_id pending = p
  | _ => False
  end.

(** The call whose promise is [p] has an entry in [pendingActions]. *)
Definition pendingFor (p : nat) (fb : FrameBuffer.t) : Prop :=
  exists q, In q (pendingActions fb) /\ pa_id q = p.

(** [p] is settled or still pending. *)
Definition live (p : nat) (w : World) : Prop :=
  is_Some (promises w !! p) \/ pendingFor p (buffer w).

(** [p] is settled, or it is pending with its deadline timer armed for
    [D] at the latest. *)
Definition held (p : nat) (D : Z) (w : World) : Prop :=
  is_Some (promises w !! p)
  \/ (pendingFor p (buffer w)
      /\ exists tm, In tm (timers w) /\ deadlineOf p tm /\ due tm <= D).

(** Every pending action carries the promise of a call that was allocated
    and has left the table of suspended calls, and no two share one. *)
Definition distinctPending (w : World) : Prop :=
  NoDup (map pa_id (pendingActions (buffer w)))
  /\ (forall q, In q (pendingActions (buffer w)) ->
        (pa_id q < nextPromise w)%nat /\ calls w !! pa_id q = None)
  /\ (forall k, is_Some (calls w !! k) -> (k < nextPromise w)%nat).

(** The world after frame 1 was added at 10 ms and a click was registered
    at 20 ms: promise 0 is suspended on its executor. *)
Definition clickIssued : option World :=
  run (boot DEFAULT_CONFIG)
    [(10, AddFrame (Samples.mkFrame 1 true 100));
     (20, RegisterAction Samples.click)].

(** The click of [clickIssued] after its executor succeeded at 30 ms: the
    action now waits for a stable frame or for its deadline at 2030 ms. *)
Definition clickPending : option World :=
  run (boot DEFAULT_CONFIG)
    [(10, AddFrame (Samples.mkFrame 1 true 100));
     (20, RegisterAction Samples.click);
     (30, ExecutorSettles 0 (Returned (Samples.okResult Samples.click)))].

(** As [clickIssued], with frame 2 arriving at 25 ms, while the executor
    of the click is running. *)
Definition clickOvertaken : option World :=
  run (boot DEFAULT_CONFIG)
    [(10, AddFrame (Samples.mkFrame 1 true 100));
     (20, RegisterAction Samples.click);
     (25, AddFrame (Samples.mkFrame 2 true 40))].

(** As [clickIssued], for a [wait] action. *)
Definition pauseIssued : option World :=
  run (boot DEFAULT_CONFIG)
    [(10, AddFrame (Samples.mkFrame 1 true 100));
     (20, RegisterAction Samples.pause)].

(** Every [clearTimeout] of a batch comes with the settlement of the
    promise of the wait that owned the timer. *)
Definition paired (effs : list Effect) : Prop :=
  forall q, In (ClearTimeout q) effs -> exists o, In (Settle q o) effs.

Definition clears (p : nat) (e : Effect) : bool :=
  match e with
  | ClearTimeout q => Nat.eqb q p
  | _ => false
  end.

(** The wait whose promise is [p] is settled, or its timer, with the
    callback [cb], is armed, due after the current clock and at [D] at the
    latest, in a world where [Inv] holds. *)
Definition armed (Inv : World -> Prop) (cb : TimerCallback) (p : nat) (D : Z)
  (w : World) : Prop :=
  is_Some (promises w !! p)
  \/ (Inv w
      /\ exists tm, In tm (timers w) /\ callback tm = cb
                    /\ due tm <= D /\ clock w < due tm).

Definition isStable (h : Handler) : bool :=
  match h with
  | StableFrameHandler _ _ _ _ => true
  | NextFrameHandler _ _ => false
  end.

(** The listeners with the identity [p] are handlers of
    [waitForStableFrame], and there is one. *)
Definition stableListed (p : nat) (hs : list Handler) : Prop :=
  (exists h, In h hs /\ handler_id h = p)
  /\ (forall h, In h hs -> handler_id h = p -> isStable h = true).

End Vocabulary.

Section StableVocabulary.
Import FrameBuffer.

(** A frame that restarts the stable period of [waitForStableFrame]. *)
Definition significant (cfg : FrameBufferConfig) (frame : ScreencastFrame)
  : Prop :=
  hasChange frame = true /\ (stabilityThreshold cfg < deltaPercent frame)%Q.

(** The wait whose promise is [p] is registered in [fb] with the handler
    [h], and nothing else in [fb] belongs to [p]. *)
Definition watching (p : nat) (h : Handler) (fb : FrameBuffer.t) : Prop :=
  handler_id h = p
  /\ (exists l1 l2, listeners fb = l1 ++ h :: l2
        /\ forall k, In k (l1 ++ l2) -> handler_id k <> p)
  /\ ~ pendingFor p fb.

End StableVocabulary.

Section DoubleVocabulary.

(** [m * 2^e]. *)
Definition scaled (m e : Z) : Q := inject_Z m * Qpower 2 e.

(** The shifted mantissa [mrs] at exponent [e] lies at or below [x], and
    strictly below when a bit was shifted out. *)
Definition below (x : Q) (mrs : SpecFloat.shr_record) (e : Z) : Prop :=
  0 <= SpecFloat.shr_m mrs
  /\ (scaled (SpecFloat.shr_m mrs) e <= x)%Q
  /\ (SpecFloat.shr_r mrs || SpecFloat.shr_s mrs = true ->
      (scaled (SpecFloat.shr_m mrs) e < x)%Q).

(** A double that is zero, or positive and at most [B] with an exponent
    of at most [k]. *)
Definition atMost (B : Q) (k : Z) (f : Double.t) : Prop :=
  f = SpecFloat.S754_zero false
  \/ exists m e, f = SpecFloat.S754_finite false m e
                 /\ (scaled (Z.pos m) e <= B)%Q /\ e <= k.

End DoubleVocabulary.

Section StreamVocabulary.
Import StreamProcessor StreamControl.
Context {IM : Imaging}.

(** The keep-alive interval exists exactly while the processor streams,
    and was set with half of the current [keepAliveMs]. *)
Definition timerInSync (s : StreamControl.t) : Prop :=
  cdpSession (processor s) = true
  /\ keepAliveTimer s
     = if isStreaming (processor s)
       then Some (intervalDelay
                    (inject_Z (keepAliveMs (config (processor s))) / 2)%Q)
       else None.

Definition isScreencast (i : Input) : bool :=
  match i with
  | Screencast _ _ _ => true
  | _ => false
  end.

(** The number of screencast events among the inputs. *)
Definition arrivals (inputs : list Input) : Z :=
  Z.of_nat (length (List.filter isScreencast inputs)).

(** Screencast events, each with the two clock readings of its handling,
    of which every one stays below the threshold when compared with the
    one before it (the first with [prev]). *)
Fixpoint gradual (cfg : StreamConfig) (prev : Buffer)
  (evs : list (CDPScreencastFrameEvent * Z * Z)) : Prop :=
  match evs with
  | [] => True
  | (e, _, _) :: r =>
      let cur := Buffer_from_base64 (ev_data e) in
      cmp_hasChange (compareFrames cfg prev cur) = false
      /\ gradual cfg cur r
  end.

Definition screencasts (evs : list (CDPScreencastFrameEvent * Z * Z))
  : list Input :=
  map (fun x => Screencast (fst (fst x)) (snd (fst x)) (snd x)) evs.

(** The buffer [ChromeStreamController] constructs:
    [new FrameBuffer({ maxSize: config.maxBufferSize })]. *)
Definition controllerBuffer (cfg : StreamConfig) : FrameBuffer.t :=
  FrameBuffer.create
    {| FrameBuffer.maxSize := maxBufferSize cfg;
       FrameBuffer.stabilityWaitMs :=
         FrameBuffer.stabilityWaitMs FrameBuffer.DEFAULT_CONFIG;
       FrameBuffer.maxWaitMs := FrameBuffer.maxWaitMs FrameBuffer.DEFAULT_CONFIG;
       FrameBuffer.stabilityThreshold :=
         FrameBuffer.stabilityThreshold FrameBuffer.DEFAULT_CONFIG |}.

(** The forwarding [ChromeStreamController.start] installs with
    [onFrame]: every frame the processor emits is added to the buffer;
    [clock] gives the time at which each is added. *)
Definition forward (fb : FrameBuffer.t) (emitted : list ScreencastFrame)
  (clock : ScreencastFrame -> Z) : option FrameBuffer.t :=
  addFrames fb (map (fun f => (f, clock f)) emitted).

End StreamVocabulary.

Section TimeoutVocabulary.
Import FrameBuffer EventLoop.

(** The timer [tm] belongs neither to the call nor to a wait whose promise
    is [p]. *)
Definition foreign (p : nat) (tm : Timer) : Prop :=
  ~ deadlineOf p tm /\ timer_owner (callback tm) <> Some p.

(** The call whose promise is [p] has an entry in [pendingActions] and
    has not been answered, in a buffer that holds the frames [fs]. *)
Definition unanswered (p : nat) (fs : list ScreencastFrame) (w : World)
  : Prop :=
  promises w !! p = None
  /\ pendingFor p (buffer w)
  /\ frames (buffer w) = fs
  /\ calls w !! p = None
  /\ (p < nextPromise w)%nat.

(** The result of a call that was answered by its deadline, not before
    the time [due], with the frames [fs] in the buffer. *)
Definition timedOut (pending : PendingAction) (result : ActionResult)
  (before : ScreencastFrame) (fs : list ScreencastFrame) (due : Z)
  (v : FrameActionResult) : Prop :=
  far_action v = pa_action pending
  /\ far_result v = result
  /\ beforeFrame v = Some before
  /\ afterFrame v = last fs
  /\ causedChange v
     = match last fs with
       | Some l => negb (frameId l =? frameId before)
       | None => false
       end
  /\ due - pa_timestamp pending <= latencyMs v.

Definition resolvedWith (p : nat) (P : FrameActionResult -> Prop) (w : World)
  : Prop :=
  exists v, promises w !! p = Some (Resolved (ActionValue v)) /\ P v.

(** The unanswered call [p] has its deadline [tm] ahead, and every other
    timer of the queue is foreign to it. *)
Definition awaitsDeadline (p : nat) (tm : Timer) (fs : list ScreencastFrame)
  (w : World) : Prop :=
  unanswered p fs w
  /\ In tm (timers w)
  /\ clock w < due tm
  /\ (forall x, In x (timers w) -> x = tm \/ foreign p x).

(** Neither a new frame nor [clear()]. *)
Definition noFrameEvent (ev : Event) : Prop :=
  match ev with
  | AddFrame _ | Clear => False
  | _ => True
  end.

End TimeoutVocabulary.

Section InputVocabulary.
Import InputController.

(** The positions the pointer is moved to, in order. *)
Fixpoint pointerPath (ops : list PageOp) : list (Q * Q) :=
  match ops with
  | [] => []
  | MouseMove x y :: r => (x, y) :: pointerPath r
  | _ :: r => pointerPath r
  end.

Definition isButton (op : PageOp) : bool :=
  match op with
  | MouseDown | MouseUp => true
  | _ => false
  end.

End InputVocabulary.

(* ===================================================================== *)
(** * FrameBuffer: the frame store *)
(* ===================================================================== *)

Section FrameStore.
Import FrameBuffer.

Lemma trim_terminates (m : Z) :
  0 <= m ->
  forall fuel fs, (length fs <= fuel)%nat ->
  trim fuel m fs = Some (lastN (Z.to_nat m) fs).
Proof.
  intros Hm. induction fuel as [|k IH]; intros fs Hlen; simpl.
  - destruct (Z.ltb_spec m (Z.of_nat (length fs))) as [H|H]; [lia|].
    unfold lastN. replace (length fs - Z.to_nat m)%nat with O by lia.
    reflexivity.
  - destruct (Z.ltb_spec m (Z.of_nat (length fs))) as [H|H].
    + destruct fs as [|x r]; [simpl in H; lia|].
      cbn [tail]. rewrite length_cons in *.
      rewrite IH by lia. unfold lastN. rewrite length_cons.
      replace (S (length r) - Z.to_nat m)%nat
        with (S (length r - Z.to_nat m)) by lia.
      reflexivity.
    + unfold lastN.
      replace (length fs - Z.to_nat m)%nat with O by lia.
      reflexivity.
Qed.

Lemma trim_diverges (m : Z) :
  m < 0 -> forall fuel fs, trim fuel m fs = None.
Proof.
  intros Hm. induction fuel as [|k IH]; intros fs; simpl;
    destruct (Z.ltb_spec m (Z.of_nat (length fs))) as [H|H];
    try reflexivity; try apply IH; lia.
Qed.

Lemma lastN_length {A : Type} (n : nat) (l : list A) :
  (length (lastN n l) <= n)%nat.
Proof. unfold lastN. rewrite length_drop. lia. Qed.

Lemma lastN_all {A : Type} (n : nat) (l : list A) :
  (length l <= n)%nat -> lastN n l = l.
Proof.
  intros H. unfold lastN.
  replace (length l - n)%nat with O by lia. reflexivity.
Qed.

Lemma lastN_app_l {A : Type} (n : nat) (l k : list A) :
  lastN n (lastN n l ++ k) = lastN n (l ++ k).
Proof.
  destruct (le_lt_dec (length l) n) as [Hle|Hgt].
  - rewrite (lastN_all n l Hle). reflexivity.
  - unfold lastN. rewrite !length_app, length_drop.
    set (a := (length l - n)%nat).
    replace (length l - a + length k - n)%nat with (length k) by lia.
    rewrite <- (take_drop a l) at 3.
    rewrite <- app_assoc.
    replace (length l + length k - n)%nat with (a + length k)%nat by lia.
    rewrite drop_app_add'; [reflexivity|].
    rewrite length_take. lia.
Qed.

Lemma ascending_lastN (n : nat) (fs : list ScreencastFrame) :
  ascending fs -> ascending (lastN n fs).
Proof.
  unfold ascending, lastN. intros H.
  rewrite <- (take_drop (length fs - n) fs) in H.
  exact (StronglySorted_app_1_r _ _ _ H).
Qed.

Lemma resolveAll_frames frame now :
  forall toResolve fb,
  frames (fst (resolveAll fb frame now toResolve)) = frames fb.
Proof.
  induction toResolve as [|p r IH]; intros fb; simpl; [reflexivity|].
  destruct (indexOf p (pendingActions fb)) as [i|]; [|apply IH].
  specialize (IH (set_pendingActions fb (delete i (pendingActions fb)))).
  destruct (resolveAll _ frame now r) as [fb'' effs]. exact IH.
Qed.

Lemma resolveAll_config frame now :
  forall toResolve fb,
  config (fst (resolveAll fb frame now toResolve)) = config fb.
Proof.
  induction toResolve as [|p r IH]; intros fb; simpl; [reflexivity|].
  destruct (indexOf p (pendingActions fb)) as [i|]; [|apply IH].
  specialize (IH (set_pendingActions fb (delete i (pendingActions fb)))).
  destruct (resolveAll _ frame now r) as [fb'' effs]. exact IH.
Qed.

(** [addFrame] returns exactly when [maxSize] is not negative, and then
    the store is the last [maxSize] frames of the pushed array. *)
Lemma addFrame_frames fb frame now :
  0 <= maxSize (config fb) ->
  exists fb' effs,
    addFrame fb frame now = Some (fb', effs)
    /\ frames fb' = lastN (Z.to_nat (maxSize (config fb))) (frames fb ++ [frame])
    /\ config fb' = config fb.
Proof.
  intros Hm. unfold addFrame.
  rewrite (trim_terminates _ Hm) by lia.
  set (fb1 := set_frames fb _).
  destruct (emitFrameAdded _ _ frame now) as [ls e1].
  unfold checkPendingActions.
  pose proof (resolveAll_frames frame now
    (List.filter (stableFor (config (set_listeners fb1 ls)) frame now)
       (pendingActions (set_listeners fb1 ls))) (set_listeners fb1 ls)) as Hf.
  pose proof (resolveAll_config frame now
    (List.filter (stableFor (config (set_listeners fb1 ls)) frame now)
       (pendingActions (set_listeners fb1 ls))) (set_listeners fb1 ls)) as Hc.
  destruct (resolveAll _ frame now _) as [fb3 e2].
  exists fb3, (e1 ++ e2). split; [reflexivity|].
  split; [exact Hf | exact Hc].
Qed.

Lemma addFrame_hangs fb frame now :
  maxSize (config fb) < 0 -> addFrame fb frame now = None.
Proof.
  intros Hm. unfold addFrame. rewrite (trim_diverges _ Hm). reflexivity.
Qed.

Lemma addFrames_frames (inputs : list (ScreencastFrame * Z)) :
  forall fb,
  0 <= maxSize (config fb) ->
  Z.of_nat (length (frames fb)) <= maxSize (config fb) ->
  exists fb',
    addFrames fb inputs = Some fb'
    /\ frames fb'
       = lastN (Z.to_nat (maxSize (config fb))) (frames fb ++ map fst inputs).
Proof.
  induction inputs as [|[frame now] r IH]; intros fb Hm Hlen.
  - exists fb. split; [reflexivity|].
    simpl. rewrite app_nil_r. symmetry. apply lastN_all. lia.
  - simpl.
    destruct (addFrame_frames fb frame now Hm) as (fb1 & effs & -> & Hf & Hc).
    destruct (IH fb1) as (fb' & Hrun & Hfr).
    + rewrite Hc. exact Hm.
    + rewrite Hc, Hf.
      pose proof (lastN_length (Z.to_nat (maxSize (config fb)))
                    (frames fb ++ [frame])). lia.
    + exists fb'. split; [exact Hrun|].
      rewrite Hfr, Hc, Hf, lastN_app_l, <- app_assoc. reflexivity.
Qed.

(** C5, as the code has it: for a capacity that is not negative, every
    sequence of [addFrame] calls ends (the trimming loop terminates), the
    store never holds more than [maxSize] frames, and it holds exactly the
    most recently added frames, oldest evicted first, in the order they
    were added; that order is strictly ascending in [frameId] whenever the
    frames were added with strictly ascending ids. *)
Theorem addFrames_bounded_fifo (fb : FrameBuffer.t)
  (inputs : list (ScreencastFrame * Z)) :
  0 <= maxSize (config fb) ->
  Z.of_nat (length (frames fb)) <= maxSize (config fb) ->
  exists fb',
    addFrames fb inputs = Some fb'
    /\ Z.of_nat (length (frames fb')) <= maxSize (config fb)
    /\ frames fb'
       = lastN (Z.to_nat (maxSize (config fb))) (frames fb ++ map fst inputs)
    /\ (ascending (frames fb ++ map fst inputs) -> ascending (frames fb')).
Proof.
  intros Hm Hlen.
  destruct (addFrames_frames inputs fb Hm Hlen) as (fb' & Hrun & Hfr).
  exists fb'. split; [exact Hrun|]. split; [|split; [exact Hfr|]].
  - rewrite Hfr.
    pose proof (lastN_length (Z.to_nat (maxSize (config fb)))
                  (frames fb ++ map fst inputs)). lia.
  - intros Hasc. rewrite Hfr. apply ascending_lastN. exact Hasc.
Qed.

(** A store of capacity 2 that receives frames 1, 2 and 3. *)
Lemma addFrames_bounded_fifo_witness :
  let fb := FrameBuffer.create
              {| maxSize := 2; stabilityWaitMs := 200; maxWaitMs := 2000;
                 stabilityThreshold := 0.5 |} in
  let inputs := [(Samples.mkFrame 1 true 100, 10);
                 (Samples.mkFrame 2 true 5, 20);
                 (Samples.mkFrame 3 false 0, 30)] in
  0 <= maxSize (config fb)
  /\ Z.of_nat (length (frames fb)) <= maxSize (config fb)
  /\ ascending (frames fb ++ map fst inputs)
  /\ exists fb',
       addFrames fb inputs = Some fb'
       /\ map frameId (frames fb') = [2; 3]
       /\ ascending (frames fb').
Proof.
  intros fb inputs.
  assert (H0 : 0 <= maxSize (config fb)) by (simpl; lia).
  assert (H1 : Z.of_nat (length (frames fb)) <= maxSize (config fb))
    by (simpl; lia).
  assert (H2 : ascending (frames fb ++ map fst inputs)).
  { unfold ascending. simpl.
    repeat (constructor; [|repeat constructor; simpl; lia]). constructor. }
  destruct (addFrames_bounded_fifo fb inputs H0 H1) as (fb' & Hrun & _ & Hfr & Ha).
  split; [exact H0|]. split; [exact H1|]. split; [exact H2|].
  exists fb'. split; [exact Hrun|]. split; [|exact (Ha H2)].
  rewrite Hfr. reflexivity.
Defined.

(** C5 as worded fails: [addFrame] stores whatever order it is given. *)
Lemma addFrames_not_ascending :
  exists fb',
    addFrames (FrameBuffer.create DEFAULT_CONFIG)
      [(Samples.mkFrame 2 true 100, 10); (Samples.mkFrame 1 true 100, 20)]
    = Some fb'
    /\ map frameId (frames fb') = [2; 1]
    /\ ~ ascending (frames fb').
Proof.
  eexists. split; [vm_compute; reflexivity|]. split; [reflexivity|].
  unfold ascending. intros H. simpl in H.
  apply StronglySorted_inv in H as [_ H].
  apply Forall_cons in H as [H _]. simpl in H. lia.
Qed.

(** ** getFramesSince *)

Lemma findIndex_None {A : Type} (p : A -> bool) (l : list A) :
  findIndex p l = None <-> forall x, In x l -> p x = false.
Proof.
  induction l as [|a r IH]; simpl.
  - split; [intros _ x []|reflexivity].
  - destruct (p a) eqn:E.
    + split; [discriminate|]. intros H. specialize (H a (or_introl eq_refl)).
      congruence.
    + split.
      * intros H x [->|Hx]; [exact E|].
        destruct (findIndex p r) eqn:F; [discriminate|].
        exact (proj1 IH eq_refl x Hx).
      * intros H. destruct (findIndex p r) eqn:F; [|reflexivity].
        assert (Hn : Some n = None); [|discriminate].
        apply IH. intros x Hx. apply H. now right.
Qed.

Lemma filter_all {A : Type} (p : A -> bool) (l : list A) :
  (forall x, In x l -> p x = true) -> List.filter p l = l.
Proof.
  induction l as [|a r IH]; simpl; intros H; [reflexivity|].
  rewrite (H a (or_introl eq_refl)). f_equal. apply IH.
  intros x Hx. apply H. now right.
Qed.

Lemma getFramesSince_present (fs : list ScreencastFrame) (id : Z) :
  ascending fs ->
  (exists f, In f fs /\ frameId f = id) ->
  match findIndex (fun f => frameId f =? id) fs with
  | None => []
  | Some index => drop (S index) fs
  end = List.filter (fun f => id <? frameId f) fs.
Proof.
  unfold ascending. induction fs as [|a r IH]; intros Hs (f & Hin & Hid).
  - destruct Hin.
  - apply StronglySorted_inv in Hs as [Hr Ha]. simpl.
    rewrite Forall_forall in Ha.
    destruct (Z.eqb_spec (frameId a) id) as [E|E].
    + simpl. destruct (Z.ltb_spec id (frameId a)) as [L|L]; [lia|].
      symmetry. apply filter_all. intros x Hx.
      apply list_elem_of_In, Ha in Hx. apply Z.ltb_lt. lia.
    + destruct Hin as [->|Hin]; [contradiction|].
      assert (Hlt : frameId a < id).
      { apply list_elem_of_In, Ha in Hin. lia. }
      destruct (Z.ltb_spec id (frameId a)) as [L|L]; [lia|].
      rewrite <- IH; [|exact Hr|exists f; auto].
      destruct (findIndex _ r) as [i|]; reflexivity.
Qed.

(** C9, as the code has it: when no buffered frame has exactly the given
    id, [getFramesSince] returns the empty list; when one has, and the
    buffer is in strictly ascending id order, it returns exactly the
    buffered frames with a strictly greater id, in buffer order. *)
Theorem getFramesSince_spec (fb : FrameBuffer.t) (id : Z) :
  ((forall f, In f (frames fb) -> frameId f <> id) ->
   getFramesSince fb id = [])
  /\ (ascending (frames fb) ->
      (exists f, In f (frames fb) /\ frameId f = id) ->
      getFramesSince fb id
      = List.filter (fun f => id <? frameId f) (frames fb)).
Proof.
  split.
  - intros H. unfold getFramesSince.
    assert (Hn : findIndex (fun f => frameId f =? id) (frames fb) = None).
    { apply findIndex_None. intros x Hx. apply Z.eqb_neq. auto. }
    rewrite Hn. reflexivity.
  - intros Hs Hex. unfold getFramesSince.
    apply getFramesSince_present; assumption.
Qed.

Lemma getFramesSince_spec_witness :
  let fb := set_frames (FrameBuffer.create DEFAULT_CONFIG)
              [Samples.mkFrame 2 true 100; Samples.mkFrame 3 true 5;
               Samples.mkFrame 4 false 0] in
  map frameId (getFramesSince fb 3) = [4]
  /\ getFramesSince fb 1 = [].
Proof.
  intros fb.
  destruct (getFramesSince_spec fb 3) as [_ Hin].
  destruct (getFramesSince_spec fb 1) as [Hout _].
  split.
  - rewrite Hin; [reflexivity| |].
    + unfold ascending. simpl.
      repeat (constructor; [|repeat constructor; simpl; lia]). constructor.
    + exists (Samples.mkFrame 3 true 5). split; [simpl; auto|reflexivity].
  - apply Hout. simpl. intros f [<-|[<-|[<-|[]]]]; simpl; lia.
Defined.

(** C9 as worded fails once the cutoff frame is gone: frames 2 and 3 are
    buffered and both newer than frame 1, yet nothing is returned. *)
Lemma getFramesSince_evicted_cutoff :
  let fb := set_frames (FrameBuffer.create DEFAULT_CONFIG)
              [Samples.mkFrame 2 true 100; Samples.mkFrame 3 true 5] in
  getFramesSince fb 1 = []
  /\ map frameId (List.filter (fun f => 1 <? frameId f) (frames fb)) = [2; 3].
Proof. split; reflexivity. Qed.

End FrameStore.

(* ===================================================================== *)
(** * FrameBuffer: correlation of actions with frames *)
(* ===================================================================== *)

Section Correlation.
Import FrameBuffer.

Lemma NoDup_map_inj {A B : Type} (f : A -> B) (l : list A) (a b : A) :
  NoDup (map f l) -> In a l -> In b l -> f a = f b -> a = b.
Proof.
  induction l as [|x r IH]; simpl; intros Hnd Ha Hb Hf; [destruct Ha|].
  apply NoDup_cons in Hnd as [Hx Hr].
  assert (Hnot : forall y, In y r -> f y <> f x).
  { intros y Hy E. apply Hx. rewrite <- E.
    apply list_elem_of_In, in_map, Hy. }
  destruct Ha as [->|Ha], Hb as [->|Hb]; auto.
  - exfalso. exact (Hnot b Hb (eq_sym Hf)).
  - exfalso. exact (Hnot a Ha Hf).
Qed.

Lemma NoDup_map_filter {A B : Type} (f : A -> B) (p : A -> bool) (l : list A) :
  NoDup (map f l) -> NoDup (map f (List.filter p l)).
Proof.
  induction l as [|x r IH]; simpl; intros Hnd; [constructor|].
  apply NoDup_cons in Hnd as [Hx Hr].
  destruct (p x); simpl; [|auto].
  apply NoDup_cons. split; [|auto].
  intros Hin. apply Hx.
  apply list_elem_of_In, in_map_iff in Hin as (y & Hy & Hin).
  apply filter_In in Hin as [Hin _].
  rewrite <- Hy. apply list_elem_of_In, in_map, Hin.
Qed.

(** With distinct objects in the array, [splice(indexOf(p), 1)] removes
    the object [p] and nothing else. *)
Lemma delete_indexOf (p : PendingAction) :
  forall l i,
  NoDup (map pa_id l) ->
  indexOf p l = Some i ->
  delete i l = List.filter (otherThan p) l.
Proof.
  unfold indexOf, otherThan.
  induction l as [|a r IH]; simpl; intros i Hnd Hi; [discriminate|].
  apply NoDup_cons in Hnd as [Ha Hr].
  destruct (Nat.eqb_spec (pa_id a) (pa_id p)) as [E|E]; simpl.
  - injection Hi as <-. simpl. symmetry. apply filter_all.
    intros x Hx. apply negb_true_iff, Nat.eqb_neq. intros Ex.
    apply Ha. rewrite E, <- Ex. apply list_elem_of_In, in_map, Hx.
  - destruct (findIndex _ r) as [j|] eqn:F; simpl in Hi; [|discriminate].
    injection Hi as <-. simpl. f_equal. apply IH; auto.
Qed.

Lemma indexOf_None (p : PendingAction) (l : list PendingAction) :
  indexOf p l = None -> List.filter (otherThan p) l = l.
Proof.
  unfold indexOf. intros H. apply filter_all. intros x Hx.
  unfold otherThan. rewrite (proj1 (findIndex_None _ _) H x Hx). reflexivity.
Qed.

Lemma indexOf_In (p : PendingAction) (l : list PendingAction) :
  In p l -> exists i, indexOf p l = Some i.
Proof.
  unfold indexOf. intros Hin.
  destruct (findIndex _ l) as [i|] eqn:F; [eauto|].
  pose proof (proj1 (findIndex_None _ _) F p Hin) as H. simpl in H.
  rewrite Nat.eqb_refl in H. discriminate.
Qed.

Lemma frameResult_frames fb1 fb2 frame now p :
  frames fb1 = frames fb2 ->
  frameResult fb1 frame now p = frameResult fb2 frame now p.
Proof. unfold frameResult, getFrame. intros ->. reflexivity. Qed.

(** What is left pending after the resolution loop. *)
Lemma resolveAll_pending frame now :
  forall toResolve fb,
  NoDup (map pa_id (pendingActions fb)) ->
  forall q,
  In q (pendingActions (fst (resolveAll fb frame now toResolve)))
  <-> In q (pendingActions fb)
      /\ forall p, In p toResolve -> pa_id p <> pa_id q.
Proof.
  induction toResolve as [|p r IH]; intros fb Hnd q; simpl.
  - split; [intros H; split; [exact H|intros p []]|intros [H _]; exact H].
  - assert (Hstep : forall fb1,
      pendingActions fb1 = List.filter (otherThan p) (pendingActions fb) ->
      In q (pendingActions (fst (resolveAll fb1 frame now r)))
      <-> In q (pendingActions fb)
          /\ forall p0, p = p0 \/ In p0 r -> pa_id p0 <> pa_id q).
    { intros fb1 E. rewrite IH by (rewrite E; apply NoDup_map_filter, Hnd).
      rewrite E, filter_In. unfold otherThan.
      rewrite negb_true_iff, Nat.eqb_neq.
      split.
      - intros [[Hq Hne] Hr]. split; [exact Hq|].
        intros p0 [<-|Hp0]; [congruence|auto].
      - intros [Hq Hall]. split; [split; [exact Hq|]|].
        + intros E'. exact (Hall p (or_introl eq_refl) (eq_sym E')).
        + intros p0 Hp0. apply Hall. now right. }
    destruct (indexOf p (pendingActions fb)) as [i|] eqn:F.
    + specialize (Hstep (set_pendingActions fb (delete i (pendingActions fb)))
                    (delete_indexOf p _ i Hnd F)).
      destruct (resolveAll _ frame now r) as [fb'' effs]. exact Hstep.
    + apply Hstep. simpl. symmetry. apply indexOf_None, F.
Qed.

(** Every settlement made by the loop is that of an element of
    [toResolve], with the result built from the incoming frame. *)
Lemma resolveAll_effects_sound frame now :
  forall toResolve fb e,
  In e (snd (resolveAll fb frame now toResolve)) ->
  exists p, In p toResolve
    /\ e = Settle (pa_id p)
             (Resolved (ActionValue (frameResult fb frame now p))).
Proof.
  induction toResolve as [|p r IH]; intros fb e; simpl; [intros []|].
  destruct (indexOf p (pendingActions fb)) as [i|].
  - pose proof (IH (set_pendingActions fb (delete i (pendingActions fb))) e)
      as IH'.
    destruct (resolveAll _ frame now r) as [fb'' effs]. simpl in *.
    intros [<-|Hin].
    + exists p. split; [now left|]. reflexivity.
    + destruct (IH' Hin) as (p0 & Hp0 & ->). exists p0. split; [now right|].
      reflexivity.
  - intros Hin. destruct (IH fb e Hin) as (p0 & Hp0 & ->).
    exists p0. split; [now right|reflexivity].
Qed.

Lemma resolveAll_effects_complete frame now :
  forall toResolve fb p,
  NoDup (map pa_id (pendingActions fb)) ->
  NoDup (map pa_id toResolve) ->
  In p toResolve ->
  In p (pendingActions fb) ->
  In (Settle (pa_id p) (Resolved (ActionValue (frameResult fb frame now p))))
     (snd (resolveAll fb frame now toResolve)).
Proof.
  induction toResolve as [|p0 r IH]; intros fb p Hnd Hnr Hp Hin; simpl;
    [destruct Hp|].
  simpl in Hnr. apply NoDup_cons in Hnr as [Hp0 Hr].
  destruct Hp as [->|Hp].
  - destruct (indexOf_In p _ Hin) as [i ->].
    destruct (resolveAll _ frame now r) as [fb'' effs]. simpl. now left.
  - assert (Hne : pa_id p <> pa_id p0).
    { intros E. apply Hp0. rewrite <- E. apply list_elem_of_In, in_map, Hp. }
    destruct (indexOf p0 (pendingActions fb)) as [i|] eqn:F.
    + pose proof (IH (set_pendingActions fb (delete i (pendingActions fb))) p)
        as IH'.
      simpl in IH'. rewrite (delete_indexOf p0 _ i Hnd F) in IH'.
      specialize (IH' (NoDup_map_filter _ _ _ Hnd) Hr Hp).
      rewrite <- (delete_indexOf p0 _ i Hnd F) in IH'.
      destruct (resolveAll _ frame now r) as [fb'' effs]. simpl in *.
      right. apply IH'.
      rewrite (delete_indexOf p0 _ i Hnd F). apply filter_In. split; [exact Hin|].
      unfold otherThan. apply negb_true_iff, Nat.eqb_neq. exact Hne.
    + apply IH; assumption.
Qed.

Lemma stableFor_true cfg frame now pending :
  stableFor cfg frame now pending = true
  <-> pa_frameId pending < frameId frame
      /\ ((deltaPercent frame <= stabilityThreshold cfg)%Q
          \/ stabilityWaitMs cfg <= now - pa_timestamp pending).
Proof.
  unfold stableFor.
  destruct (Z.ltb_spec (pa_frameId pending) (frameId frame)) as [L|L].
  - rewrite orb_true_iff, Qle_bool_iff, Z.leb_le. intuition.
  - split; [discriminate|]. intros [H _]. lia.
Qed.

(** The listeners settle frame waits only. *)
Lemma emitFrameAdded_effects cfg frame now :
  forall hs e,
  In e (snd (emitFrameAdded cfg hs frame now)) ->
  (exists p, e = ClearTimeout p)
  \/ (exists p, e = Settle p (Resolved (FrameValue frame))).
Proof.
  induction hs as [|h r IH]; intros e; simpl; [intros []|].
  destruct (runHandler cfg h frame now) as [h' e1] eqn:Hh.
  destruct (emitFrameAdded cfg r frame now) as [r' e2]. simpl in *.
  rewrite in_app_iff. intros [Hin|Hin]; [|auto].
  unfold runHandler in Hh.
  destruct h as [p c|p d lct lf].
  - destruct (c <? frameId frame); injection Hh as <- <-;
      [|destruct Hin].
    destruct Hin as [<-|[<-|[]]]; eauto.
  - destruct (hasChange frame && _); [injection Hh as <- <-; destruct Hin|].
    destruct (d <=? now - lct); injection Hh as <- <-; [|destruct Hin].
    destruct Hin as [<-|[<-|[]]]; eauto.
Qed.

(** C4: for a frame passed to [addFrame] and a correlation pending at that
    moment, the correlation is resolved by the frame exactly when the
    frame's id is strictly greater than the correlation's reference id and
    the frame's [deltaPercent] is at most [stabilityThreshold] or at least
    [stabilityWaitMs] have passed since the action was issued; a resolved
    correlation leaves the pending table, its [afterFrame] is that frame
    and its [causedChange] is the frame's [hasChange]. *)
Theorem addFrame_resolves_exactly_stable (fb : FrameBuffer.t)
  (frame : ScreencastFrame) (now : Z) (pending : PendingAction) :
  0 <= maxSize (config fb) ->
  NoDup (map pa_id (pendingActions fb)) ->
  In pending (pendingActions fb) ->
  exists fb' effs,
    addFrame fb frame now = Some (fb', effs)
    /\ ((exists r,
           In (Settle (pa_id pending) (Resolved (ActionValue r))) effs)
        <-> frameId frame > pa_frameId pending
            /\ ((deltaPercent frame <= stabilityThreshold (config fb))%Q
                \/ now - pa_timestamp pending >= stabilityWaitMs (config fb)))
    /\ ((exists r,
           In (Settle (pa_id pending) (Resolved (ActionValue r))) effs)
        <-> ~ In pending (pendingActions fb'))
    /\ (forall r,
          In (Settle (pa_id pending) (Resolved (ActionValue r))) effs ->
          afterFrame r = Some frame /\ causedChange r = hasChange frame).
Proof.
  intros Hm Hnd Hin. unfold addFrame.
  rewrite (trim_terminates _ Hm) by lia.
  set (fb1 := set_frames fb _).
  destruct (emitFrameAdded (config fb1) (listeners fb1) frame now)
    as [ls e1] eqn:Hemit.
  set (fb2 := set_listeners fb1 ls).
  unfold checkPendingActions.
  set (toResolve := List.filter (stableFor (config fb2) frame now)
                      (pendingActions fb2)).
  pose proof (resolveAll_pending frame now toResolve fb2 Hnd pending) as Hpend.
  pose proof (resolveAll_effects_sound frame now toResolve fb2) as Hsound.
  pose proof (resolveAll_effects_complete frame now toResolve fb2 pending Hnd
                (NoDup_map_filter _ _ _ Hnd)) as Hcompl.
  destruct (resolveAll fb2 frame now toResolve) as [fb3 e2]. simpl in *.
  exists fb3, (e1 ++ e2). split; [reflexivity|].
  assert (Hstable : In pending toResolve
            <-> frameId frame > pa_frameId pending
                /\ ((deltaPercent frame <= stabilityThreshold (config fb))%Q
                    \/ now - pa_timestamp pending >= stabilityWaitMs (config fb))).
  { unfold toResolve. rewrite filter_In, stableFor_true. simpl.
    split; [intros [_ [H1 H2]]|intros [H1 H2]; split; [exact Hin|]];
      (split; [lia|destruct H2; [now left|right; lia]]). }
  assert (Hmine : forall r,
            In (Settle (pa_id pending) (Resolved (ActionValue r))) (e1 ++ e2) ->
            In pending toResolve /\ r = frameResult fb2 frame now pending).
  { intros r Hr. apply in_app_iff in Hr as [Hr|Hr].
    - pose proof (emitFrameAdded_effects (config fb) frame now
                    (listeners fb)) as He.
      rewrite Hemit in He. destruct (He _ Hr) as [[p E]|[p E]]; discriminate.
    - destruct (Hsound _ Hr) as (p & Hp & E). injection E as Eid ->.
      assert (p = pending) as ->; [|auto].
      apply (NoDup_map_inj pa_id (pendingActions fb)); auto.
      unfold toResolve in Hp. apply filter_In in Hp as [Hp _]. exact Hp. }
  assert (Hres : (exists r,
             In (Settle (pa_id pending) (Resolved (ActionValue r))) (e1 ++ e2))
          <-> In pending toResolve).
  { split.
    - intros [r Hr]. exact (proj1 (Hmine r Hr)).
    - intros Hp. eexists. apply in_app_iff. right. apply Hcompl; auto. }
  split; [rewrite Hres; exact Hstable|]. split.
  - rewrite Hres, Hpend. split.
    + intros Hp [_ Hall]. exact (Hall pending Hp eq_refl).
    + intros Hnot.
      destruct (stableFor (config fb2) frame now pending) eqn:S.
      * unfold toResolve. apply filter_In. auto.
      * exfalso. apply Hnot. split; [exact Hin|].
        intros p Hp E. unfold toResolve in Hp.
        apply filter_In in Hp as [Hp Sp].
        assert (p = pending) as ->
          by (apply (NoDup_map_inj pa_id (pendingActions fb)); auto).
        change (config fb2) with (config fb) in S. congruence.
  - intros r Hr. destruct (Hmine r Hr) as [_ ->]. split; reflexivity.
Qed.

(** Frame 1 is buffered, a click issued on it is pending, and frame 2
    arrives 50 ms later with a delta of 0.2 percent. *)
Lemma addFrame_resolves_exactly_stable_witness :
  let pending := {| pa_id := 0%nat; pa_action := Samples.click;
                    pa_frameId := 1; pa_timestamp := 0 |} in
  let fb := set_pendingActions
              (set_frames (FrameBuffer.create DEFAULT_CONFIG)
                 [Samples.mkFrame 1 true 100]) [pending] in
  let frame := Samples.mkFrame 2 false 0.2 in
  0 <= maxSize (config fb)
  /\ NoDup (map pa_id (pendingActions fb))
  /\ In pending (pendingActions fb)
  /\ exists fb' effs,
       addFrame fb frame 50 = Some (fb', effs)
       /\ (exists r, In (Settle 0%nat (Resolved (ActionValue r))) effs
                     /\ afterFrame r = Some frame
                     /\ causedChange r = false)
       /\ ~ In pending (pendingActions fb').
Proof.
  intros pending fb frame.
  assert (H0 : 0 <= maxSize (config fb)) by (simpl; lia).
  assert (H1 : NoDup (map pa_id (pendingActions fb))).
  { simpl. apply NoDup_cons. split; [apply not_elem_of_nil|constructor]. }
  assert (H2 : In pending (pendingActions fb)) by (simpl; auto).
  destruct (addFrame_resolves_exactly_stable fb frame 50 pending H0 H1 H2)
    as (fb' & effs & Hrun & Hiff & Hgone & Hval).
  assert (Hr : exists r,
            In (Settle (pa_id pending) (Resolved (ActionValue r))) effs).
  { apply Hiff. split; [simpl; lia|]. left. apply Qle_bool_iff. reflexivity. }
  split; [exact H0|]. split; [exact H1|]. split; [exact H2|].
  exists fb', effs. split; [exact Hrun|]. split; [|apply Hgone, Hr].
  destruct Hr as [r Hr]. exists r. split; [exact Hr|]. exact (Hval r Hr).
Defined.

End Correlation.

(* ===================================================================== *)
(** * FrameBuffer: the executor of registerAction *)
(* ===================================================================== *)

Section Executor.
Import FrameBuffer EventLoop.

Lemma settle_fresh (p : nat) (o : Outcome) (ps : gmap nat Outcome) :
  ps !! p = None -> settle p o ps !! p = Some o.
Proof. unfold settle. intros ->. apply lookup_insert_eq. Qed.

(** C3, as the code has it: when the executor returns a result whose
    [success] is false, the call resolves with [beforeFrame], a null
    [afterFrame], [causedChange = false] and that result (which carries the
    error); when the executor throws, the call rejects with the thrown
    error.  Either way no pending action and no timer is created and the
    buffer is left as it was. *)
Theorem registerAction_executor_failure (w : World) (p : nat)
  (call : ActionCall) :
  calls w !! p = Some call ->
  promises w !! p = None ->
  (forall result, success result = false ->
     exists w',
       handle w (ExecutorSettles p (Returned result)) = Some w'
       /\ promises w' !! p
          = Some (Resolved (ActionValue
              {| far_action := call_action call; far_result := result;
                 beforeFrame := Some (call_beforeFrame call);
                 afterFrame := None; causedChange := false;
                 latencyMs := clock w - call_startTime call |}))
       /\ buffer w' = buffer w /\ timers w' = timers w)
  /\ (forall e,
        exists w',
          handle w (ExecutorSettles p (Threw e)) = Some w'
          /\ promises w' !! p = Some (Rejected e)
          /\ buffer w' = buffer w /\ timers w' = timers w).
Proof.
  intros Hcall Hfree. split.
  - intros result Hfail. simpl. rewrite Hcall.
    unfold registerAction_resume. rewrite Hfail. simpl.
    eexists. split; [reflexivity|]. unfold perform. simpl.
    split; [apply settle_fresh, Hfree|]. split; reflexivity.
  - intros e. simpl. rewrite Hcall. simpl.
    eexists. split; [reflexivity|]. unfold perform. simpl.
    split; [apply settle_fresh, Hfree|]. split; reflexivity.
Qed.

Lemma registerAction_executor_failure_witness :
  exists w call,
    clickIssued = Some w
    /\ calls w !! 0%nat = Some call
    /\ promises w !! 0%nat = None
    /\ (exists w' r,
          handle w (ExecutorSettles 0
                      (Returned (Samples.failedResult Samples.click)))
          = Some w'
          /\ promises w' !! 0%nat = Some (Resolved (ActionValue r))
          /\ afterFrame r = None /\ causedChange r = false
          /\ error (far_result r) = Some "Element not found"%string
          /\ pendingActions (buffer w') = [])
    /\ (exists w',
          handle w (ExecutorSettles 0 (Threw (Err "boom"))) = Some w'
          /\ promises w' !! 0%nat = Some (Rejected (Err "boom"))).
Proof.
  eexists. eexists.
  split; [vm_compute; reflexivity|].
  split; [vm_compute; reflexivity|].
  assert (Hfree : forall w, clickIssued = Some w -> promises w !! 0%nat = None).
  { intros w E. vm_compute in E. injection E as <-. reflexivity. }
  split; [reflexivity|].
  match goal with
  | |- (exists w' r, handle ?w _ = _ /\ _) /\ _ =>
      destruct (registerAction_executor_failure w 0%nat _ eq_refl eq_refl)
        as [Hret Hthrow]
  end.
  split.
  - destruct (Hret (Samples.failedResult Samples.click) eq_refl)
      as (w' & Hrun & Hp & Hb & _).
    exists w'. eexists. split; [exact Hrun|]. split; [exact Hp|].
    rewrite Hb. repeat split; reflexivity.
  - destruct (Hthrow (Err "boom")) as (w' & Hrun & Hp & _).
    exists w'. split; [exact Hrun|exact Hp].
Defined.

(** C3 as worded fails for an executor that throws: the call rejects. *)
Lemma registerAction_rejects_on_throw :
  exists w,
    run (boot DEFAULT_CONFIG)
      [(10, AddFrame (Samples.mkFrame 1 true 100));
       (20, RegisterAction Samples.click);
       (30, ExecutorSettles 0 (Threw (Err "boom")))]
    = Some w
    /\ promises w !! 0%nat = Some (Rejected (Err "boom"))
    /\ forall r, promises w !! 0%nat <> Some (Resolved (ActionValue r)).
Proof.
  eexists. split; [vm_compute; reflexivity|].
  split; [reflexivity|]. intros r. discriminate.
Qed.

End Executor.

(* ===================================================================== *)
(** * StreamProcessor: delta detection and keep-alive *)
(* ===================================================================== *)

Section Delta.
Import StreamProcessor.
Context {IM : Imaging}.

Lemma compareFrames_fails cfg prev cur :
  comparisonFails prev cur -> compareFrames cfg prev cur = assumeChange.
Proof.
  unfold comparisonFails, compareFrames.
  destruct (sharp_raw prev) as [a|]; [|reflexivity].
  destruct (sharp_raw cur) as [b|]; [|reflexivity].
  intros [H|[H|H]].
  - destruct (Pos.eqb_spec (raw_width a) (raw_width b)); [contradiction|].
    reflexivity.
  - destruct (Pos.eqb_spec (raw_height a) (raw_height b)); [contradiction|].
    rewrite orb_true_r. reflexivity.
  - rewrite H. destruct (_ || _); reflexivity.
Qed.

(** C7: when the pixel comparison cannot be performed (no previous
    captured frame, differing dimensions, a failing decode or comparison),
    or is bypassed by a forced capture, [createFrame] still produces a
    frame, with [hasChange = true] and [deltaPercent = 100]; for a frame of
    the screencast, [handleScreencastFrame] forwards that frame instead of
    dropping it. *)
Theorem createFrame_fail_safe (sp : StreamProcessor.t)
  (event : CDPScreencastFrameEvent) (forceChange : bool) (now tstamp : Z) :
  let unavailable :=
    lastFrameData sp = None
    \/ (exists prev, lastFrameData sp = Some prev
          /\ comparisonFails prev (Buffer_from_base64 (ev_data event))) in
  (forceChange = true \/ unavailable ->
   let f := snd (createFrame sp (ev_data event) (ev_metadata event)
                   forceChange tstamp) in
   frameId f = cur_frameId sp + 1
   /\ hasChange f = true /\ deltaPercent f = 100%Q)
  /\ (unavailable -> cdpSession sp = true ->
      exists f,
        snd (handleScreencastFrame sp event now tstamp) = Some f
        /\ frameId f = cur_frameId sp + 1
        /\ hasChange f = true /\ deltaPercent f = 100%Q).
Proof.
  intros unavailable.
  assert (Hcmp : unavailable ->
            match lastFrameData sp with
            | Some prev =>
                compareFrames (config sp) prev
                  (Buffer_from_base64 (ev_data event))
            | None => assumeChange
            end = assumeChange).
  { intros [->|(prev & -> & Hf)]; [reflexivity|].
    apply compareFrames_fails, Hf. }
  split.
  - intros H. unfold createFrame. simpl.
    assert (Hc : match lastFrameData sp with
                 | Some prev =>
                     if forceChange then assumeChange
                     else compareFrames (config sp) prev
                            (Buffer_from_base64 (ev_data event))
                 | None => assumeChange
                 end = assumeChange).
    { destruct H as [->|H]; [destruct (lastFrameData sp); reflexivity|].
      destruct forceChange; [destruct (lastFrameData sp); reflexivity|].
      exact (Hcmp H). }
    rewrite Hc. repeat split; reflexivity.
  - intros H Hs. unfold handleScreencastFrame. rewrite Hs. simpl.
    rewrite (Hcmp H). simpl. eexists. split; [reflexivity|].
    simpl. repeat split; reflexivity.
Qed.

(** C6, as the code has it: a keep-alive capture that is forwarded
    replaces the comparison baseline.  The frame it forwards is marked
    changed with a delta of 100; afterwards [lastFrameData] is the raster
    of the keep-alive capture, and the next frame from the screencast is
    compared with that raster. *)
Theorem keepAlive_replaces_baseline (sp : StreamProcessor.t) (now : Z)
  (shot : option string) (tstamp tsent : Z) (f : ScreencastFrame) :
  snd (keepAliveTick sp now shot tstamp tsent) = Some f ->
  let sp' := fst (keepAliveTick sp now shot tstamp tsent) in
  shot = Some (data f)
  /\ hasChange f = true /\ deltaPercent f = 100%Q
  /\ lastFrameData sp' = Some (Buffer_from_base64 (data f))
  /\ forall d meta t,
       let next := snd (createFrame sp' d meta false t) in
       let cmp := compareFrames (config sp) (Buffer_from_base64 (data f))
                    (Buffer_from_base64 d) in
       hasChange next = cmp_hasChange cmp
       /\ deltaPercent next = cmp_deltaPercent cmp.
Proof.
  unfold keepAliveTick, captureFrame, createFrame.
  destruct (_ && _); [|discriminate].
  destruct (negb (cdpSession sp)); [discriminate|].
  destruct shot as [d|]; [|discriminate].
  destruct (lastFrameData sp); simpl; intros E; injection E as <-; simpl;
    repeat split; reflexivity.
Qed.

End Delta.

Section DeltaSamples.
Import StreamProcessor.

(** After [imageA] (two pixels), a frame three pixels wide arrives. *)
Lemma createFrame_fail_safe_witness :
  let sp := Samples.afterFirstFrame in
  let event := Samples.screencast Samples.imageWide in
  (exists prev, lastFrameData sp = Some prev
     /\ comparisonFails (IM := Samples.toyImaging) prev
          (Buffer_from_base64 (Imaging := Samples.toyImaging) (ev_data event)))
  /\ cdpSession sp = true
  /\ exists f,
       snd (handleScreencastFrame (IM := Samples.toyImaging) sp event 1100 1100)
       = Some f
       /\ frameId f = 2 /\ hasChange f = true /\ deltaPercent f = 100%Q.
Proof.
  intros sp event.
  assert (Hprev : exists prev, lastFrameData sp = Some prev
            /\ comparisonFails (IM := Samples.toyImaging) prev
                 (Buffer_from_base64 (Imaging := Samples.toyImaging)
                    (ev_data event))).
  { eexists. split; [reflexivity|]. left. discriminate. }
  split; [exact Hprev|]. split; [reflexivity|].
  exact (proj2 (createFrame_fail_safe (IM := Samples.toyImaging)
                  sp event false 1100 1100) (or_intror Hprev) eq_refl).
Defined.

(** Two seconds after [imageA] a keep-alive capture returns [imageB]. *)
Lemma keepAlive_replaces_baseline_witness :
  let sp := Samples.afterFirstFrame in
  let tick := keepAliveTick (IM := Samples.toyImaging) sp 3000
                (Some Samples.imageB) 3001 3002 in
  exists f,
    snd tick = Some f
    /\ lastFrameData (fst tick)
       = Some (Buffer_from_base64 (Imaging := Samples.toyImaging) Samples.imageB)
    /\ hasChange f = true.
Proof.
  intros sp tick.
  assert (Hf : exists f, snd tick = Some f) by (eexists; reflexivity).
  destruct Hf as [f Hf]. exists f. split; [exact Hf|].
  destruct (keepAlive_replaces_baseline (IM := Samples.toyImaging)
              sp 3000 (Some Samples.imageB) 3001 3002 f Hf)
    as (Hshot & Hch & _ & Hlast & _).
  injection Hshot as Hd. fold tick in Hlast. rewrite Hlast, <- Hd.
  split; [reflexivity|exact Hch].
Defined.

(** C6 as worded fails: the keep-alive capture [imageB] takes the place of
    [imageA] as the baseline, so when the screencast delivers [imageA]
    again the frame is reported fully changed, although it is identical to
    the raster captured before the keep-alive. *)
Lemma keepAlive_changes_baseline :
  let sp := Samples.afterFirstFrame in
  let tick := keepAliveTick (IM := Samples.toyImaging) sp 3000
                (Some Samples.imageB) 3001 3002 in
  let next := snd (handleScreencastFrame (IM := Samples.toyImaging)
                     (fst tick) (Samples.screencast Samples.imageA)
                     3100 3100) in
  let undisturbed := snd (handleScreencastFrame (IM := Samples.toyImaging)
                            sp (Samples.screencast Samples.imageA)
                            3100 3100) in
  (exists f, snd tick = Some f)
  /\ lastFrameData sp
     = Some (Buffer_from_base64 (Imaging := Samples.toyImaging) Samples.imageA)
  /\ lastFrameData (fst tick) <> lastFrameData sp
  /\ (exists f, next = Some f /\ hasChange f = true
                /\ (deltaPercent f == 100)%Q)
  /\ (exists f, undisturbed = Some f /\ hasChange f = false
                /\ (deltaPercent f == 0)%Q).
Proof.
  intros sp tick next undisturbed.
  split; [eexists; reflexivity|]. split; [reflexivity|].
  split; [vm_compute; discriminate|].
  split; eexists; (split; [vm_compute; reflexivity|]);
    (split; [reflexivity|vm_compute; reflexivity]).
Qed.

End DeltaSamples.

(* ===================================================================== *)
(** * The event loop: effects and timers *)
(* ===================================================================== *)

Section Effects.
Import FrameBuffer EventLoop.

Lemma timerDelay_pos (d : Z) : 1 <= timerDelay d.
Proof.
  unfold timerDelay.
  destruct (Z.ltb_spec d 1), (Z.ltb_spec 2147483647 d); simpl; lia.
Qed.

Lemma timerDelay_le (d : Z) : timerDelay d <= Z.max 1 d.
Proof.
  unfold timerDelay.
  destruct (Z.ltb_spec d 1), (Z.ltb_spec 2147483647 d); simpl; lia.
Qed.

Lemma schedule_In (tm : Timer) (q : list Timer) (x : Timer) :
  In x (schedule tm q) <-> x = tm \/ In x q.
Proof.
  induction q as [|y r IH]; simpl.
  - intuition.
  - destruct (due y <=? due tm); simpl; rewrite ?IH; intuition.
Qed.

Lemma settle_keeps (p q : nat) (o : Outcome) (ps : gmap nat Outcome) :
  is_Some (ps !! p) -> is_Some (settle q o ps !! p).
Proof.
  unfold settle. intros H. destruct (ps !! q) eqn:E; [exact H|].
  destruct (decide (q = p)) as [->|Hne].
  - rewrite lookup_insert_eq. eauto.
  - rewrite lookup_insert_ne by exact Hne. exact H.
Qed.

Lemma settle_settles (p : nat) (o : Outcome) (ps : gmap nat Outcome) :
  is_Some (settle p o ps !! p).
Proof.
  unfold settle. destruct (ps !! p) eqn:E; [rewrite E; eauto|].
  rewrite lookup_insert_eq. eauto.
Qed.

Lemma settle_other (p q : nat) (o : Outcome) (ps : gmap nat Outcome) :
  p <> q -> settle q o ps !! p = ps !! p.
Proof.
  unfold settle. intros Hne. destruct (ps !! q); [reflexivity|].
  apply lookup_insert_ne. auto.
Qed.

Lemma applyEffects_buffer es : forall w, buffer (applyEffects w es) = buffer w.
Proof.
  unfold applyEffects. induction es as [|e r IH]; intros w; simpl; [reflexivity|].
  rewrite IH. destruct e; reflexivity.
Qed.

Lemma applyEffects_clock es : forall w, clock (applyEffects w es) = clock w.
Proof.
  unfold applyEffects. induction es as [|e r IH]; intros w; simpl; [reflexivity|].
  rewrite IH. destruct e; reflexivity.
Qed.

Lemma applyEffects_calls es : forall w, calls (applyEffects w es) = calls w.
Proof.
  unfold applyEffects. induction es as [|e r IH]; intros w; simpl; [reflexivity|].
  rewrite IH. destruct e; reflexivity.
Qed.

Lemma applyEffects_nextPromise es :
  forall w, nextPromise (applyEffects w es) = nextPromise w.
Proof.
  unfold applyEffects. induction es as [|e r IH]; intros w; simpl; [reflexivity|].
  rewrite IH. destruct e; reflexivity.
Qed.

(** A settled promise stays settled. *)
Lemma applyEffects_keeps (p : nat) es :
  forall w, is_Some (promises w !! p) ->
  is_Some (promises (applyEffects w es) !! p).
Proof.
  unfold applyEffects. induction es as [|e r IH]; intros w H; simpl; [exact H|].
  apply IH. destruct e; simpl; auto using settle_keeps.
Qed.

Lemma applyEffects_settles (p : nat) (o : Outcome) es :
  forall w, In (Settle p o) es ->
  is_Some (promises (applyEffects w es) !! p).
Proof.
  unfold applyEffects. induction es as [|e r IH]; intros w; simpl; [intros []|].
  intros [->|Hin]; [|auto].
  apply (applyEffects_keeps p r). simpl. apply settle_settles.
Qed.

(** A promise no effect settles is left as it is. *)
Lemma applyEffects_untouched (p : nat) es :
  forall w, (forall o, ~ In (Settle p o) es) ->
  promises (applyEffects w es) !! p = promises w !! p.
Proof.
  unfold applyEffects. induction es as [|e r IH]; intros w H; simpl; [reflexivity|].
  rewrite IH by (intros o Ho; apply (H o); now right).
  destruct e as [q o| |]; simpl; try reflexivity.
  apply settle_other. intros ->. apply (H o). now left.
Qed.

(** Timers after a batch of effects: those that were there and were not
    cleared, and those the batch set. *)
Lemma applyEffects_timers_In es :
  forall w tm,
  In tm (timers (applyEffects w es)) ->
  In tm (timers w)
  \/ exists cb delay, In (SetTimeout cb delay) es
       /\ tm = {| due := clock w + timerDelay delay; callback := cb |}.
Proof.
  unfold applyEffects. induction es as [|e r IH]; intros w tm; simpl; [auto|].
  intros H. apply IH in H as [H|(cb & delay & Hin & ->)].
  - destruct e as [q o|cb delay|q]; simpl in H.
    + now left.
    + apply schedule_In in H as [->|H]; [|now left].
      right. exists cb, delay. auto.
    + apply filter_In in H as [H _]. now left.
  - right. exists cb, delay. split; [now right|].
    destruct e; reflexivity.
Qed.

(** A timer nobody can clear survives every batch of effects. *)
Lemma applyEffects_timer_stays es :
  forall w tm,
  timer_owner (callback tm) = None ->
  In tm (timers w) -> In tm (timers (applyEffects w es)).
Proof.
  unfold applyEffects. induction es as [|e r IH]; intros w tm Ho H; simpl;
    [exact H|].
  apply IH; [exact Ho|]. destruct e as [q o|cb delay|q]; simpl.
  - exact H.
  - apply schedule_In. now right.
  - apply filter_In. split; [exact H|]. unfold ownedBy. rewrite Ho. reflexivity.
Qed.

Lemma applyEffects_timer_set es :
  forall w cb delay,
  timer_owner cb = None ->
  In (SetTimeout cb delay) es ->
  In {| due := clock w + timerDelay delay; callback := cb |}
     (timers (applyEffects w es)).
Proof.
  unfold applyEffects. induction es as [|e r IH]; intros w cb delay Ho;
    simpl; [intros []|].
  intros [->|Hin].
  - apply (applyEffects_timer_stays r); [exact Ho|]. simpl.
    apply schedule_In. now left.
  - specialize (IH (applyEffect w e) cb delay Ho Hin).
    replace (clock (applyEffect w e)) with (clock w) in IH
      by (destruct e; reflexivity).
    exact IH.
Qed.

Lemma applyEffects_timersAhead es w :
  timersAhead w -> timersAhead (applyEffects w es).
Proof.
  intros H tm Hin. rewrite applyEffects_clock.
  apply applyEffects_timers_In in Hin as [Hin|(cb & delay & _ & ->)].
  - apply H, Hin.
  - simpl. pose proof (timerDelay_pos delay). lia.
Qed.

End Effects.

(* ===================================================================== *)
(** * The event loop: what each operation may settle *)
(* ===================================================================== *)

Section Operations.
Import FrameBuffer EventLoop.

Lemma quiet_nil ids : quiet ids [].
Proof. intros e []. Qed.

Lemma quiet_app ids e1 e2 : quiet ids e1 -> quiet ids e2 -> quiet ids (e1 ++ e2).
Proof.
  intros H1 H2 e Hin.
  apply in_app_iff in Hin as [Hin|Hin]; [exact (H1 e Hin)|exact (H2 e Hin)].
Qed.

Lemma quiet_weaken (ids ids' : nat -> Prop) effs :
  (forall i, ids i -> ids' i) -> quiet ids effs -> quiet ids' effs.
Proof.
  intros Hw H e Hin. specialize (H e Hin). destruct e; auto.
Qed.

Lemma In_delete_inv {A : Type} (x : A) (i : nat) (l : list A) :
  In x (delete i l) -> In x l.
Proof.
  intros H. apply list_elem_of_In. apply list_elem_of_In in H.
  exact (list_elem_of_delete_inv _ _ _ H).
Qed.

Lemma In_delete_or {A : Type} (x : A) :
  forall (l : list A) (i : nat),
  In x l -> In x (delete i l) \/ l !! i = Some x.
Proof.
  induction l as [|a r IH]; intros i; simpl; [intros []|].
  destruct i as [|i]; simpl.
  - intros [->|H]; [now right|now left].
  - intros [->|H]; [left; now left|].
    destruct (IH i H) as [H'|H']; [left; now right|now right].
Qed.

Lemma findIndex_Some {A : Type} (f : A -> bool) :
  forall (l : list A) (i : nat),
  findIndex f l = Some i -> exists x, l !! i = Some x /\ f x = true.
Proof.
  induction l as [|a r IH]; intros i; simpl; [discriminate|].
  destruct (f a) eqn:E.
  - intros H. injection H as <-. exists a. auto.
  - destruct (findIndex f r) as [j|]; simpl; [|discriminate].
    intros H. injection H as <-. exact (IH j eq_refl).
Qed.

Lemma indexOf_Some (p : PendingAction) (l : list PendingAction) (i : nat) :
  indexOf p l = Some i ->
  exists q, l !! i = Some q /\ In q l /\ pa_id q = pa_id p.
Proof.
  unfold indexOf. intros H. apply findIndex_Some in H as (q & Hq & E).
  exists q. split; [exact Hq|]. split.
  - apply list_elem_of_In. exact (list_elem_of_lookup_2 _ _ _ Hq).
  - apply Nat.eqb_eq, E.
Qed.

Lemma runHandler_spec cfg h frame now :
  (forall k, fst (runHandler cfg h frame now) = Some k ->
             handler_id k = handler_id h)
  /\ quiet (fun i => i = handler_id h) (snd (runHandler cfg h frame now)).
Proof.
  unfold runHandler. destruct h as [p c|p d lct lf].
  - destruct (c <? frameId frame); simpl; split.
    + discriminate.
    + intros e [<-|[<-|[]]]; reflexivity.
    + intros k E. injection E as <-. reflexivity.
    + apply quiet_nil.
  - destruct (hasChange frame && _); simpl.
    { split; [intros k E; injection E as <-; reflexivity|apply quiet_nil]. }
    destruct (d <=? now - lct); simpl; split.
    + discriminate.
    + intros e [<-|[<-|[]]]; reflexivity.
    + intros k E. injection E as <-. reflexivity.
    + apply quiet_nil.
Qed.

Lemma emitFrameAdded_spec cfg frame now :
  forall hs,
  (forall k, In k (fst (emitFrameAdded cfg hs frame now)) ->
             exists h, In h hs /\ handler_id h = handler_id k)
  /\ quiet (fun i => exists h, In h hs /\ handler_id h = i)
       (snd (emitFrameAdded cfg hs frame now)).
Proof.
  induction hs as [|h r [IH1 IH2]]; simpl.
  - split; [intros k []|apply quiet_nil].
  - destruct (runHandler_spec cfg h frame now) as [Hk Hq].
    destruct (runHandler cfg h frame now) as [h' e1].
    destruct (emitFrameAdded cfg r frame now) as [r' e2]. simpl in *.
    split.
    + intros k Hin.
      assert (Hr : In k r' -> exists h0, (h = h0 \/ In h0 r)
                                  /\ handler_id h0 = handler_id k).
      { intros H. destruct (IH1 k H) as (h0 & H0 & E). eauto. }
      destruct h' as [k'|]; [|auto].
      destruct Hin as [<-|Hin]; [|auto].
      exists h. split; [now left|]. symmetry. apply Hk. reflexivity.
    + apply quiet_app.
      * eapply quiet_weaken; [|exact Hq]. intros i ->. exists h. auto.
      * eapply quiet_weaken; [|exact IH2].
        intros i (h0 & H0 & E). exists h0. auto.
Qed.

Lemma resolveAll_listeners frame now :
  forall toResolve fb,
  listeners (fst (resolveAll fb frame now toResolve)) = listeners fb.
Proof.
  induction toResolve as [|p r IH]; intros fb; simpl; [reflexivity|].
  destruct (indexOf p (pendingActions fb)) as [i|]; [|apply IH].
  specialize (IH (set_pendingActions fb (delete i (pendingActions fb)))).
  destruct (resolveAll _ frame now r) as [fb'' effs]. exact IH.
Qed.

Lemma resolveAll_sub frame now :
  forall toResolve fb q,
  In q (pendingActions (fst (resolveAll fb frame now toResolve))) ->
  In q (pendingActions fb).
Proof.
  induction toResolve as [|p r IH]; intros fb q; simpl; [auto|].
  destruct (indexOf p (pendingActions fb)) as [i|]; [|apply IH].
  specialize (IH (set_pendingActions fb (delete i (pendingActions fb))) q).
  destruct (resolveAll _ frame now r) as [fb'' effs]. simpl in *.
  intros H. exact (In_delete_inv _ _ _ (IH H)).
Qed.

Lemma resolveAll_quiet frame now :
  forall toResolve fb,
  quiet (fun i => exists q, In q (pendingActions fb) /\ pa_id q = i)
    (snd (resolveAll fb frame now toResolve)).
Proof.
  induction toResolve as [|p r IH]; intros fb; simpl; [apply quiet_nil|].
  destruct (indexOf p (pendingActions fb)) as [i|] eqn:F; [|apply IH].
  specialize (IH (set_pendingActions fb (delete i (pendingActions fb)))).
  destruct (resolveAll _ frame now r) as [fb'' effs]. simpl in *.
  intros e [<-|Hin].
  - apply indexOf_Some in F as (q & _ & Hq & E). exists q. auto.
  - specialize (IH e Hin). destruct e; auto.
    destruct IH as (q & Hq & E). exists q. split; [|exact E].
    exact (In_delete_inv _ _ _ Hq).
Qed.

(** A pending action leaves the array only together with the settlement
    of its promise. *)
Lemma resolveAll_keep_or_settle frame now :
  forall toResolve fb q,
  In q (pendingActions fb) ->
  In q (pendingActions (fst (resolveAll fb frame now toResolve)))
  \/ exists o, In (Settle (pa_id q) o) (snd (resolveAll fb frame now toResolve)).
Proof.
  induction toResolve as [|p r IH]; intros fb q Hq; simpl; [now left|].
  destruct (indexOf p (pendingActions fb)) as [i|] eqn:F; [|apply IH, Hq].
  specialize (IH (set_pendingActions fb (delete i (pendingActions fb))) q).
  destruct (resolveAll _ frame now r) as [fb'' effs]. simpl in *.
  destruct (In_delete_or q _ i Hq) as [H|H].
  - destruct (IH H) as [H'|[o H']]; [now left|]. right. exists o. now right.
  - apply indexOf_Some in F as (q' & Hq' & _ & E).
    rewrite H in Hq'. injection Hq' as <-. right. eexists. left.
    rewrite E. reflexivity.
Qed.

Lemma addFrame_spec fb frame now fb' effs :
  addFrame fb frame now = Some (fb', effs) ->
  config fb' = config fb
  /\ quiet (known fb) effs
  /\ (forall i, known fb' i -> known fb i)
  /\ (forall q, In q (pendingActions fb) ->
        In q (pendingActions fb') \/ exists o, In (Settle (pa_id q) o) effs).
Proof.
  unfold addFrame.
  destruct (trim _ _ _) as [fs|]; [|discriminate].
  set (fb1 := set_frames fb fs).
  pose proof (emitFrameAdded_spec (config fb1) frame now (listeners fb1))
    as [Hl Hq1].
  destruct (emitFrameAdded (config fb1) (listeners fb1) frame now) as [ls e1].
  set (fb2 := set_listeners fb1 ls).
  unfold checkPendingActions.
  set (toResolve := List.filter _ _).
  pose proof (resolveAll_config frame now toResolve fb2) as Hc.
  pose proof (resolveAll_listeners frame now toResolve fb2) as Hls.
  pose proof (resolveAll_sub frame now toResolve fb2) as Hsub.
  pose proof (resolveAll_quiet frame now toResolve fb2) as Hq2.
  pose proof (resolveAll_keep_or_settle frame now toResolve fb2) as Hk.
  destruct (resolveAll fb2 frame now toResolve) as [fb3 e2]. simpl in *.
  intros E. injection E as <- <-.
  split; [exact Hc|]. split; [|split].
  - apply quiet_app.
    + eapply quiet_weaken; [|exact Hq1]. intros i H. now left.
    + eapply quiet_weaken; [|exact Hq2]. intros i H. now right.
  - intros i [(h & Hh & E)|(q & Hq & E)].
    + rewrite Hls in Hh. destruct (Hl h Hh) as (h0 & H0 & E0).
      left. exists h0. split; [exact H0|congruence].
    + right. exists q. split; [exact (Hsub q Hq)|exact E].
  - intros q Hq. destruct (Hk q Hq) as [H|[o H]]; [now left|].
    right. exists o. apply in_app_iff. now right.
Qed.

Lemma onActionDeadline_spec fb pending result before now :
  let r := onActionDeadline fb pending result before now in
  config (fst r) = config fb
  /\ quiet (fun i => i = pa_id pending /\ known fb i) (snd r)
  /\ (forall i, known (fst r) i -> known fb i)
  /\ (forall q, In q (pendingActions fb) ->
        In q (pendingActions (fst r))
        \/ exists o, In (Settle (pa_id q) o) (snd r))
  /\ ((exists q, In q (pendingActions fb) /\ pa_id q = pa_id pending) ->
      exists o, In (Settle (pa_id pending) o) (snd r)).
Proof.
  unfold onActionDeadline.
  destruct (indexOf pending (pendingActions fb)) as [i|] eqn:F; simpl.
  - pose proof (indexOf_Some _ _ _ F) as (q0 & Hq0 & Hin0 & E0).
    split; [reflexivity|]. split; [|split; [|split]].
    + intros e [<-|[]]. split; [reflexivity|]. right. exists q0. auto.
    + intros j [(h & Hh & E)|(q & Hq & E)]; [left; eauto|].
      right. exists q. split; [exact (In_delete_inv _ _ _ Hq)|exact E].
    + intros q Hq. destruct (In_delete_or q _ i Hq) as [H|H]; [now left|].
      rewrite H in Hq0. injection Hq0 as <-. right. eexists. left.
      rewrite E0. reflexivity.
    + intros _. eexists. now left.
  - split; [reflexivity|]. split; [apply quiet_nil|].
    split; [auto|]. split; [auto|].
    intros (q & Hq & E). exfalso.
    pose proof (proj1 (findIndex_None _ _) F q Hq) as H. simpl in H.
    apply Nat.eqb_neq in H. contradiction.
Qed.

Lemma off_known fb p i : known (off fb p) i -> known fb i.
Proof.
  unfold known, off. simpl.
  intros [(h & Hh & E)|H]; [|now right].
  apply filter_In in Hh as [Hh _]. left. eauto.
Qed.

Lemma onNextFrameTimeout_spec fb p :
  let r := onNextFrameTimeout fb p in
  config (fst r) = config fb
  /\ quiet (fun i => i = p) (snd r)
  /\ (forall i, known (fst r) i -> known fb i)
  /\ pendingActions (fst r) = pendingActions fb.
Proof.
  simpl. split; [reflexivity|]. split; [|split; [apply off_known|reflexivity]].
  intros e [<-|[]]. reflexivity.
Qed.

Lemma onStableFrameTimeout_spec fb p :
  let r := onStableFrameTimeout fb p in
  config (fst r) = config fb
  /\ quiet (fun i => i = p) (snd r)
  /\ (forall i, known (fst r) i -> known fb i)
  /\ pendingActions (fst r) = pendingActions fb.
Proof.
  unfold onStableFrameTimeout.
  destruct (findHandler fb p) as [[q c|q d lct [lf|]]|]; simpl;
    (split; [reflexivity|]);
    (split; [|split; [first [apply off_known|auto]|reflexivity]]);
    first [apply quiet_nil|intros e [<-|[]]; reflexivity].
Qed.

End Operations.

(* ===================================================================== *)
(** * The event loop: promises nothing can settle any more *)
(* ===================================================================== *)

Section Dormant.
Import FrameBuffer EventLoop.

Lemma quiet_benign (ids : nat -> Prop) (p : nat) effs :
  ~ ids p -> quiet ids effs -> benign p effs.
Proof.
  intros Hp Hq e Hin. specialize (Hq e Hin).
  destruct e; auto. intros ->. contradiction.
Qed.

Lemma perform_dormant (p : nat) (w : World) (r : FrameBuffer.t * list Effect) :
  dormant p w -> ~ known (fst r) p -> benign p (snd r) ->
  dormant p (perform w r).
Proof.
  intros (Hp & _ & Ht & Hn) Hk Hb. unfold perform, dormant.
  rewrite applyEffects_buffer, applyEffects_nextPromise. simpl.
  split; [|split; [exact Hk|split; [|exact Hn]]].
  - rewrite applyEffects_untouched; [exact Hp|].
    intros o Hin. exact (Hb _ Hin eq_refl).
  - intros tm Hin.
    apply applyEffects_timers_In in Hin as [Hin|(cb & delay & Hin & ->)].
    + apply Ht, Hin.
    + exact (Hb _ Hin).
Qed.

Lemma dormant_set_clock (p : nat) (w : World) (t : Z) :
  dormant p w -> dormant p (set_clock w t).
Proof. intros H. exact H. Qed.

Lemma fire_dormant (p : nat) (w : World) (tm : Timer) :
  dormant p w -> timer_owner (callback tm) <> Some p ->
  dormant p (fire w tm).
Proof.
  intros Hd Ho. unfold fire.
  set (now := Z.max (clock w) (due tm)).
  pose proof (dormant_set_clock p w now Hd) as Hd'.
  pose proof Hd as (_ & Hk & _).
  destruct (callback tm) as [pd res before|q|q]; simpl in Ho.
  - destruct (onActionDeadline_spec (buffer (set_clock w now)) pd res before now)
      as (_ & Hq & Hkn & _).
    apply perform_dormant; [exact Hd'| |].
    + intros H. apply Hk. exact (Hkn p H).
    + eapply quiet_benign; [|exact Hq]. intros [_ H]. exact (Hk H).
  - destruct (onNextFrameTimeout_spec (buffer (set_clock w now)) q)
      as (_ & Hq & Hkn & _).
    apply perform_dormant; [exact Hd'| |].
    + intros H. apply Hk. exact (Hkn p H).
    + eapply quiet_benign; [|exact Hq]. intros ->. now apply Ho.
  - destruct (onStableFrameTimeout_spec (buffer (set_clock w now)) q)
      as (_ & Hq & Hkn & _).
    apply perform_dormant; [exact Hd'| |].
    + intros H. apply Hk. exact (Hkn p H).
    + eapply quiet_benign; [|exact Hq]. intros ->. now apply Ho.
Qed.

Lemma fold_fire_dormant (p : nat) :
  forall l w,
  dormant p w ->
  (forall tm, In tm l -> timer_owner (callback tm) <> Some p) ->
  dormant p (fold_left fire l w).
Proof.
  induction l as [|tm r IH]; intros w Hd Ho; simpl; [exact Hd|].
  apply IH.
  - apply fire_dormant; [exact Hd|]. apply Ho. now left.
  - intros x Hx. apply Ho. now right.
Qed.

Lemma advance_dormant (p : nat) (w : World) (t : Z) :
  dormant p w -> dormant p (advance t w).
Proof.
  intros Hd. pose proof Hd as (Hp & Hk & Ht & Hn).
  unfold advance. apply dormant_set_clock, fold_fire_dormant.
  - split; [exact Hp|]. split; [exact Hk|]. split; [|exact Hn].
    simpl. intros tm Hin. apply filter_In in Hin as [Hin _]. auto.
  - intros tm Hin. apply filter_In in Hin as [Hin _]. auto.
Qed.

Lemma fold_fire_calls :
  forall l w, calls (fold_left fire l w) = calls w.
Proof.
  induction l as [|tm r IH]; intros w; simpl; [reflexivity|].
  rewrite IH. unfold fire, perform. rewrite applyEffects_calls. reflexivity.
Qed.

Lemma advance_calls (w : World) (t : Z) : calls (advance t w) = calls w.
Proof. unfold advance. simpl. rewrite fold_fire_calls. reflexivity. Qed.

Lemma known_snoc_pending fb q i :
  known (set_pendingActions fb (pendingActions fb ++ [q])) i ->
  known fb i \/ i = pa_id q.
Proof.
  intros [H|(x & Hx & E)]; [left; now left|].
  simpl in Hx. apply in_app_iff in Hx as [Hx|[<-|[]]]; [|now right].
  left. right. eauto.
Qed.

Lemma known_snoc_listener fb h i :
  known (set_listeners fb (listeners fb ++ [h])) i ->
  known fb i \/ i = handler_id h.
Proof.
  intros [(x & Hx & E)|H]; [|left; now right].
  simpl in Hx. apply in_app_iff in Hx as [Hx|[<-|[]]]; [|now right].
  left. left. eauto.
Qed.

(** One event keeps [p] dormant, unless it is the completion of the
    executor [p] itself is waiting for. *)
Lemma handle_dormant (p : nat) (w w' : World) (ev : Event) :
  dormant p w ->
  (forall out, ev = ExecutorSettles p out -> calls w !! p = None) ->
  handle w ev = Some w' ->
  dormant p w'.
Proof.
  intros Hd Hex. pose proof Hd as (Hp & Hk & Ht & Hn).
  destruct ev as [frame|a|q out|timeout|d timeout| |]; simpl.
  - destruct (addFrame (buffer w) frame (clock w)) as [[fb' effs]|] eqn:E;
      [|discriminate].
    intros H. injection H as <-.
    destruct (addFrame_spec _ _ _ _ _ E) as (_ & Hq & Hkn & _).
    apply perform_dormant; [exact Hd| |].
    + intros H. exact (Hk (Hkn p H)).
    + eapply quiet_benign; [|exact Hq]. exact Hk.
  - unfold registerAction_begin. simpl.
    destruct (getLatestFrame (buffer w)); intros H; injection H as <-.
    + split; [exact Hp|]. split; [exact Hk|]. split; [exact Ht|]. simpl. lia.
    + split; [|split; [exact Hk|split; [exact Ht|simpl; lia]]].
      simpl. rewrite settle_other by lia. exact Hp.
  - destruct (calls w !! q) as [call|] eqn:C;
      [|intros H; injection H as <-; exact Hd].
    assert (Hne : q <> p).
    { intros ->. rewrite (Hex out eq_refl) in C. discriminate. }
    intros H. injection H as <-.
    apply perform_dormant; [exact Hd| |]; unfold registerAction_resume.
    + destruct out as [res|e]; [|exact Hk].
      destruct (negb (success res)); [exact Hk|].
      destruct (isNonVisual (call_action call)); [exact Hk|].
      simpl. intros H. apply known_snoc_pending in H as [H|H]; [exact (Hk H)|].
      simpl in H. congruence.
    + destruct out as [res|e]; [|intros x [<-|[]]; exact Hne].
      destruct (negb (success res)); [intros x [<-|[]]; exact Hne|].
      destruct (isNonVisual (call_action call)); intros x [<-|[]];
        [exact Hne|discriminate].
  - intros H. injection H as <-.
    apply (perform_dormant p (snd (allocate w))).
    + split; [exact Hp|]. split; [exact Hk|]. split; [exact Ht|]. simpl. lia.
    + simpl. intros H. apply known_snoc_listener in H as [H|H]; [exact (Hk H)|].
      simpl in H. lia.
    + intros x [<-|[]]. simpl. intros E. injection E as E. lia.
  - intros H. injection H as <-.
    apply (perform_dormant p (snd (allocate w))).
    + split; [exact Hp|]. split; [exact Hk|]. split; [exact Ht|]. simpl. lia.
    + simpl. intros H. apply known_snoc_listener in H as [H|H]; [exact (Hk H)|].
      simpl in H. lia.
    + intros x [<-|[]]. simpl. intros E. injection E as E. lia.
  - intros H. injection H as <-.
    split; [exact Hp|]. split; [|split; [exact Ht|exact Hn]].
    intros [H|(x & [] & _)]. apply Hk. now left.
  - intros H. injection H as <-. exact Hd.
Qed.

Lemma handle_calls_None (p : nat) (w w' : World) (ev : Event) :
  (p < nextPromise w)%nat -> calls w !! p = None ->
  handle w ev = Some w' -> calls w' !! p = None.
Proof.
  intros Hn Hc.
  destruct ev as [frame|a|q out|timeout|d timeout| |]; simpl.
  - destruct (addFrame _ _ _) as [r|]; [|discriminate].
    intros H. injection H as <-. unfold perform.
    rewrite applyEffects_calls. exact Hc.
  - destruct (registerAction_begin _ _ _); intros H; injection H as <-;
      simpl; [exact Hc|].
    rewrite lookup_insert_ne by lia. exact Hc.
  - destruct (calls w !! q) as [call|];
      [|intros H; injection H as <-; exact Hc].
    intros H. injection H as <-. unfold perform.
    rewrite applyEffects_calls. simpl.
    destruct (decide (q = p)) as [->|Hne];
      [apply lookup_delete_eq|rewrite lookup_delete_ne by exact Hne; exact Hc].
  - intros H. injection H as <-. unfold perform.
    rewrite applyEffects_calls. exact Hc.
  - intros H. injection H as <-. unfold perform.
    rewrite applyEffects_calls. exact Hc.
  - intros H. injection H as <-. exact Hc.
  - intros H. injection H as <-. exact Hc.
Qed.

(** Once the suspended call itself is gone, [p] stays unsettled for
    ever. *)
Lemma run_dormant_forever (p : nat) :
  forall trace w w',
  dormant p w -> calls w !! p = None ->
  run w trace = Some w' ->
  dormant p w' /\ calls w' !! p = None.
Proof.
  induction trace as [|[t ev] r IH]; intros w w' Hd Hc; simpl.
  - intros H. injection H as <-. auto.
  - unfold step. simpl.
    destruct (handle (advance t w) ev) as [w1|] eqn:E; [|discriminate].
    pose proof (advance_dormant p w t Hd) as Hd1.
    assert (Hc1 : calls (advance t w) !! p = None)
      by (rewrite advance_calls; exact Hc).
    apply IH.
    + eapply handle_dormant; [exact Hd1| |exact E]. auto.
    + eapply handle_calls_None; [|exact Hc1|exact E].
      destruct Hd1 as (_ & _ & _ & Hn). exact Hn.
Qed.

(** While its executor does not complete, a suspended call stays
    unsettled. *)
Lemma run_dormant_waiting (p : nat) :
  forall trace w w',
  dormant p w ->
  Forall (fun te => forall out, snd te <> ExecutorSettles p out) trace ->
  run w trace = Some w' ->
  dormant p w'.
Proof.
  induction trace as [|[t ev] r IH]; intros w w' Hd Hf; simpl.
  - intros H. injection H as <-. exact Hd.
  - unfold step. simpl.
    destruct (handle (advance t w) ev) as [w1|] eqn:E; [|discriminate].
    apply Forall_cons in Hf as [Hev Hf].
    apply IH; [|exact Hf].
    eapply handle_dormant; [exact (advance_dormant p w t Hd)| |exact E].
    intros out ->. exfalso. exact (Hev out eq_refl).
Qed.

End Dormant.

(* ===================================================================== *)
(** * The event loop: the deadline of a pending action *)
(* ===================================================================== *)

Section Deadline.
Import FrameBuffer EventLoop.

Lemma deadlineOf_owner p tm : deadlineOf p tm -> timer_owner (callback tm) = None.
Proof. unfold deadlineOf. destruct (callback tm); simpl; tauto. Qed.

(** A batch of effects that removes pending actions only when it settles
    them keeps [p] live, and keeps its timer. *)
Lemma perform_live (p : nat) (w : World) (r : FrameBuffer.t * list Effect) :
  live p w ->
  (forall q, In q (pendingActions (buffer w)) ->
     In q (pendingActions (fst r)) \/ exists o, In (Settle (pa_id q) o) (snd r)) ->
  live p (perform w r).
Proof.
  intros [Hs|(q & Hq & E)] Hkeep; unfold live, perform.
  - left. apply applyEffects_keeps. exact Hs.
  - destruct (Hkeep q Hq) as [H|[o H]].
    + right. rewrite applyEffects_buffer. exists q. auto.
    + left. rewrite E in H. exact (applyEffects_settles p o _ _ H).
Qed.

Lemma perform_held (p : nat) (D : Z) (w : World)
  (r : FrameBuffer.t * list Effect) :
  held p D w ->
  (forall q, In q (pendingActions (buffer w)) ->
     In q (pendingActions (fst r)) \/ exists o, In (Settle (pa_id q) o) (snd r)) ->
  held p D (perform w r).
Proof.
  intros [Hs|(Hq & tm & Htm & Hd & Hdue)] Hkeep.
  - left. unfold perform. apply applyEffects_keeps. exact Hs.
  - destruct (perform_live p w r (or_intror Hq) Hkeep) as [H|H]; [now left|].
    right. split; [exact H|]. exists tm. split; [|auto].
    unfold perform. apply applyEffects_timer_stays;
      [exact (deadlineOf_owner _ _ Hd)|exact Htm].
Qed.

Lemma fire_keep (fb : FrameBuffer.t) (tm : Timer) (now : Z) :
  forall q, In q (pendingActions fb) ->
  let r := match callback tm with
           | ActionDeadline pending result before =>
               onActionDeadline fb pending result before now
           | NextFrameTimeout p => onNextFrameTimeout fb p
           | StableFrameTimeout p => onStableFrameTimeout fb p
           end in
  In q (pendingActions (fst r)) \/ exists o, In (Settle (pa_id q) o) (snd r).
Proof.
  intros q Hq. simpl. destruct (callback tm) as [pd res before|p|p].
  - destruct (onActionDeadline_spec fb pd res before now)
      as (_ & _ & _ & Hk & _).
    exact (Hk q Hq).
  - left. exact Hq.
  - left. destruct (onStableFrameTimeout_spec fb p) as (_ & _ & _ & E).
    simpl in E. rewrite E. exact Hq.
Qed.

Lemma fire_live (p : nat) (w : World) (tm : Timer) :
  live p w -> live p (fire w tm).
Proof.
  intros H. unfold fire. apply perform_live; [exact H|].
  exact (fire_keep (buffer w) tm (Z.max (clock w) (due tm))).
Qed.

(** When its deadline timer fires, a live call is settled. *)
Lemma fire_settles (p : nat) (w : World) (tm : Timer) :
  live p w -> deadlineOf p tm -> is_Some (promises (fire w tm) !! p).
Proof.
  intros Hl Hd. unfold fire, perform. unfold deadlineOf in Hd.
  destruct (callback tm) as [pd res before|q|q]; try contradiction.
  destruct Hl as [Hs|Hp].
  - apply applyEffects_keeps. exact Hs.
  - destruct (onActionDeadline_spec
                (buffer (set_clock w (Z.max (clock w) (due tm))))
                pd res before (Z.max (clock w) (due tm)))
      as (_ & _ & _ & _ & Hfire).
    destruct Hfire as [o Ho]; [rewrite Hd; exact Hp|].
    rewrite Hd in Ho. exact (applyEffects_settles p o _ _ Ho).
Qed.

Lemma fire_keeps_settled (p : nat) (w : World) (tm : Timer) :
  is_Some (promises w !! p) -> is_Some (promises (fire w tm) !! p).
Proof. intros H. unfold fire, perform. apply applyEffects_keeps. exact H. Qed.

Lemma fire_timer_stays (w : World) (tm x : Timer) :
  timer_owner (callback x) = None ->
  In x (timers w) -> In x (timers (fire w tm)).
Proof.
  intros Ho Hin. unfold fire, perform.
  apply applyEffects_timer_stays; [exact Ho|exact Hin].
Qed.

Lemma fold_fire_live (p : nat) :
  forall l w, live p w -> live p (fold_left fire l w).
Proof.
  induction l as [|tm r IH]; intros w H; simpl; [exact H|].
  apply IH, fire_live, H.
Qed.

Lemma fold_fire_keeps_settled (p : nat) :
  forall l w, is_Some (promises w !! p) ->
  is_Some (promises (fold_left fire l w) !! p).
Proof.
  induction l as [|tm r IH]; intros w H; simpl; [exact H|].
  apply IH, fire_keeps_settled, H.
Qed.

Lemma fold_fire_settles (p : nat) :
  forall l w, live p w -> (exists tm, In tm l /\ deadlineOf p tm) ->
  is_Some (promises (fold_left fire l w) !! p).
Proof.
  induction l as [|tm r IH]; intros w Hl (x & Hx & Hd); simpl; [destruct Hx|].
  destruct Hx as [->|Hx].
  - apply fold_fire_keeps_settled, fire_settles; assumption.
  - apply IH; [apply fire_live, Hl|eauto].
Qed.

Lemma fold_fire_timer_stays (x : Timer) :
  timer_owner (callback x) = None ->
  forall l w, In x (timers w) -> In x (timers (fold_left fire l w)).
Proof.
  intros Ho. induction l as [|tm r IH]; intros w H; simpl; [exact H|].
  apply IH, fire_timer_stays; assumption.
Qed.

Lemma advance_held (p : nat) (D : Z) (w : World) (t : Z) :
  held p D w -> held p D (advance t w).
Proof.
  unfold advance. set (t' := Z.max (clock w) t).
  set (w0 := set_timers w _).
  intros [Hs|(Hq & tm & Htm & Hd & Hdue)].
  - left. simpl. apply fold_fire_keeps_settled. exact Hs.
  - assert (Hl : live p w0) by (right; exact Hq).
    destruct (Z.leb_spec (due tm) t') as [Hle|Hgt].
    + left. simpl. apply fold_fire_settles; [exact Hl|].
      exists tm. split; [|exact Hd].
      apply filter_In. split; [exact Htm|]. apply Z.leb_le. exact Hle.
    + destruct (fold_fire_live p
                  (List.filter (fun tm => due tm <=? t') (timers w)) w0 Hl)
        as [H|H]; [now left|].
      right. split; [exact H|]. exists tm. split; [|auto]. simpl.
      apply fold_fire_timer_stays; [exact (deadlineOf_owner _ _ Hd)|].
      simpl. apply filter_In. split; [exact Htm|]. apply Z.ltb_lt. exact Hgt.
Qed.

Lemma handle_held (p : nat) (D : Z) (w w' : World) (ev : Event) :
  held p D w -> ev <> Clear -> handle w ev = Some w' -> held p D w'.
Proof.
  intros Hh Hne.
  destruct ev as [frame|a|q out|timeout|d timeout| |]; simpl.
  - destruct (addFrame (buffer w) frame (clock w)) as [[fb' effs]|] eqn:E;
      [|discriminate].
    intros H. injection H as <-.
    destruct (addFrame_spec _ _ _ _ _ E) as (_ & _ & _ & Hk).
    apply perform_held; [exact Hh|exact Hk].
  - destruct (registerAction_begin _ _ _); intros H; injection H as <-.
    + destruct Hh as [Hs|Hr]; [|right; exact Hr].
      left. simpl. apply settle_keeps. exact Hs.
    + exact Hh.
  - destruct (calls w !! q) as [call|];
      [|intros H; injection H as <-; exact Hh].
    intros H. injection H as <-.
    apply (perform_held p D (set_calls w (delete q (calls w)))); [exact Hh|].
    intros x Hx. left. unfold registerAction_resume. simpl.
    destruct out as [res|e]; [|exact Hx].
    destruct (negb (success res)); [exact Hx|].
    destruct (isNonVisual (call_action call)); [exact Hx|].
    simpl. apply in_app_iff. now left.
  - intros H. injection H as <-.
    apply (perform_held p D (snd (allocate w))); [exact Hh|]. auto.
  - intros H. injection H as <-.
    apply (perform_held p D (snd (allocate w))); [exact Hh|]. auto.
  - contradiction.
  - intros H. injection H as <-. exact Hh.
Qed.

(** ** Timers stay ahead of the clock *)

Lemma fire_timers_sub (w : World) (tm x : Timer) :
  In x (timers (fire w tm)) -> In x (timers w).
Proof.
  unfold fire, perform. set (w1 := set_clock w _). intros H.
  apply applyEffects_timers_In in H as [H|(cb & delay & Hin & _)]; [exact H|].
  exfalso. revert Hin. simpl.
  destruct (callback tm) as [pd res before|q|q].
  - destruct (onActionDeadline_spec (buffer w1) pd res before
                (Z.max (clock w) (due tm))) as (_ & Hq & _).
    intros Hin. exact (Hq _ Hin).
  - destruct (onNextFrameTimeout_spec (buffer w1) q) as (_ & Hq & _).
    intros Hin. exact (Hq _ Hin).
  - destruct (onStableFrameTimeout_spec (buffer w1) q) as (_ & Hq & _).
    intros Hin. exact (Hq _ Hin).
Qed.

Lemma fold_fire_timers_sub (x : Timer) :
  forall l w, In x (timers (fold_left fire l w)) -> In x (timers w).
Proof.
  induction l as [|tm r IH]; intros w; simpl; [auto|].
  intros H. exact (fire_timers_sub _ _ _ (IH _ H)).
Qed.

Lemma advance_timersAhead (w : World) (t : Z) : timersAhead (advance t w).
Proof.
  unfold advance, timersAhead. simpl. intros tm H.
  apply fold_fire_timers_sub in H. simpl in H.
  apply filter_In in H as [_ H]. apply Z.ltb_lt in H. exact H.
Qed.

Lemma handle_timersAhead (w w' : World) (ev : Event) :
  timersAhead w -> handle w ev = Some w' -> timersAhead w'.
Proof.
  intros Ha.
  destruct ev as [frame|a|q out|timeout|d timeout| |]; simpl.
  - destruct (addFrame _ _ _) as [r|]; [|discriminate].
    intros H. injection H as <-. apply applyEffects_timersAhead. exact Ha.
  - destruct (registerAction_begin _ _ _); intros H; injection H as <-;
      exact Ha.
  - destruct (calls w !! q) as [call|];
      [|intros H; injection H as <-; exact Ha].
    intros H. injection H as <-. apply applyEffects_timersAhead. exact Ha.
  - intros H. injection H as <-. apply applyEffects_timersAhead. exact Ha.
  - intros H. injection H as <-. apply applyEffects_timersAhead. exact Ha.
  - intros H. injection H as <-. exact Ha.
  - intros H. injection H as <-. exact Ha.
Qed.

(** ** The configuration never changes, and events return *)

Lemma fire_config (w : World) (tm : Timer) :
  config (buffer (fire w tm)) = config (buffer w).
Proof.
  unfold fire, perform. rewrite applyEffects_buffer. simpl.
  destruct (callback tm) as [pd res before|q|q].
  - apply onActionDeadline_spec.
  - reflexivity.
  - apply onStableFrameTimeout_spec.
Qed.

Lemma advance_config (w : World) (t : Z) :
  config (buffer (advance t w)) = config (buffer w).
Proof.
  unfold advance. simpl.
  set (l := List.filter _ _). set (w0 := set_timers w _).
  change (config (buffer w)) with (config (buffer w0)).
  generalize w0. induction l as [|tm r IH]; intros w1; simpl; [reflexivity|].
  rewrite IH. apply fire_config.
Qed.

Lemma handle_total (w : World) (ev : Event) :
  0 <= maxSize (config (buffer w)) ->
  exists w', handle w ev = Some w'
    /\ config (buffer w') = config (buffer w).
Proof.
  intros Hm.
  destruct ev as [frame|a|q out|timeout|d timeout| |]; simpl.
  - destruct (addFrame_frames (buffer w) frame (clock w) Hm)
      as (fb' & effs & -> & _ & Hc).
    eexists. split; [reflexivity|]. unfold perform.
    rewrite applyEffects_buffer. exact Hc.
  - destruct (registerAction_begin _ _ _); eexists; split; reflexivity.
  - destruct (calls w !! q) as [call|]; eexists; split; try reflexivity.
    unfold perform. rewrite applyEffects_buffer. simpl.
    unfold registerAction_resume. destruct out as [res|e]; [|reflexivity].
    destruct (negb (success res)); [reflexivity|].
    destruct (isNonVisual (call_action call)); reflexivity.
  - eexists. split; [reflexivity|]. unfold perform.
    rewrite applyEffects_buffer. reflexivity.
  - eexists. split; [reflexivity|]. unfold perform.
    rewrite applyEffects_buffer. reflexivity.
  - eexists. split; reflexivity.
  - eexists. split; reflexivity.
Qed.

Lemma step_total (w : World) (te : Z * Event) :
  0 <= maxSize (config (buffer w)) ->
  exists w', step w te = Some w'
    /\ config (buffer w') = config (buffer w).
Proof.
  intros Hm. unfold step.
  destruct (handle_total (advance (fst te) w) (snd te)) as (w' & E & Hc).
  - rewrite advance_config. exact Hm.
  - exists w'. split; [exact E|]. rewrite Hc. apply advance_config.
Qed.

Lemma run_held (p : nat) (D : Z) :
  forall trace w,
  0 <= maxSize (config (buffer w)) ->
  held p D w -> timersAhead w ->
  Forall (fun te => snd te <> Clear) trace ->
  exists w', run w trace = Some w' /\ held p D w' /\ timersAhead w'.
Proof.
  induction trace as [|te r IH]; intros w Hm Hh Ha Hf; simpl.
  - exists w. auto.
  - apply Forall_cons in Hf as [Hne Hf].
    destruct (step_total w te Hm) as (w1 & E & Hc). rewrite E.
    unfold step in E.
    apply IH; [rewrite Hc; exact Hm| | |exact Hf].
    + eapply handle_held; [exact (advance_held p D w (fst te) Hh)| |exact E].
      exact Hne.
    + eapply handle_timersAhead; [apply advance_timersAhead|exact E].
Qed.

End Deadline.

(* ===================================================================== *)
(** * registerAction: when it settles, and clear() *)
(* ===================================================================== *)

Section Settlement.
Import FrameBuffer EventLoop.

(** The completion of the executor settles the call or arms its
    deadline. *)
Lemma resume_held (w : World) (p : nat) (call : ActionCall)
  (out : ExecutorOutcome) :
  calls w !! p = Some call ->
  exists w1,
    handle w (ExecutorSettles p out) = Some w1
    /\ clock w1 = clock w
    /\ held p (clock w + Z.max 1 (maxWaitMs (config (buffer w)))) w1.
Proof.
  intros Hcall. unfold handle. rewrite Hcall.
  eexists. split; [reflexivity|].
  unfold perform. rewrite applyEffects_clock. split; [reflexivity|].
  set (w' := set_calls w _).
  unfold registerAction_resume.
  destruct out as [res|e].
  2:{ left. eapply applyEffects_settles. now left. }
  destruct (negb (success res)).
  { left. eapply applyEffects_settles. now left. }
  destruct (isNonVisual (call_action call)).
  { left. eapply applyEffects_settles. now left. }
  right. cbn [fst snd]. split.
  - rewrite applyEffects_buffer. eexists. split.
    + simpl. apply in_app_iff. right. now left.
    + reflexivity.
  - eexists. split; [|split].
    + apply applyEffects_timer_set; [|now left]. reflexivity.
    + reflexivity.
    + simpl. pose proof (timerDelay_le (maxWaitMs (config (buffer w)))). lia.
Qed.

(** C2, as the code has it: the wait of [registerAction] is bounded from
    the completion of the executor, not from the call.  Once the executor
    has returned or thrown, and as long as [clear()] is not called, the
    promise is settled at the latest [max(1, maxWaitMs)] milliseconds
    later, whatever frames, calls and waits happen in between. *)
Theorem registerAction_settles_after_executor (w : World) (p : nat)
  (call : ActionCall) (out : ExecutorOutcome) (t : Z)
  (trace : list (Z * Event)) :
  0 <= maxSize (config (buffer w)) ->
  calls w !! p = Some call ->
  Forall (fun te => snd te <> Clear) trace ->
  exists w1 w2,
    step w (t, ExecutorSettles p out) = Some w1
    /\ run w1 trace = Some w2
    /\ (clock w1 + Z.max 1 (maxWaitMs (config (buffer w))) <= clock w2 ->
        is_Some (promises w2 !! p)).
Proof.
  intros Hm Hcall Hnc.
  destruct (resume_held (advance t w) p call out) as (w1 & Hstep & Hclock & Hheld).
  { rewrite advance_calls. exact Hcall. }
  rewrite advance_config, <- Hclock in Hheld.
  set (D := clock w1 + Z.max 1 (maxWaitMs (config (buffer w)))) in *.
  assert (Hahead : timersAhead w1)
    by (eapply handle_timersAhead; [apply advance_timersAhead|exact Hstep]).
  destruct (step_total w (t, ExecutorSettles p out) Hm) as (w1' & Hstep' & Hc).
  unfold step in Hstep'. cbn [fst snd] in Hstep'.
  rewrite Hstep in Hstep'. injection Hstep' as <-.
  destruct (run_held p D trace w1) as (w2 & Hrun & Hh2 & Ha2); auto.
  { rewrite Hc. exact Hm. }
  exists w1, w2. split; [exact Hstep|]. split; [exact Hrun|].
  intros Hlate. destruct Hh2 as [Hs|(_ & tm & Htm & _ & Hdue)]; [exact Hs|].
  specialize (Ha2 tm Htm). lia.
Qed.

(** The click of [clickIssued]: its executor succeeds at 30 ms, a frame
    that is still changing arrives at 50 ms, and nothing more happens. *)
Lemma registerAction_settles_after_executor_witness :
  exists w w2,
    clickIssued = Some w
    /\ 0 <= maxSize (config (buffer w))
    /\ is_Some (calls w !! 0%nat)
    /\ run w [(30, ExecutorSettles 0 (Returned (Samples.okResult Samples.click)));
              (50, AddFrame (Samples.mkFrame 2 true 40));
              (2030, Idle)]
       = Some w2
    /\ is_Some (promises w2 !! 0%nat).
Proof.
  destruct clickIssued as [w|] eqn:Ew; [|vm_compute in Ew; discriminate].
  assert (Hm : 0 <= maxSize (config (buffer w))).
  { vm_compute in Ew. injection Ew as <-. simpl. lia. }
  assert (Hc : calls w !! 0%nat
               = Some {| call_action := Samples.click;
                         call_beforeFrame := Samples.mkFrame 1 true 100;
                         call_startTime := 20 |}).
  { vm_compute in Ew. injection Ew as <-. reflexivity. }
  destruct (registerAction_settles_after_executor w 0%nat _
              (Returned (Samples.okResult Samples.click)) 30
              [(50, AddFrame (Samples.mkFrame 2 true 40)); (2030, Idle)]
              Hm Hc) as (w1 & w2 & Hstep & Hrun & Hsettled).
  { repeat constructor; discriminate. }
  exists w, w2. split; [reflexivity|]. split; [exact Hm|].
  split; [rewrite Hc; eauto|].
  split.
  - cbn [run]. rewrite Hstep. exact Hrun.
  - apply Hsettled.
    vm_compute in Ew. injection Ew as <-.
    vm_compute in Hstep. injection Hstep as <-.
    vm_compute in Hrun. injection Hrun as <-.
    vm_compute. discriminate.
Defined.

(** C2 as worded fails for an executor that never completes: the deadline
    timer is only set after [await executeAction()], so the promise of
    [clickIssued] stays unsettled whatever else happens. *)
Lemma registerAction_hangs_without_executor :
  exists w,
    clickIssued = Some w
    /\ is_Some (calls w !! 0%nat)
    /\ (exists w', run w [(1000000, AddFrame (Samples.mkFrame 2 false 0));
                          (2000000, Idle)] = Some w'
                   /\ promises w' !! 0%nat = None)
    /\ ~ exists trace w',
           Forall (fun te => forall out, snd te <> ExecutorSettles 0 out) trace
           /\ run w trace = Some w'
           /\ is_Some (promises w' !! 0%nat).
Proof.
  destruct clickIssued as [w|] eqn:Ew; [|vm_compute in Ew; discriminate].
  vm_compute in Ew. injection Ew as <-.
  eexists. split; [reflexivity|].
  split; [vm_compute; eauto|].
  split; [eexists; split; [vm_compute; reflexivity|reflexivity]|].
  intros (trace & w' & Hf & Hrun & Hs).
  match type of Hrun with
  | run ?w _ = _ => assert (Hd : dormant 0 w)
  end.
  { split; [reflexivity|]. split; [|split].
    - intros [(h & [] & _)|(q & [] & _)].
    - intros tm [].
    - simpl. lia. }
  destruct (run_dormant_waiting 0%nat trace _ w' Hd Hf Hrun) as (Hp & _).
  rewrite Hp in Hs. destruct Hs; discriminate.
Qed.

(** C1, as the code has it: [clear()] empties the frame store and the
    table of pending actions and settles nothing: every promise is left in
    the state it was in, no waiter is resolved or rejected, and the frame
    waits keep their listeners and their timers. *)
Theorem clear_settles_nothing (w : World) :
  exists w',
    handle w Clear = Some w'
    /\ frames (buffer w') = []
    /\ pendingActions (buffer w') = []
    /\ promises w' = promises w
    /\ listeners (buffer w') = listeners (buffer w)
    /\ timers w' = timers w
    /\ forall p, pendingFor p (buffer w) -> promises w !! p = None ->
         promises w' !! p = None.
Proof.
  eexists. split; [reflexivity|]. simpl. repeat split; auto.
Qed.

(** [clear()] at the moment the click of [clickPending] is pending. *)
Lemma clear_settles_nothing_witness :
  exists w0 w',
    clickPending = Some w0
    /\ pendingFor 0 (buffer w0)
    /\ promises w0 !! 0%nat = None
    /\ handle w0 Clear = Some w'
    /\ pendingActions (buffer w') = []
    /\ timers w' = timers w0
    /\ promises w' !! 0%nat = None.
Proof.
  destruct clickPending as [w0|] eqn:Ew; [|vm_compute in Ew; discriminate].
  assert (Hpend : pendingFor 0 (buffer w0)).
  { vm_compute in Ew. injection Ew as <-. eexists. split; [now left|reflexivity]. }
  assert (Hfree : promises w0 !! 0%nat = None).
  { vm_compute in Ew. injection Ew as <-. reflexivity. }
  destruct (clear_settles_nothing w0)
    as (w' & Hrun & _ & Hp' & _ & _ & Htimers & Hkeep).
  exists w0, w'. split; [reflexivity|]. split; [exact Hpend|].
  split; [exact Hfree|]. split; [exact Hrun|]. split; [exact Hp'|].
  split; [exact Htimers|]. exact (Hkeep 0%nat Hpend Hfree).
Defined.

(** C1 as worded fails: the pending call is not settled by [clear()], and
    since its deadline callback no longer finds it in the table, it is
    never settled afterwards either. *)
Lemma clear_leaves_action_unsettled :
  exists w0 w,
    clickPending = Some w0
    /\ map pa_id (pendingActions (buffer w0)) = [0%nat]
    /\ step w0 (40, Clear) = Some w
    /\ promises w !! 0%nat = None
    /\ (exists w', run w [(5000, Idle)] = Some w'
                   /\ promises w' !! 0%nat = None)
    /\ ~ exists trace w',
           run w trace = Some w' /\ is_Some (promises w' !! 0%nat).
Proof.
  eexists. eexists. split; [vm_compute; reflexivity|].
  split; [reflexivity|]. split; [vm_compute; reflexivity|].
  split; [reflexivity|].
  split; [eexists; split; [vm_compute; reflexivity|reflexivity]|].
  intros (trace & w' & Hrun & Hs).
  match type of Hrun with
  | run ?w _ = _ => assert (Hd : dormant 0 w)
  end.
  { split; [reflexivity|]. split; [|split].
    - intros [(h & [] & _)|(q & [] & _)].
    - intros tm [<-|[]]. discriminate.
    - simpl. lia. }
  destruct (run_dormant_forever 0%nat trace _ w' Hd eq_refl Hrun)
    as ((Hp & _) & _).
  rewrite Hp in Hs. destruct Hs; discriminate.
Qed.

End Settlement.

(* ===================================================================== *)
(** * The event loop: pending actions are distinct objects *)
(* ===================================================================== *)

Section Distinct.
Import FrameBuffer EventLoop.

Lemma NoDup_map_delete {A B : Type} (f : A -> B) :
  forall (l : list A) (i : nat),
  NoDup (map f l) -> NoDup (map f (delete i l)).
Proof.
  induction l as [|a r IH]; intros i H; [destruct i; exact H|].
  simpl in H. apply NoDup_cons in H as [Ha Hr].
  destruct i as [|i]; simpl; [exact Hr|].
  apply NoDup_cons. split; [|apply IH, Hr].
  intros Hin. apply Ha.
  apply list_elem_of_In, in_map_iff in Hin as (x & Hx & Hin).
  apply list_elem_of_In, in_map_iff. exists x. split; [exact Hx|].
  exact (In_delete_inv _ _ _ Hin).
Qed.

Lemma resolveAll_NoDup frame now :
  forall toResolve fb,
  NoDup (map pa_id (pendingActions fb)) ->
  NoDup (map pa_id (pendingActions (fst (resolveAll fb frame now toResolve)))).
Proof.
  induction toResolve as [|p r IH]; intros fb H; simpl; [exact H|].
  destruct (indexOf p (pendingActions fb)) as [i|]; [|apply IH, H].
  specialize (IH (set_pendingActions fb (delete i (pendingActions fb)))
                (NoDup_map_delete pa_id _ i H)).
  destruct (resolveAll _ frame now r) as [fb'' effs]. exact IH.
Qed.

Lemma addFrame_NoDup fb frame now fb' effs :
  addFrame fb frame now = Some (fb', effs) ->
  NoDup (map pa_id (pendingActions fb)) ->
  NoDup (map pa_id (pendingActions fb'))
  /\ forall q, In q (pendingActions fb') -> In q (pendingActions fb).
Proof.
  unfold addFrame. destruct (trim _ _ _) as [fs|]; [|discriminate].
  destruct (emitFrameAdded _ _ frame now) as [ls e1].
  unfold checkPendingActions.
  set (fb2 := set_listeners (set_frames fb fs) ls).
  set (toResolve := List.filter _ _).
  intros E Hnd.
  pose proof (resolveAll_NoDup frame now toResolve fb2 Hnd) as H1.
  pose proof (resolveAll_sub frame now toResolve fb2) as H2.
  destruct (resolveAll fb2 frame now toResolve) as [fb3 e2].
  injection E as <- _. split; [exact H1|exact H2].
Qed.

Lemma fire_pending (w : World) (tm : Timer) :
  (NoDup (map pa_id (pendingActions (buffer w))) ->
   NoDup (map pa_id (pendingActions (buffer (fire w tm)))))
  /\ (forall q, In q (pendingActions (buffer (fire w tm))) ->
        In q (pendingActions (buffer w)))
  /\ calls (fire w tm) = calls w
  /\ nextPromise (fire w tm) = nextPromise w.
Proof.
  unfold fire, perform.
  rewrite applyEffects_buffer, applyEffects_calls, applyEffects_nextPromise.
  simpl. destruct (callback tm) as [pd res before|q|q].
  - unfold onActionDeadline.
    destruct (indexOf pd (pendingActions (buffer w))) as [i|]; simpl.
    + split; [apply NoDup_map_delete|]. split; [|auto].
      intros q. apply In_delete_inv.
    + auto.
  - simpl. auto.
  - destruct (onStableFrameTimeout_spec (buffer w) q) as (_ & _ & _ & E).
    simpl in E. rewrite E. auto.
Qed.

Lemma fire_distinct (w : World) (tm : Timer) :
  distinctPending w -> distinctPending (fire w tm).
Proof.
  intros (Hnd & Hq & Hk).
  destruct (fire_pending w tm) as (H1 & H2 & H3 & H4).
  split; [exact (H1 Hnd)|]. rewrite H3, H4. split; [|exact Hk].
  intros q Hin. apply Hq, H2, Hin.
Qed.

Lemma advance_distinct (w : World) (t : Z) :
  distinctPending w -> distinctPending (advance t w).
Proof.
  intros H. unfold advance.
  set (l := List.filter _ _). set (w0 := set_timers w _).
  assert (H0 : distinctPending w0) by exact H.
  change (distinctPending (fold_left fire l w0)).
  revert H0. generalize w0.
  induction l as [|tm r IH]; intros w1 H1; simpl; [exact H1|].
  apply IH, fire_distinct, H1.
Qed.

Lemma handle_distinct (w w' : World) (ev : Event) :
  distinctPending w -> handle w ev = Some w' -> distinctPending w'.
Proof.
  intros (Hnd & Hq & Hk).
  destruct ev as [frame|a|q out|timeout|d timeout| |]; simpl.
  - destruct (addFrame (buffer w) frame (clock w)) as [[fb' effs]|] eqn:E;
      [|discriminate].
    intros H. injection H as <-.
    destruct (addFrame_NoDup _ _ _ _ _ E Hnd) as [H1 H2].
    unfold distinctPending, perform.
    rewrite applyEffects_buffer, applyEffects_calls, applyEffects_nextPromise.
    simpl. split; [exact H1|]. split; [|exact Hk].
    intros x Hx. apply Hq, H2, Hx.
  - destruct (registerAction_begin _ _ _); intros H; injection H as <-.
    + split; [exact Hnd|]. simpl. split.
      * intros x Hx. destruct (Hq x Hx). split; [lia|assumption].
      * intros k Hs. specialize (Hk k Hs). lia.
    + split; [exact Hnd|]. simpl. split.
      * intros x Hx. destruct (Hq x Hx) as [Hlt Hc]. split; [lia|].
        rewrite lookup_insert_ne by lia. exact Hc.
      * intros k Hs. destruct (decide (nextPromise w = k)) as [<-|Hne]; [lia|].
        rewrite lookup_insert_ne in Hs by exact Hne. specialize (Hk k Hs). lia.
  - destruct (calls w !! q) as [call|] eqn:C;
      [|intros H; injection H as <-; split; auto].
    intros H. injection H as <-.
    unfold distinctPending, perform.
    rewrite applyEffects_buffer, applyEffects_calls, applyEffects_nextPromise.
    simpl.
    assert (Hdel : forall x, In x (pendingActions (buffer w)) ->
              (pa_id x < nextPromise w)%nat
              /\ delete q (calls w) !! pa_id x = None).
    { intros x Hx. destruct (Hq x Hx) as [Hlt Hc]. split; [exact Hlt|].
      destruct (decide (q = pa_id x)) as [->|Hne];
        [apply lookup_delete_eq|rewrite lookup_delete_ne by exact Hne; exact Hc]. }
    assert (Hkeys : forall k, is_Some (delete q (calls w) !! k) ->
              (k < nextPromise w)%nat).
    { intros k Hs. apply Hk. destruct (decide (q = k)) as [->|Hne].
      - rewrite lookup_delete_eq in Hs. destruct Hs; discriminate.
      - rewrite lookup_delete_ne in Hs by exact Hne. exact Hs. }
    unfold registerAction_resume.
    destruct out as [res|e]; [|split; auto].
    destruct (negb (success res)); [split; auto|].
    destruct (isNonVisual (call_action call)); [split; auto|].
    simpl. split; [|split; [|exact Hkeys]].
    + rewrite map_app. apply NoDup_app. split; [exact Hnd|]. split.
      * intros i Hi Hin. simpl in Hin. apply list_elem_of_In in Hin.
        destruct Hin as [<-|[]].
        apply list_elem_of_In, in_map_iff in Hi as (x & Ex & Hx).
        destruct (Hq x Hx) as [_ Hc]. rewrite Ex, C in Hc. discriminate.
      * simpl. apply NoDup_cons. split; [apply not_elem_of_nil|constructor].
    + intros x Hx. apply in_app_iff in Hx as [Hx|[<-|[]]]; [auto|].
      simpl. split; [apply Hk; rewrite C; eauto|apply lookup_delete_eq].
  - intros H. injection H as <-.
    unfold distinctPending, perform.
    rewrite applyEffects_buffer, applyEffects_calls, applyEffects_nextPromise.
    simpl. split; [exact Hnd|]. split.
    + intros x Hx. destruct (Hq x Hx). split; [lia|assumption].
    + intros k Hs. specialize (Hk k Hs). lia.
  - intros H. injection H as <-.
    unfold distinctPending, perform.
    rewrite applyEffects_buffer, applyEffects_calls, applyEffects_nextPromise.
    simpl. split; [exact Hnd|]. split.
    + intros x Hx. destruct (Hq x Hx). split; [lia|assumption].
    + intros k Hs. specialize (Hk k Hs). lia.
  - intros H. injection H as <-. split; [constructor|].
    split; [intros x []|exact Hk].
  - intros H. injection H as <-. split; auto.
Qed.

(** In every world the loop reaches from its start, the pending actions
    have pairwise distinct identities. *)
Lemma reachable_distinct (cfg : FrameBufferConfig) :
  forall trace w,
  run (boot cfg) trace = Some w ->
  NoDup (map pa_id (pendingActions (buffer w))).
Proof.
  assert (Hgen : forall trace w0 w, distinctPending w0 ->
            run w0 trace = Some w -> distinctPending w).
  { induction trace as [|te r IH]; intros w0 w H0; simpl.
    - intros E. injection E as <-. exact H0.
    - unfold step. destruct (handle (advance (fst te) w0) (snd te)) as [w1|] eqn:E;
        [|discriminate].
      apply IH. eapply handle_distinct; [|exact E].
      apply advance_distinct, H0. }
  intros trace w Hrun. apply (Hgen trace (boot cfg) w); [|exact Hrun].
  split; [constructor|]. split; [intros q []|].
  intros k [x Hx]. simpl in Hx. rewrite lookup_empty in Hx. discriminate.
Qed.

End Distinct.

(* ===================================================================== *)
(** * FrameBuffer: reading back what addFrame stored *)
(* ===================================================================== *)

Section Reads.
Import FrameBuffer.

Lemma lastN_snoc {A : Type} (n : nat) (l : list A) (x : A) :
  (1 <= n)%nat -> lastN n (l ++ [x]) = lastN (n - 1) l ++ [x].
Proof.
  intros Hn. unfold lastN. rewrite length_app. simpl.
  rewrite drop_app_le by lia. f_equal. f_equal. lia.
Qed.

Lemma lastN_zero {A : Type} (l : list A) : lastN 0 l = [].
Proof. unfold lastN. rewrite Nat.sub_0_r. apply drop_all. Qed.

Lemma lastN_In {A : Type} (n : nat) (l : list A) (x : A) :
  In x (lastN n l) -> In x l.
Proof.
  unfold lastN. intros H. rewrite <- (take_drop (length l - n) l).
  apply in_app_iff. now right.
Qed.

Lemma find_snoc {A : Type} (p : A -> bool) (l : list A) (x : A) :
  p x = true ->
  (exists f, List.find p (l ++ [x]) = Some f /\ p f = true)
  /\ ((forall g, In g l -> p g = false) -> List.find p (l ++ [x]) = Some x).
Proof.
  intros Hx. induction l as [|a r [IH1 IH2]]; simpl.
  - rewrite Hx. split; [eauto|reflexivity].
  - destruct (p a) eqn:E.
    + split; [eauto|]. intros H. specialize (H a (or_introl eq_refl)).
      congruence.
    + split; [exact IH1|]. intros H. apply IH2. intros g Hg. apply H. now right.
Qed.

Lemma find_none {A : Type} (p : A -> bool) (l : list A) :
  (forall g, In g l -> p g = false) -> List.find p l = None.
Proof.
  induction l as [|a r IH]; simpl; intros H; [reflexivity|].
  rewrite (H a (or_introl eq_refl)). apply IH. intros g Hg. apply H. now right.
Qed.

(** X1: with a capacity of at least one, the frame just added is the
    latest frame, and looking its id up finds a frame with that id - the
    frame itself when no frame buffered before had the same id. *)
Theorem addFrame_then_reads (fb : FrameBuffer.t) (frame : ScreencastFrame)
  (now : Z) :
  1 <= maxSize (config fb) ->
  exists fb' effs,
    addFrame fb frame now = Some (fb', effs)
    /\ getLatestFrame fb' = Some frame
    /\ (exists f, getFrame fb' (frameId frame) = Some f
                  /\ frameId f = frameId frame)
    /\ ((forall g, In g (frames fb) -> frameId g <> frameId frame) ->
        getFrame fb' (frameId frame) = Some frame).
Proof.
  intros Hm.
  destruct (addFrame_frames fb frame now) as (fb' & effs & Hrun & Hf & _);
    [lia|].
  exists fb', effs. split; [exact Hrun|].
  unfold getLatestFrame, getFrame. rewrite Hf, lastN_snoc by lia.
  destruct (find_snoc (fun f => frameId f =? frameId frame)
              (lastN (Z.to_nat (maxSize (config fb)) - 1) (frames fb)) frame
              (Z.eqb_refl _)) as [(f & Hfind & Hid) Huniq].
  split; [apply last_snoc|]. split.
  - exists f. split; [exact Hfind|]. apply Z.eqb_eq, Hid.
  - intros Hnew. apply Huniq. intros g Hg. apply Z.eqb_neq, Hnew.
    exact (lastN_In _ _ _ Hg).
Qed.

Lemma addFrame_then_reads_witness :
  let fb := set_frames (FrameBuffer.create DEFAULT_CONFIG)
              [Samples.mkFrame 1 true 100] in
  let frame := Samples.mkFrame 2 true 5 in
  1 <= maxSize (config fb)
  /\ exists fb' effs,
       addFrame fb frame 10 = Some (fb', effs)
       /\ getLatestFrame fb' = Some frame
       /\ getFrame fb' 2 = Some frame.
Proof.
  intros fb frame.
  assert (Hm : 1 <= maxSize (config fb)) by (simpl; lia).
  destruct (addFrame_then_reads fb frame 10 Hm)
    as (fb' & effs & Hrun & Hlast & _ & Hget).
  split; [exact Hm|]. exists fb', effs. split; [exact Hrun|].
  split; [exact Hlast|]. apply Hget.
  intros g [<-|[]]. simpl. lia.
Defined.

(** X2: a buffer of capacity zero stores nothing: after any sequence of
    [addFrame] calls it is still empty, there is no latest frame, and
    [registerAction] fails with "No frame available for action". *)
Theorem zero_capacity_stores_nothing (fb : FrameBuffer.t)
  (inputs : list (ScreencastFrame * Z)) :
  maxSize (config fb) = 0 ->
  frames fb = [] ->
  exists fb',
    addFrames fb inputs = Some fb'
    /\ frames fb' = []
    /\ getLatestFrame fb' = None
    /\ forall a now, registerAction_begin fb' a now = inl NoFrameError.
Proof.
  intros Hm Hempty.
  destruct (addFrames_frames inputs fb) as (fb' & Hrun & Hf).
  - lia.
  - rewrite Hempty. simpl. lia.
  - rewrite Hm in Hf. change (Z.to_nat 0) with O in Hf.
    rewrite lastN_zero in Hf.
    exists fb'. split; [exact Hrun|]. split; [exact Hf|].
    unfold registerAction_begin, getLatestFrame. rewrite Hf.
    split; reflexivity.
Qed.

Lemma zero_capacity_stores_nothing_witness :
  let fb := FrameBuffer.create
              {| maxSize := 0; stabilityWaitMs := 200; maxWaitMs := 2000;
                 stabilityThreshold := 0.5 |} in
  maxSize (config fb) = 0
  /\ frames fb = []
  /\ exists fb',
       addFrames fb [(Samples.mkFrame 1 true 100, 10);
                     (Samples.mkFrame 2 true 5, 20)] = Some fb'
       /\ registerAction_begin fb' Samples.click 30 = inl NoFrameError.
Proof.
  intros fb.
  destruct (zero_capacity_stores_nothing fb
              [(Samples.mkFrame 1 true 100, 10); (Samples.mkFrame 2 true 5, 20)]
              eq_refl eq_refl) as (fb' & Hrun & _ & _ & Hreg).
  split; [reflexivity|]. split; [reflexivity|].
  exists fb'. split; [exact Hrun|apply Hreg].
Defined.

(** X3: when frames arrive in ascending id order and the buffer keeps at
    least two frames, asking for the frames since the frame that was the
    latest before an [addFrame] returns exactly the frame just added. *)
Theorem getFramesSince_previous_latest (fb : FrameBuffer.t)
  (frame previous : ScreencastFrame) (now : Z) :
  2 <= maxSize (config fb) ->
  ascending (frames fb ++ [frame]) ->
  getLatestFrame fb = Some previous ->
  exists fb' effs,
    addFrame fb frame now = Some (fb', effs)
    /\ getFramesSince fb' (frameId previous) = [frame].
Proof.
  intros Hm Hasc Hlast.
  destruct (addFrame_frames fb frame now) as (fb' & effs & Hrun & Hf & _);
    [lia|].
  exists fb', effs. split; [exact Hrun|].
  unfold getLatestFrame in Hlast. apply last_Some in Hlast as [pre Hpre].
  assert (Hshape : frames fb'
            = lastN (Z.to_nat (maxSize (config fb)) - 2) pre
              ++ [previous; frame]).
  { rewrite Hf, Hpre, lastN_snoc by lia.
    rewrite lastN_snoc by lia. rewrite <- app_assoc.
    f_equal. f_equal. lia. }
  assert (Hasc' : ascending (frames fb')).
  { rewrite Hf. apply ascending_lastN. exact Hasc. }
  unfold getFramesSince.
  rewrite (getFramesSince_present (frames fb') (frameId previous) Hasc').
  2:{ exists previous. split; [|reflexivity].
      rewrite Hshape. apply in_app_iff. right. now left. }
  rewrite Hshape in Hasc' |- *. unfold ascending in Hasc'.
  apply StronglySorted_app in Hasc' as (Hcross & _ & Htail).
  apply StronglySorted_inv in Htail as [_ Hpf].
  apply Forall_cons in Hpf as [Hpf _].
  rewrite List.filter_app. simpl.
  destruct (Z.ltb_spec (frameId previous) (frameId previous)); [lia|].
  destruct (Z.ltb_spec (frameId previous) (frameId frame)); [|lia].
  assert (Hnil : forall l : list ScreencastFrame,
            (forall a, In a l -> frameId a < frameId previous) ->
            List.filter (fun f => frameId previous <? frameId f) l = []).
  { induction l as [|a r IH]; intros Hl; [reflexivity|]. simpl.
    pose proof (Hl a (or_introl eq_refl)).
    destruct (Z.ltb_spec (frameId previous) (frameId a)); [lia|].
    apply IH. intros x Hx. apply Hl. now right. }
  rewrite Hnil; [reflexivity|].
  intros a Hin. apply Hcross; [apply list_elem_of_In, Hin|].
  apply list_elem_of_In. now left.
Qed.

Lemma getFramesSince_previous_latest_witness :
  let previous := Samples.mkFrame 2 true 5 in
  let fb := set_frames (FrameBuffer.create DEFAULT_CONFIG)
              [Samples.mkFrame 1 true 100; previous] in
  let frame := Samples.mkFrame 3 false 0 in
  2 <= maxSize (config fb)
  /\ ascending (frames fb ++ [frame])
  /\ getLatestFrame fb = Some previous
  /\ exists fb' effs,
       addFrame fb frame 10 = Some (fb', effs)
       /\ getFramesSince fb' 2 = [frame].
Proof.
  intros previous fb frame.
  assert (Hm : 2 <= maxSize (config fb)) by (simpl; lia).
  assert (Ha : ascending (frames fb ++ [frame])).
  { unfold ascending. simpl.
    repeat (constructor; [|repeat constructor; simpl; lia]). constructor. }
  split; [exact Hm|]. split; [exact Ha|]. split; [reflexivity|].
  exact (getFramesSince_previous_latest fb frame previous 10 Hm Ha eq_refl).
Defined.

End Reads.

(* ===================================================================== *)
(** * FrameBuffer: order and content of the resolutions *)
(* ===================================================================== *)

Section ResolutionOrder.
Import FrameBuffer.

Lemma filter_filter {A : Type} (f g : A -> bool) (l : list A) :
  List.filter f (List.filter g l) = List.filter (fun x => g x && f x) l.
Proof.
  induction l as [|a r IH]; simpl; [reflexivity|].
  destruct (g a); simpl; [destruct (f a); simpl; congruence|exact IH].
Qed.

Lemma set_pendingActions_same (fb : FrameBuffer.t) :
  set_pendingActions fb (pendingActions fb) = fb.
Proof. destruct fb. reflexivity. Qed.

(** The resolution loop, run on distinct pending actions that are all in
    the table: it settles them in the order of [toResolve] and leaves
    the others in place. *)
Lemma resolveAll_exact frame now :
  forall toResolve fb,
  NoDup (map pa_id (pendingActions fb)) ->
  NoDup (map pa_id toResolve) ->
  (forall p, In p toResolve -> In p (pendingActions fb)) ->
  resolveAll fb frame now toResolve
  = (set_pendingActions fb
       (List.filter
          (fun q => negb (existsb (fun p => Nat.eqb (pa_id q) (pa_id p))
                            toResolve))
          (pendingActions fb)),
     map (fun p => Settle (pa_id p)
                     (Resolved (ActionValue (frameResult fb frame now p))))
       toResolve).
Proof.
  induction toResolve as [|p0 r IH]; intros fb Hnd Hnr Hsub; simpl.
  - rewrite filter_all by reflexivity.
    rewrite set_pendingActions_same. reflexivity.
  - simpl in Hnr. apply NoDup_cons in Hnr as [Hp0 Hr].
    destruct (indexOf_In p0 _ (Hsub p0 (or_introl eq_refl))) as [i Hi].
    rewrite Hi, (delete_indexOf p0 _ i Hnd Hi).
    set (fb1 := set_pendingActions fb _).
    assert (Hsub1 : forall p, In p r -> In p (pendingActions fb1)).
    { intros p Hp. unfold fb1. simpl. apply filter_In.
      split; [apply Hsub; now right|].
      unfold otherThan. apply negb_true_iff, Nat.eqb_neq. intros E.
      apply Hp0. rewrite <- E. apply list_elem_of_In, in_map, Hp. }
    rewrite (IH fb1 (NoDup_map_filter _ _ _ Hnd) Hr Hsub1).
    assert (Hrest : List.filter
              (fun q => negb (existsb (fun p => Nat.eqb (pa_id q) (pa_id p)) r))
              (pendingActions fb1)
            = List.filter
                (fun q => negb (Nat.eqb (pa_id q) (pa_id p0)
                                || existsb (fun p => Nat.eqb (pa_id q) (pa_id p)) r))
                (pendingActions fb)).
    { unfold fb1. simpl. rewrite filter_filter.
      apply filter_ext. intros q. unfold otherThan.
      rewrite negb_orb. reflexivity. }
    rewrite Hrest.
    rewrite (frameResult_frames fb1 fb frame now p0) by reflexivity.
    rewrite (map_ext
               (fun p => Settle (pa_id p)
                  (Resolved (ActionValue (frameResult fb1 frame now p))))
               (fun p => Settle (pa_id p)
                  (Resolved (ActionValue (frameResult fb frame now p)))))
      by (intros p; rewrite (frameResult_frames fb1 fb) by reflexivity;
          reflexivity).
    reflexivity.
Qed.

(** The two loops of [checkPendingActions], as two filters. *)
Lemma checkPendingActions_filters (fb : FrameBuffer.t)
  (frame : ScreencastFrame) (now : Z) :
  NoDup (map pa_id (pendingActions fb)) ->
  checkPendingActions fb frame now
  = (set_pendingActions fb
       (List.filter (fun q => negb (stableFor (config fb) frame now q))
          (pendingActions fb)),
     map (fun p => Settle (pa_id p)
                     (Resolved (ActionValue (frameResult fb frame now p))))
       (List.filter (stableFor (config fb) frame now) (pendingActions fb))).
Proof.
  intros Hnd. unfold checkPendingActions.
  rewrite resolveAll_exact;
    [|exact Hnd|exact (NoDup_map_filter _ _ _ Hnd)
     |intros p Hp; apply filter_In in Hp as [Hp _]; exact Hp].
  f_equal. f_equal. apply filter_ext_in. intros q Hq. f_equal.
  destruct (stableFor (config fb) frame now q) eqn:S.
  - apply existsb_exists. exists q. split; [|apply Nat.eqb_refl].
    apply filter_In. auto.
  - destruct (existsb _ _) eqn:E; [|reflexivity].
    apply existsb_exists in E as (p & Hp & Eid).
    apply filter_In in Hp as [Hp Sp]. apply Nat.eqb_eq in Eid.
    assert (q = p) as -> by (apply (NoDup_map_inj pa_id (pendingActions fb)); auto).
    congruence.
Qed.

(** X4: [checkPendingActions] settles exactly the pending actions that
    pass its stability test, in the order in which they were registered,
    each with the result built from the incoming frame, and leaves the
    others pending in their order. *)
Theorem checkPendingActions_in_order (fb : FrameBuffer.t)
  (frame : ScreencastFrame) (now : Z) :
  NoDup (map pa_id (pendingActions fb)) ->
  checkPendingActions fb frame now
  = (set_pendingActions fb
       (List.filter (fun q => negb (stableFor (config fb) frame now q))
          (pendingActions fb)),
     map (fun p => Settle (pa_id p)
                     (Resolved (ActionValue (frameResult fb frame now p))))
       (List.filter (stableFor (config fb) frame now) (pendingActions fb))).
Proof. exact (checkPendingActions_filters fb frame now). Qed.

(** Three clicks issued on frame 1; frame 2 arrives calm 50 ms after the
    first two, before the third was issued on frame 2. *)
Lemma checkPendingActions_in_order_witness :
  let pa i ref t := {| pa_id := i; pa_action := Samples.click;
                       pa_frameId := ref; pa_timestamp := t |} in
  let fb := set_pendingActions
              (set_frames (FrameBuffer.create DEFAULT_CONFIG)
                 [Samples.mkFrame 1 true 100; Samples.mkFrame 2 false 0])
              [pa 0%nat 1 0; pa 1%nat 2 10; pa 2%nat 1 20] in
  NoDup (map pa_id (pendingActions fb))
  /\ map pa_id (pendingActions
                  (fst (checkPendingActions fb (Samples.mkFrame 2 false 0) 50)))
     = [1%nat]
  /\ map (fun e => match e with Settle i _ => Some i | _ => None end)
       (snd (checkPendingActions fb (Samples.mkFrame 2 false 0) 50))
     = [Some 0%nat; Some 2%nat].
Proof.
  intros pa fb.
  assert (Hnd : NoDup (map pa_id (pendingActions fb))).
  { simpl.
    repeat (apply NoDup_cons; split;
            [intros Hx; apply list_elem_of_In in Hx; simpl in Hx;
             intuition discriminate|]).
    constructor. }
  split; [exact Hnd|].
  rewrite (checkPendingActions_in_order fb (Samples.mkFrame 2 false 0) 50 Hnd).
  split; reflexivity.
Defined.

(** X5: the [beforeFrame] of a frame-resolved action is looked up in the
    buffer as it is after the new frame was pushed and the oldest frames
    evicted: it is the buffered frame with the reference id, and null when
    no buffered frame has that id any more. *)
Theorem resolved_beforeFrame_lookup (fb : FrameBuffer.t)
  (frame : ScreencastFrame) (now : Z) (pending : PendingAction)
  (r : FrameActionResult) :
  0 <= maxSize (config fb) ->
  NoDup (map pa_id (pendingActions fb)) ->
  In pending (pendingActions fb) ->
  exists fb' effs,
    addFrame fb frame now = Some (fb', effs)
    /\ frames fb'
       = lastN (Z.to_nat (maxSize (config fb))) (frames fb ++ [frame])
    /\ (In (Settle (pa_id pending) (Resolved (ActionValue r))) effs ->
        beforeFrame r = getFrame fb' (pa_frameId pending)
        /\ ((forall f, In f (frames fb') -> frameId f <> pa_frameId pending) ->
            beforeFrame r = None)).
Proof.
  intros Hm Hnd Hin. unfold addFrame.
  rewrite (trim_terminates _ Hm) by lia.
  set (fb1 := set_frames fb _).
  pose proof (emitFrameAdded_effects (config fb1) frame now (listeners fb1))
    as He.
  destruct (emitFrameAdded (config fb1) (listeners fb1) frame now) as [ls e1].
  set (fb2 := set_listeners fb1 ls).
  rewrite (checkPendingActions_filters fb2 frame now Hnd).
  eexists. eexists. split; [reflexivity|]. split; [reflexivity|].
  intros Hset. simpl in Hset.
  assert (Hr : r = frameResult fb2 frame now pending).
  { apply in_app_iff in Hset as [Hset|Hset].
    - destruct (He _ Hset) as [[p E]|[p E]]; discriminate.
    - apply in_map_iff in Hset as (p & E & Hp).
      apply filter_In in Hp as [Hp _]. injection E as Eid Er.
      assert (p = pending) as ->
        by (apply (NoDup_map_inj pa_id (pendingActions fb)); auto).
      auto. }
  subst r. split; [reflexivity|].
  intros Hgone. simpl. unfold getFrame. apply find_none.
  intros g Hg. apply Z.eqb_neq. exact (Hgone g Hg).
Qed.

(** A buffer of capacity 1 holding frame 1, on which a click is pending:
    frame 2 evicts frame 1 and resolves the click. *)
Lemma resolved_beforeFrame_lookup_witness :
  let pending := {| pa_id := 0%nat; pa_action := Samples.click;
                    pa_frameId := 1; pa_timestamp := 0 |} in
  let fb := set_pendingActions
              (set_frames
                 (FrameBuffer.create
                    {| maxSize := 1; stabilityWaitMs := 200;
                       maxWaitMs := 2000; stabilityThreshold := 0.5 |})
                 [Samples.mkFrame 1 true 100]) [pending] in
  let frame := Samples.mkFrame 2 false 0 in
  let r := frameResult (set_frames fb [frame]) frame 50 pending in
  0 <= maxSize (config fb)
  /\ NoDup (map pa_id (pendingActions fb))
  /\ In pending (pendingActions fb)
  /\ exists fb' effs,
       addFrame fb frame 50 = Some (fb', effs)
       /\ In (Settle 0%nat (Resolved (ActionValue r))) effs
       /\ map frameId (frames fb') = [2]
       /\ beforeFrame r = None.
Proof.
  intros pending fb frame r.
  assert (H0 : 0 <= maxSize (config fb)) by (simpl; lia).
  assert (H1 : NoDup (map pa_id (pendingActions fb))).
  { simpl. apply NoDup_cons. split; [apply not_elem_of_nil|constructor]. }
  assert (H2 : In pending (pendingActions fb)) by (simpl; auto).
  destruct (resolved_beforeFrame_lookup fb frame 50 pending r H0 H1 H2)
    as (fb' & effs & Hrun & Hfr & Hres).
  split; [exact H0|]. split; [exact H1|]. split; [exact H2|].
  exists fb', effs. split; [exact Hrun|].
  assert (Hset : In (Settle 0%nat (Resolved (ActionValue r))) effs).
  { vm_compute in Hrun. injection Hrun as _ <-. now left. }
  split; [exact Hset|]. split; [rewrite Hfr; reflexivity|].
  apply (Hres Hset). rewrite Hfr. intros f [<-|[]]. simpl. lia.
Defined.

End ResolutionOrder.

(* ===================================================================== *)
(** * registerAction: what it needs and when it returns at once *)
(* ===================================================================== *)

Section Registration.
Import FrameBuffer EventLoop.

(** X6: [registerAction] needs a frame.  On an empty buffer - in
    particular right after [clear()] - the call is rejected with "No frame
    available for action" and nothing else changes (the executor is not
    invoked); otherwise the call is suspended on its executor with the
    latest frame as [beforeFrame] and the current clock as start time, and
    nothing is settled yet. *)
Theorem registerAction_needs_a_frame (w : World) (a : BrowserAction) :
  promises w !! nextPromise w = None ->
  (frames (buffer w) = [] ->
   exists w',
     handle w (RegisterAction a) = Some w'
     /\ promises w' !! nextPromise w = Some (Rejected NoFrameError)
     /\ calls w' = calls w /\ buffer w' = buffer w /\ timers w' = timers w)
  /\ (forall w1, handle w Clear = Some w1 ->
      exists w',
        handle w1 (RegisterAction a) = Some w'
        /\ promises w' !! nextPromise w = Some (Rejected NoFrameError))
  /\ (forall latest, getLatestFrame (buffer w) = Some latest ->
      exists w',
        handle w (RegisterAction a) = Some w'
        /\ promises w' = promises w
        /\ calls w' !! nextPromise w
           = Some {| call_action := a; call_beforeFrame := latest;
                     call_startTime := clock w |}
        /\ buffer w' = buffer w /\ timers w' = timers w).
Proof.
  intros Hfree. split; [|split].
  - intros Hempty. simpl. unfold registerAction_begin, getLatestFrame. simpl.
    rewrite Hempty. simpl. eexists. split; [reflexivity|]. simpl.
    split; [apply settle_fresh, Hfree|]. repeat split; reflexivity.
  - intros w1 Hclear. simpl in Hclear. injection Hclear as <-. simpl.
    eexists. split; [reflexivity|]. simpl. apply settle_fresh, Hfree.
  - intros latest Hlatest. simpl. unfold registerAction_begin. simpl.
    rewrite Hlatest. eexists. split; [reflexivity|]. simpl.
    split; [reflexivity|]. split; [apply lookup_insert_eq|].
    split; reflexivity.
Qed.

Lemma registerAction_needs_a_frame_witness :
  let w := boot DEFAULT_CONFIG in
  promises w !! nextPromise w = None
  /\ frames (buffer w) = []
  /\ exists w',
       handle w (RegisterAction Samples.click) = Some w'
       /\ promises w' !! 0%nat = Some (Rejected NoFrameError)
       /\ calls w' = calls w.
Proof.
  intros w.
  destruct (registerAction_needs_a_frame w Samples.click eq_refl)
    as (Hempty & _ & _).
  destruct (Hempty eq_refl) as (w' & Hrun & Hp & Hc & _).
  split; [reflexivity|]. split; [reflexivity|].
  exists w'. split; [exact Hrun|]. split; [exact Hp|exact Hc].
Defined.

(** X7: for a [wait] or [screenshot] action whose executor succeeds,
    [registerAction] resolves as soon as the executor returns, with
    [afterFrame] equal to [beforeFrame] and [causedChange = false]; no
    pending action and no timer is created. *)
Theorem registerAction_non_visual (w : World) (p : nat) (call : ActionCall)
  (result : ActionResult) :
  calls w !! p = Some call ->
  promises w !! p = None ->
  action (call_action call) = wait \/ action (call_action call) = screenshot ->
  success result = true ->
  exists w',
    handle w (ExecutorSettles p (Returned result)) = Some w'
    /\ promises w' !! p
       = Some (Resolved (ActionValue
           {| far_action := call_action call; far_result := result;
              beforeFrame := Some (call_beforeFrame call);
              afterFrame := Some (call_beforeFrame call);
              causedChange := false;
              latencyMs := clock w - call_startTime call |}))
    /\ buffer w' = buffer w /\ timers w' = timers w.
Proof.
  intros Hcall Hfree Hkind Hok. simpl. rewrite Hcall.
  unfold registerAction_resume. rewrite Hok. simpl.
  assert (Hnv : isNonVisual (call_action call) = true)
    by (unfold isNonVisual; destruct Hkind as [-> | ->]; reflexivity).
  rewrite Hnv. eexists. split; [reflexivity|]. unfold perform. simpl.
  split; [apply settle_fresh, Hfree|]. split; reflexivity.
Qed.

(** The executor of the [wait] of [pauseIssued] returns at 1020 ms. *)
Lemma registerAction_non_visual_witness :
  exists w w' r,
    pauseIssued = Some w
    /\ is_Some (calls w !! 0%nat)
    /\ promises w !! 0%nat = None
    /\ step w (1020, ExecutorSettles 0 (Returned (Samples.okResult Samples.pause)))
       = Some w'
    /\ promises w' !! 0%nat = Some (Resolved (ActionValue r))
    /\ afterFrame r = beforeFrame r
    /\ causedChange r = false
    /\ latencyMs r = 1000
    /\ pendingActions (buffer w') = [] /\ timers w' = [].
Proof.
  destruct pauseIssued as [w|] eqn:Ew; [|vm_compute in Ew; discriminate].
  vm_compute in Ew. injection Ew as <-.
  match goal with
  | |- exists w w' r, Some ?w0 = Some w /\ _ =>
      destruct (registerAction_non_visual (advance 1020 w0) 0%nat
                  {| call_action := Samples.pause;
                     call_beforeFrame := Samples.mkFrame 1 true 100;
                     call_startTime := 20 |}
                  (Samples.okResult Samples.pause)
                  eq_refl eq_refl (or_introl eq_refl) eq_refl)
        as (w' & Hrun & Hp & Hb & Ht);
      exists w0, w'
  end.
  eexists. split; [reflexivity|]. split; [vm_compute; eauto|].
  split; [reflexivity|]. split; [exact Hrun|]. split; [exact Hp|].
  rewrite Hb, Ht. repeat split; reflexivity.
Defined.

End Registration.

(* ===================================================================== *)
(** * Frame waits: effects of one event *)
(* ===================================================================== *)

Section WaitEffects.
Import FrameBuffer EventLoop.

Lemma applyEffects_app (w : World) (e1 e2 : list Effect) :
  applyEffects w (e1 ++ e2) = applyEffects (applyEffects w e1) e2.
Proof. unfold applyEffects. apply fold_left_app. Qed.

Lemma settle_keeps_value (p q : nat) (o o' : Outcome) (ps : gmap nat Outcome) :
  ps !! p = Some o -> settle q o' ps !! p = Some o.
Proof.
  unfold settle. intros H. destruct (ps !! q) eqn:E; [exact H|].
  rewrite lookup_insert_ne; [exact H|]. intros ->. congruence.
Qed.

(** A settled promise keeps its outcome. *)
Lemma applyEffects_keeps_value (p : nat) (o : Outcome) es :
  forall w, promises w !! p = Some o ->
  promises (applyEffects w es) !! p = Some o.
Proof.
  unfold applyEffects. induction es as [|e r IH]; intros w H; simpl; [exact H|].
  apply IH. destruct e; simpl; auto using settle_keeps_value.
Qed.

(** The first settlement of a pending promise decides its outcome. *)
Lemma applyEffects_first_settle (p : nat) (o : Outcome) es :
  forall w, promises w !! p = None ->
  (forall o', In (Settle p o') es -> o' = o) ->
  In (Settle p o) es ->
  promises (applyEffects w es) !! p = Some o.
Proof.
  induction es as [|e r IH]; intros w Hfree Hall Hin; [destruct Hin|].
  change (applyEffects w (e :: r)) with (applyEffects (applyEffect w e) r).
  destruct e as [q o'|cb d|q].
  - destruct (decide (q = p)) as [->|Hne].
    + rewrite (Hall o' (or_introl eq_refl)).
      apply applyEffects_keeps_value. simpl. apply settle_fresh, Hfree.
    + apply IH.
      * simpl. rewrite settle_other by auto. exact Hfree.
      * intros o1 H1. apply Hall. now right.
      * destruct Hin as [E|Hin]; [congruence|exact Hin].
  - apply IH; [exact Hfree|intros o1 H1; apply Hall; now right|].
    destruct Hin as [E|Hin]; [discriminate|exact Hin].
  - apply IH; [exact Hfree|intros o1 H1; apply Hall; now right|].
    destruct Hin as [E|Hin]; [discriminate|exact Hin].
Qed.

Lemma emitFrameAdded_app cfg frame now (hs1 hs2 : list Handler) :
  emitFrameAdded cfg (hs1 ++ hs2) frame now
  = (fst (emitFrameAdded cfg hs1 frame now)
     ++ fst (emitFrameAdded cfg hs2 frame now),
     snd (emitFrameAdded cfg hs1 frame now)
     ++ snd (emitFrameAdded cfg hs2 frame now)).
Proof.
  induction hs1 as [|h r IH]; simpl.
  - destruct (emitFrameAdded cfg hs2 frame now). reflexivity.
  - rewrite IH.
    destruct (runHandler cfg h frame now) as [h' e1].
    destruct (emitFrameAdded cfg r frame now) as [r' e2]. simpl.
    rewrite <- app_assoc. destruct h'; reflexivity.
Qed.

Lemma paired_nil : paired [].
Proof. intros q []. Qed.

Lemma paired_app (e1 e2 : list Effect) :
  paired e1 -> paired e2 -> paired (e1 ++ e2).
Proof.
  intros H1 H2 q Hin. apply in_app_iff in Hin as [Hin|Hin].
  - destruct (H1 q Hin) as [o Ho]. exists o. apply in_app_iff. now left.
  - destruct (H2 q Hin) as [o Ho]. exists o. apply in_app_iff. now right.
Qed.

(** Effects without any [clearTimeout]. *)
Lemma paired_no_clear (effs : list Effect) :
  (forall q, ~ In (ClearTimeout q) effs) -> paired effs.
Proof. intros H q Hin. destruct (H q Hin). Qed.

Lemma runHandler_paired cfg h frame now :
  paired (snd (runHandler cfg h frame now)).
Proof.
  unfold runHandler. destruct h as [p c|p d lct lf].
  - destruct (c <? frameId frame); simpl; [|apply paired_nil].
    intros q [E|[E|[]]]; [|discriminate]. injection E as <-.
    eexists. right. now left.
  - destruct (hasChange frame && _); simpl; [apply paired_nil|].
    destruct (d <=? now - lct); simpl; [|apply paired_nil].
    intros q [E|[E|[]]]; [|discriminate]. injection E as <-.
    eexists. right. now left.
Qed.

Lemma emitFrameAdded_paired cfg frame now :
  forall hs, paired (snd (emitFrameAdded cfg hs frame now)).
Proof.
  induction hs as [|h r IH]; simpl; [apply paired_nil|].
  pose proof (runHandler_paired cfg h frame now) as Hh.
  destruct (runHandler cfg h frame now) as [h' e1].
  destruct (emitFrameAdded cfg r frame now) as [r' e2]. simpl in *.
  apply paired_app; assumption.
Qed.

Lemma quiet_settles_only ids effs :
  quiet ids effs -> (forall q, ~ In (ClearTimeout q) effs) ->
  forall e, In e effs -> exists i o, e = Settle i o.
Proof.
  intros Hq Hn e Hin. specialize (Hq e Hin). destruct e as [i o|cb d|q].
  - eauto.
  - destruct Hq.
  - destruct (Hn q Hin).
Qed.

Lemma resolveAll_no_clear frame now toResolve fb q :
  ~ In (ClearTimeout q) (snd (resolveAll fb frame now toResolve)).
Proof.
  intros Hin. apply resolveAll_effects_sound in Hin as (p & _ & E).
  discriminate.
Qed.

Lemma addFrame_paired fb frame now fb' effs :
  addFrame fb frame now = Some (fb', effs) -> paired effs.
Proof.
  unfold addFrame. destruct (trim _ _ _) as [fs|]; [|discriminate].
  pose proof (emitFrameAdded_paired
                (config (set_frames fb fs)) frame now
                (listeners (set_frames fb fs))) as H1.
  destruct (emitFrameAdded _ _ frame now) as [ls e1].
  unfold checkPendingActions.
  set (fb2 := set_listeners _ ls). set (toResolve := List.filter _ _).
  pose proof (fun q => resolveAll_no_clear frame now toResolve fb2 q) as H2.
  destruct (resolveAll fb2 frame now toResolve) as [fb3 e2].
  intros E. injection E as _ <-.
  apply paired_app; [exact H1|apply paired_no_clear, H2].
Qed.

(** The timer callbacks clear no timer. *)
Lemma callback_no_clear (fb : FrameBuffer.t) (cb : TimerCallback) (now : Z)
  (q : nat) :
  ~ In (ClearTimeout q)
      (snd match cb with
           | ActionDeadline pending result before =>
               onActionDeadline fb pending result before now
           | NextFrameTimeout p => onNextFrameTimeout fb p
           | StableFrameTimeout p => onStableFrameTimeout fb p
           end).
Proof.
  destruct cb as [pd res before|p|p].
  - unfold onActionDeadline. destruct (indexOf _ _); simpl;
      [intros [E|[]]; discriminate|intros []].
  - simpl. intros [E|[]]. discriminate.
  - unfold onStableFrameTimeout.
    destruct (findHandler fb p) as [[? ?|? ? ? [?|]]|]; simpl;
      try (intros [E|[]]; discriminate); intros [].
Qed.

(** What one event does to the world outside the buffer: it applies a
    batch of effects in which every cleared timer has its promise
    settled. *)
Lemma handle_batch (w w' : World) (ev : Event) :
  handle w ev = Some w' ->
  exists w0 effs,
    w' = applyEffects w0 effs
    /\ timers w0 = timers w /\ promises w0 = promises w
    /\ clock w0 = clock w /\ paired effs.
Proof.
  destruct ev as [frame|a|q out|timeout|d timeout| |]; simpl.
  - destruct (addFrame (buffer w) frame (clock w)) as [[fb' effs]|] eqn:E;
      [|discriminate].
    intros H. injection H as <-.
    exists (set_buffer w fb'), effs. split; [reflexivity|].
    repeat split; try reflexivity. exact (addFrame_paired _ _ _ _ _ E).
  - destruct (registerAction_begin _ _ _) as [e|call]; intros H;
      injection H as <-.
    + exists (snd (allocate w)), [Settle (nextPromise w) (Rejected e)].
      split; [reflexivity|]. repeat split; try reflexivity.
      apply paired_no_clear. intros q [E|[]]. discriminate.
    + eexists. exists []. split; [reflexivity|].
      repeat split; try reflexivity. apply paired_nil.
  - destruct (calls w !! q) as [call|]; intros H; injection H as <-.
    + eexists. eexists. split; [reflexivity|].
      repeat split; try reflexivity.
      apply paired_no_clear. intros x. unfold registerAction_resume.
      destruct out as [res|e]; [|intros [E|[]]; discriminate].
      destruct (negb (success res)); [intros [E|[]]; discriminate|].
      destruct (isNonVisual (call_action call)); intros [E|[]]; discriminate.
    + exists w, []. split; [reflexivity|].
      repeat split; try reflexivity. apply paired_nil.
  - intros H. injection H as <-. eexists. eexists.
    split; [reflexivity|]. repeat split; try reflexivity.
    apply paired_no_clear. intros x [E|[]]. discriminate.
  - intros H. injection H as <-. eexists. eexists.
    split; [reflexivity|]. repeat split; try reflexivity.
    apply paired_no_clear. intros x [E|[]]. discriminate.
  - intros H. injection H as <-. eexists. exists [].
    split; [reflexivity|]. repeat split; try reflexivity. apply paired_nil.
  - intros H. injection H as <-. exists w, [].
    split; [reflexivity|]. repeat split; try reflexivity. apply paired_nil.
Qed.

(** A timer that is not cleared stays in the queue. *)
Lemma applyEffects_timer_kept (p : nat) es :
  forall w tm,
  (forall q, In (ClearTimeout q) es -> ownedBy q tm = false) ->
  In tm (timers w) -> In tm (timers (applyEffects w es)).
Proof.
  unfold applyEffects. induction es as [|e r IH]; intros w tm Hn H; simpl;
    [exact H|].
  apply IH; [intros q Hq; apply Hn; now right|].
  destruct e as [q o|cb delay|q]; simpl.
  - exact H.
  - apply schedule_In. now right.
  - apply filter_In. split; [exact H|].
    rewrite (Hn q (or_introl eq_refl)). reflexivity.
Qed.

(** After a batch of paired effects, the timer of a wait is still queued
    or the promise of the wait is settled. *)
Lemma applyEffects_timer_or_settled (p : nat) es (w : World) (tm : Timer) :
  paired es ->
  timer_owner (callback tm) = Some p ->
  In tm (timers w) ->
  In tm (timers (applyEffects w es))
  \/ is_Some (promises (applyEffects w es) !! p).
Proof.
  intros Hp Ho Hin.
  destruct (existsb (clears p) es) eqn:E.
  - right. apply existsb_exists in E as (e & He & Hc).
    destruct e as [| |q]; try discriminate. simpl in Hc.
    apply Nat.eqb_eq in Hc as ->.
    destruct (Hp p He) as [o Ho']. exact (applyEffects_settles p o _ _ Ho').
  - left. apply (applyEffects_timer_kept p); [|exact Hin].
    intros q Hq. unfold ownedBy. rewrite Ho.
    destruct (Nat.eqb_spec p q) as [<-|Hne]; [|reflexivity].
    assert (Hex : existsb (clears p) es = true).
    { apply existsb_exists. exists (ClearTimeout p).
      split; [exact Hq|]. simpl. apply Nat.eqb_refl. }
    congruence.
Qed.

Lemma fire_timer_kept (w : World) (tm x : Timer) :
  In x (timers w) -> In x (timers (fire w tm)).
Proof.
  intros H. unfold fire, perform.
  apply (applyEffects_timer_kept O); [|exact H].
  intros q Hq. exfalso. revert Hq. apply callback_no_clear.
Qed.

Lemma fire_clock_le (w : World) (tm : Timer) :
  clock (fire w tm) = Z.max (clock w) (due tm).
Proof. unfold fire, perform. rewrite applyEffects_clock. reflexivity. Qed.

End WaitEffects.

(* ===================================================================== *)
(** * Frame waits: every wait is settled by its timeout at the latest *)
(* ===================================================================== *)

Section WaitLiveness.
Import FrameBuffer EventLoop.

Variable p : nat.
Variable cb : TimerCallback.
Variable Inv : World -> Prop.

Hypothesis Hown : timer_owner cb = Some p.
Hypothesis Inv_ext :
  forall w w', buffer w' = buffer w -> nextPromise w' = nextPromise w ->
  Inv w -> Inv w'.
Hypothesis Hfire :
  forall w tm, Inv w -> callback tm = cb -> is_Some (promises (fire w tm) !! p).
Hypothesis Hfire_keep :
  forall w tm, Inv w -> Inv (fire w tm) \/ is_Some (promises (fire w tm) !! p).
Hypothesis Hhandle_keep :
  forall w ev w', Inv w -> handle w ev = Some w' ->
  Inv w' \/ is_Some (promises w' !! p).

Lemma fold_fire_inv :
  forall l w,
  Inv w \/ is_Some (promises w !! p) ->
  Inv (fold_left fire l w) \/ is_Some (promises (fold_left fire l w) !! p).
Proof.
  induction l as [|tm r IH]; intros w H; simpl; [exact H|].
  apply IH. destruct H as [H|H]; [exact (Hfire_keep w tm H)|].
  right. apply fire_keeps_settled, H.
Qed.

Lemma fold_fire_fires :
  forall l w,
  Inv w \/ is_Some (promises w !! p) ->
  (exists tm, In tm l /\ callback tm = cb) ->
  is_Some (promises (fold_left fire l w) !! p).
Proof.
  induction l as [|tm r IH]; intros w H (x & Hx & Hcb); simpl; [destruct Hx|].
  destruct Hx as [->|Hx].
  - apply fold_fire_keeps_settled.
    destruct H as [H|H]; [exact (Hfire w x H Hcb)|apply fire_keeps_settled, H].
  - apply IH; [|eauto].
    destruct H as [H|H]; [exact (Hfire_keep w tm H)|].
    right. apply fire_keeps_settled, H.
Qed.

Lemma fold_fire_timer_kept (x : Timer) :
  forall l w, In x (timers w) -> In x (timers (fold_left fire l w)).
Proof.
  induction l as [|tm r IH]; intros w H; simpl; [exact H|].
  apply IH, fire_timer_kept, H.
Qed.

Lemma advance_armed (D : Z) (w : World) (t : Z) :
  armed Inv cb p D w -> armed Inv cb p D (advance t w).
Proof.
  unfold advance. set (t' := Z.max (clock w) t).
  set (l := List.filter _ _). set (w0 := set_timers w _).
  intros [Hs|(Hi & tm & Htm & Hcb & Hdue & Hahead)].
  - left. simpl. apply fold_fire_keeps_settled. exact Hs.
  - assert (Hi0 : Inv w0) by (apply (Inv_ext w); auto).
    destruct (Z.leb_spec (due tm) t') as [Hle|Hgt].
    + left. simpl. apply fold_fire_fires; [now left|].
      exists tm. split; [|exact Hcb].
      apply filter_In. split; [exact Htm|]. apply Z.leb_le. exact Hle.
    + destruct (fold_fire_inv l w0 (or_introl Hi0)) as [H|H]; [|now left].
      right. split.
      * apply (Inv_ext (fold_left fire l w0)); auto.
      * exists tm. simpl. split; [|auto].
        apply fold_fire_timer_kept. simpl.
        apply filter_In. split; [exact Htm|]. apply Z.ltb_lt. exact Hgt.
Qed.

Lemma handle_armed (D : Z) (w w' : World) (ev : Event) :
  armed Inv cb p D w -> handle w ev = Some w' -> armed Inv cb p D w'.
Proof.
  intros Ha E.
  destruct (handle_batch w w' ev E) as (w0 & effs & -> & Ht & Hp & Hc & Hpair).
  destruct Ha as [Hs|(Hi & tm & Htm & Hcb & Hdue & Hahead)].
  - left. apply applyEffects_keeps. rewrite Hp. exact Hs.
  - destruct (Hhandle_keep w ev _ Hi E) as [Hi'|Hs]; [|now left].
    destruct (applyEffects_timer_or_settled p effs w0 tm Hpair)
      as [Hin|Hs]; [rewrite Hcb; exact Hown|rewrite Ht; exact Htm| |now left].
    right. split; [exact Hi'|]. exists tm.
    rewrite applyEffects_clock, Hc. auto.
Qed.

Lemma run_armed (D : Z) :
  forall trace w,
  0 <= maxSize (config (buffer w)) ->
  armed Inv cb p D w ->
  exists w', run w trace = Some w' /\ armed Inv cb p D w'.
Proof.
  induction trace as [|te r IH]; intros w Hm Ha; simpl.
  - exists w. auto.
  - destruct (step_total w te Hm) as (w1 & E & Hc). rewrite E.
    unfold step in E. apply IH; [rewrite Hc; exact Hm|].
    eapply handle_armed; [exact (advance_armed D w (fst te) Ha)|exact E].
Qed.

Lemma armed_late (D : Z) (w : World) :
  armed Inv cb p D w -> D <= clock w -> is_Some (promises w !! p).
Proof.
  intros [Hs|(_ & tm & _ & _ & Hdue & Hahead)] Hlate; [exact Hs|lia].
Qed.

End WaitLiveness.

Section NextFrameWait.
Import FrameBuffer EventLoop.

(** [addFrame] as the composition of its three steps. *)
Lemma addFrame_steps (fb : FrameBuffer.t) (frame : ScreencastFrame) (now : Z) :
  0 <= maxSize (config fb) ->
  addFrame fb frame now
  = Some (fst (checkPendingActions
                 (set_listeners
                    (set_frames fb
                       (lastN (Z.to_nat (maxSize (config fb)))
                          (frames fb ++ [frame])))
                    (fst (emitFrameAdded (config fb) (listeners fb) frame now)))
                 frame now),
          snd (emitFrameAdded (config fb) (listeners fb) frame now)
          ++ snd (checkPendingActions
                    (set_listeners
                       (set_frames fb
                          (lastN (Z.to_nat (maxSize (config fb)))
                             (frames fb ++ [frame])))
                       (fst (emitFrameAdded (config fb) (listeners fb)
                               frame now)))
                    frame now)).
Proof.
  intros Hm. unfold addFrame. rewrite (trim_terminates _ Hm) by lia.
  cbn [config listeners set_frames].
  destruct (emitFrameAdded (config fb) (listeners fb) frame now) as [ls e1].
  cbn [fst snd].
  destruct (checkPendingActions _ frame now) as [fb3 e2]. reflexivity.
Qed.

Lemma checkPendingActions_quiet (fb : FrameBuffer.t) (frame : ScreencastFrame)
  (now : Z) :
  quiet (fun i => exists q, In q (pendingActions fb) /\ pa_id q = i)
    (snd (checkPendingActions fb frame now)).
Proof. unfold checkPendingActions. apply resolveAll_quiet. Qed.

(** X8: [waitForNextFrame] is resolved by the next frame added whose id
    is greater than the id of the latest frame at the time of the call (0
    for an empty buffer), with that frame; a frame whose id is not
    greater leaves the wait pending. *)
Theorem waitForNextFrame_resolved_by_next (w : World) (timeout : Z)
  (frame : ScreencastFrame) :
  0 <= maxSize (config (buffer w)) ->
  promises w !! nextPromise w = None ->
  let p := nextPromise w in
  let seen := match getLatestFrame (buffer w) with
              | Some f => frameId f
              | None => 0
              end in
  exists w1,
    handle w (WaitForNextFrame timeout) = Some w1
    /\ promises w1 !! p = None
    /\ (seen < frameId frame ->
        exists w2,
          handle w1 (AddFrame frame) = Some w2
          /\ promises w2 !! p = Some (Resolved (FrameValue frame)))
    /\ (frameId frame <= seen -> ~ known (buffer w) p ->
        exists w2,
          handle w1 (AddFrame frame) = Some w2
          /\ promises w2 !! p = None).
Proof.
  intros Hm Hfree p seen.
  eexists. split; [reflexivity|].
  set (w1 := perform _ _).
  assert (Hp1 : promises w1 !! p = None) by exact Hfree.
  assert (Hm1 : 0 <= maxSize (config (buffer w1))) by exact Hm.
  split; [exact Hp1|].
  pose proof (addFrame_steps (buffer w1) frame (clock w1) Hm1) as Hrun.
  change (listeners (buffer w1))
    with (listeners (buffer w) ++ [NextFrameHandler p seen]) in Hrun.
  rewrite emitFrameAdded_app in Hrun. cbn [fst snd] in Hrun.
  set (fb2 := set_listeners _ _) in Hrun.
  split.
  - intros Hnew. eexists.
    split; [cbn [handle]; rewrite Hrun; reflexivity|].
    unfold perform. cbn [fst snd].
    assert (Hmine : snd (emitFrameAdded (config (buffer w1))
                           [NextFrameHandler p seen] frame (clock w1))
                    = [ClearTimeout p; Settle p (Resolved (FrameValue frame))]).
    { simpl. destruct (Z.ltb_spec seen (frameId frame)); [reflexivity|lia]. }
    rewrite Hmine, applyEffects_app.
    apply applyEffects_keeps_value.
    apply applyEffects_first_settle; [exact Hp1| |].
    + intros o' Hin. apply in_app_iff in Hin as [Hin|[E|[E|[]]]].
      * pose proof (emitFrameAdded_effects _ frame _ _ _ Hin)
          as [[q E]|[q E]]; [discriminate|]. injection E as _ <-. reflexivity.
      * discriminate.
      * injection E as <-. reflexivity.
    + apply in_app_iff. right. right. now left.
  - intros Hold Hunknown. eexists.
    split; [cbn [handle]; rewrite Hrun; reflexivity|].
    unfold perform. cbn [fst snd].
    rewrite applyEffects_untouched; [exact Hp1|].
    intros o Hin. apply in_app_iff in Hin as [Hin|Hin].
    + apply in_app_iff in Hin as [Hin|Hin].
      * destruct (emitFrameAdded_spec (config (buffer w1)) frame (clock w1)
                    (listeners (buffer w))) as [_ Hq].
        apply Hunknown. left. exact (Hq _ Hin).
      * simpl in Hin.
        destruct (Z.ltb_spec seen (frameId frame)); [lia|destruct Hin].
    + apply Hunknown. right.
      exact (checkPendingActions_quiet fb2 frame (clock w1) _ Hin).
Qed.

(** A wait on a fresh buffer, then frame 1. *)
Lemma waitForNextFrame_resolved_by_next_witness :
  let w := boot DEFAULT_CONFIG in
  let frame := Samples.mkFrame 1 true 100 in
  0 <= maxSize (config (buffer w))
  /\ promises w !! nextPromise w = None
  /\ exists w1 w2,
       handle w (WaitForNextFrame 5000) = Some w1
       /\ handle w1 (AddFrame frame) = Some w2
       /\ promises w2 !! 0%nat = Some (Resolved (FrameValue frame)).
Proof.
  intros w frame.
  assert (Hm : 0 <= maxSize (config (buffer w))) by (simpl; lia).
  destruct (waitForNextFrame_resolved_by_next w 5000 frame Hm eq_refl)
    as (w1 & Hwait & _ & Hnew & _).
  destruct Hnew as (w2 & Hadd & Hp); [simpl; lia|].
  split; [exact Hm|]. split; [reflexivity|].
  exists w1, w2. auto.
Defined.

(** X9: [waitForNextFrame] never hangs: whatever happens after the call -
    frames, actions, other waits, [clear()] - its promise is settled at
    the latest [max(1, timeout)] milliseconds after the call. *)
Theorem waitForNextFrame_always_settles (w : World) (timeout : Z)
  (trace : list (Z * Event)) :
  0 <= maxSize (config (buffer w)) ->
  exists w1 w2,
    handle w (WaitForNextFrame timeout) = Some w1
    /\ run w1 trace = Some w2
    /\ (clock w + Z.max 1 timeout <= clock w2 ->
        is_Some (promises w2 !! nextPromise w)).
Proof.
  intros Hm. set (p := nextPromise w).
  set (D := clock w + Z.max 1 timeout).
  eexists. 
  assert (Harmed : armed (fun _ => True) (NextFrameTimeout p) p D
            (perform (snd (allocate w))
               (waitForNextFrame (buffer (snd (allocate w))) p timeout))).
  { right. split; [exact I|].
    exists {| due := clock w + timerDelay timeout;
              callback := NextFrameTimeout p |}.
    split; [|split; [reflexivity|]].
    - unfold perform. simpl. apply schedule_In. now left.
    - simpl. pose proof (timerDelay_le timeout).
      pose proof (timerDelay_pos timeout). unfold D. lia. }
  destruct (run_armed p (NextFrameTimeout p) (fun _ => True) eq_refl
              (fun _ _ _ _ H => H)) with (D := D) (trace := trace)
    (w := perform (snd (allocate w))
            (waitForNextFrame (buffer (snd (allocate w))) p timeout))
    as (w2 & Hrun & Ha2).
  - intros w0 tm _ Hcb. unfold fire, perform. rewrite Hcb.
    eapply applyEffects_settles. now left.
  - intros w0 tm _. now left.
  - intros w0 ev w' _ _. now left.
  - exact Hm.
  - exact Harmed.
  - exists w2. split; [reflexivity|]. split; [exact Hrun|].
    intros Hlate. exact (armed_late p (NextFrameTimeout p) _ D w2 Ha2 Hlate).
Qed.

(** A wait of 5 seconds on a fresh buffer that is cleared and never
    receives a frame. *)
Lemma waitForNextFrame_always_settles_witness :
  let w := boot DEFAULT_CONFIG in
  0 <= maxSize (config (buffer w))
  /\ exists w1 w2,
       handle w (WaitForNextFrame 5000) = Some w1
       /\ run w1 [(100, Clear); (5000, Idle)] = Some w2
       /\ promises w2 !! 0%nat = Some (Rejected NextFrameTimeoutError).
Proof.
  intros w.
  assert (Hm : 0 <= maxSize (config (buffer w))) by (simpl; lia).
  destruct (waitForNextFrame_always_settles w 5000
              [(100, Clear); (5000, Idle)] Hm) as (w1 & w2 & Hwait & Hrun & _).
  split; [exact Hm|]. exists w1, w2. split; [exact Hwait|].
  split; [exact Hrun|].
  vm_compute in Hwait. injection Hwait as <-.
  vm_compute in Hrun. injection Hrun as <-. reflexivity.
Defined.

End NextFrameWait.

Section StableFrameWait.
Import FrameBuffer EventLoop.

Lemma runHandler_kind cfg h frame now :
  (forall k, fst (runHandler cfg h frame now) = Some k ->
             handler_id k = handler_id h /\ isStable k = isStable h)
  /\ (fst (runHandler cfg h frame now) = None ->
      exists o, In (Settle (handler_id h) o) (snd (runHandler cfg h frame now))).
Proof.
  unfold runHandler. destruct h as [p c|p d lct lf].
  - destruct (c <? frameId frame); simpl; split; try discriminate.
    + intros _. eexists. right. now left.
    + intros k E. injection E as <-. auto.
  - destruct (hasChange frame && _); simpl.
    { split; [intros k E; injection E as <-; auto|discriminate]. }
    destruct (d <=? now - lct); simpl; split; try discriminate.
    + intros _. eexists. right. now left.
    + intros k E. injection E as <-. auto.
Qed.

Lemma emitFrameAdded_kinds cfg frame now :
  forall hs,
  (forall k, In k (fst (emitFrameAdded cfg hs frame now)) ->
     exists h, In h hs /\ handler_id h = handler_id k
               /\ isStable h = isStable k)
  /\ (forall h, In h hs ->
      (exists k, In k (fst (emitFrameAdded cfg hs frame now))
                 /\ handler_id k = handler_id h)
      \/ exists o, In (Settle (handler_id h) o)
                     (snd (emitFrameAdded cfg hs frame now))).
Proof.
  induction hs as [|h r [IH1 IH2]]; simpl.
  - split; [intros k []|intros h []].
  - destruct (runHandler_kind cfg h frame now) as [Hk Hn].
    destruct (runHandler cfg h frame now) as [h' e1].
    destruct (emitFrameAdded cfg r frame now) as [r' e2]. simpl in *.
    split.
    + intros k Hin.
      assert (Hr : In k r' -> exists h0, (h = h0 \/ In h0 r)
                     /\ handler_id h0 = handler_id k
                     /\ isStable h0 = isStable k).
      { intros H. destruct (IH1 k H) as (h0 & H0 & E). eauto. }
      destruct h' as [k'|]; [|auto].
      destruct Hin as [<-|Hin]; [|auto].
      destruct (Hk k' eq_refl) as [E1 E2]. exists h. auto.
    + intros h0 [<-|Hin].
      * destruct h' as [k'|].
        -- left. exists k'. split; [now left|]. apply Hk. reflexivity.
        -- right. destruct (Hn eq_refl) as [o Ho]. exists o.
           apply in_app_iff. now left.
      * destruct (IH2 h0 Hin) as [(k & Hk' & E)|[o Ho]].
        -- left. exists k. split; [|exact E].
           destruct h'; [now right|exact Hk'].
        -- right. exists o. apply in_app_iff. now right.
Qed.

Lemma emitFrameAdded_stableListed cfg frame now (p : nat) (hs : list Handler) :
  stableListed p hs ->
  stableListed p (fst (emitFrameAdded cfg hs frame now))
  \/ exists o, In (Settle p o) (snd (emitFrameAdded cfg hs frame now)).
Proof.
  intros [(h & Hh & Eh) Hall].
  destruct (emitFrameAdded_kinds cfg frame now hs) as [H1 H2].
  destruct (H2 h Hh) as [(k & Hk & E)|[o Ho]].
  - left. split; [exists k; split; [exact Hk|congruence]|].
    intros k' Hk' E'. destruct (H1 k' Hk') as (h0 & H0 & Eid & Ekind).
    rewrite <- Ekind. apply Hall; [exact H0|congruence].
  - right. exists o. rewrite <- Eh. exact Ho.
Qed.

Lemma findHandler_stable (p : nat) (fb : FrameBuffer.t) :
  stableListed p (listeners fb) ->
  exists q d l lf, findHandler fb p = Some (StableFrameHandler q d l lf).
Proof.
  intros [(h & Hh & Eh) Hall]. unfold findHandler.
  destruct (List.find _ (listeners fb)) as [k|] eqn:F.
  - apply find_some in F as [Hk Ek]. apply Nat.eqb_eq in Ek.
    specialize (Hall k Hk Ek). destruct k; [discriminate|eauto].
  - exfalso. pose proof (List.find_none _ _ F h Hh) as H. simpl in H.
    apply Nat.eqb_neq in H. contradiction.
Qed.

Lemma off_stableListed (p q : nat) (fb : FrameBuffer.t) :
  q <> p -> stableListed p (listeners fb) ->
  stableListed p (listeners (off fb q)).
Proof.
  intros Hne [(h & Hh & Eh) Hall]. unfold off. simpl. split.
  - exists h. split; [|exact Eh]. apply filter_In. split; [exact Hh|].
    apply negb_true_iff, Nat.eqb_neq. congruence.
  - intros k Hk. apply filter_In in Hk as [Hk _]. auto.
Qed.

Lemma snoc_stableListed (p : nat) (hs : list Handler) (h : Handler) :
  handler_id h <> p -> stableListed p hs -> stableListed p (hs ++ [h]).
Proof.
  intros Hne [(k & Hk & Ek) Hall]. split.
  - exists k. split; [apply in_app_iff; now left|exact Ek].
  - intros x Hx Ex. apply in_app_iff in Hx as [Hx|[<-|[]]]; [auto|].
    contradiction.
Qed.

(** X10: [waitForStableFrame] never hangs: whatever happens after the
    call - frames that keep changing, actions, other waits, [clear()] -
    its promise is settled at the latest [max(1, timeout)] milliseconds
    after the call. *)
Theorem waitForStableFrame_always_settles (w : World)
  (durationMs timeout : Z) (trace : list (Z * Event)) :
  0 <= maxSize (config (buffer w)) ->
  (forall h, In h (listeners (buffer w)) -> handler_id h <> nextPromise w) ->
  exists w1 w2,
    handle w (WaitForStableFrame durationMs timeout) = Some w1
    /\ run w1 trace = Some w2
    /\ (clock w + Z.max 1 timeout <= clock w2 ->
        is_Some (promises w2 !! nextPromise w)).
Proof.
  intros Hm Hnew. set (p := nextPromise w).
  set (D := clock w + Z.max 1 timeout).
  set (Inv := fun w0 : World =>
                stableListed p (listeners (buffer w0))
                /\ (p < nextPromise w0)%nat).
  set (w1 := perform (snd (allocate w))
               (waitForStableFrame (buffer (snd (allocate w))) p durationMs
                  timeout (clock (snd (allocate w))))).
  assert (Harmed : armed Inv (StableFrameTimeout p) p D w1).
  { right. split; [split|].
    - unfold w1, perform. rewrite applyEffects_buffer. simpl. split.
      + eexists. split; [apply in_app_iff; right; now left|reflexivity].
      + intros h Hh Eh. apply in_app_iff in Hh as [Hh|[<-|[]]]; [|reflexivity].
        destruct (Hnew h Hh Eh).
    - unfold w1, perform. rewrite applyEffects_nextPromise. simpl. lia.
    - exists {| due := clock w + timerDelay timeout;
                callback := StableFrameTimeout p |}.
      split; [|split; [reflexivity|]].
      + unfold w1, perform. simpl. apply schedule_In. now left.
      + simpl. pose proof (timerDelay_le timeout).
        pose proof (timerDelay_pos timeout). unfold D. lia. }
  assert (Hfire : forall w0 tm, Inv w0 -> callback tm = StableFrameTimeout p ->
            is_Some (promises (fire w0 tm) !! p)).
  { intros w0 tm [Hl _] Hcb. unfold fire, perform. rewrite Hcb.
    unfold onStableFrameTimeout.
    destruct (findHandler_stable p (buffer (set_clock w0 (Z.max (clock w0) (due tm)))) Hl)
      as (q & d & l & lf & ->).
    destruct lf; eapply applyEffects_settles; now left. }
  destruct (run_armed p (StableFrameTimeout p) Inv eq_refl) with
    (D := D) (trace := trace) (w := w1) as (w2 & Hrun & Ha2).
  - intros w0 w' Hb Hn [Hl Hlt]. unfold Inv. rewrite Hb, Hn. auto.
  - exact Hfire.
  - intros w0 tm Hi. destruct Hi as [Hl Hlt].
    destruct (callback tm) as [pd res before|q|q] eqn:Hcb.
    + left. unfold Inv, fire, perform.
      rewrite applyEffects_buffer, applyEffects_nextPromise, Hcb. simpl.
      split; [|exact Hlt].
      unfold onActionDeadline. destruct (indexOf _ _); exact Hl.
    + destruct (decide (q = p)) as [->|Hne].
      * right. unfold fire, perform. rewrite Hcb.
        eapply applyEffects_settles. now left.
      * left. unfold Inv, fire, perform.
        rewrite applyEffects_buffer, applyEffects_nextPromise, Hcb. simpl.
        split; [|exact Hlt]. apply (off_stableListed p q); assumption.
    + destruct (decide (q = p)) as [->|Hne].
      * right. apply Hfire; [split; assumption|exact Hcb].
      * left. unfold Inv, fire, perform.
        rewrite applyEffects_buffer, applyEffects_nextPromise, Hcb. simpl.
        split; [|exact Hlt]. unfold onStableFrameTimeout.
        destruct (findHandler _ q) as [[? ?|? ? ? [?|]]|]; simpl;
          try exact Hl; apply (off_stableListed p q); assumption.
  - intros w0 ev w' [Hl Hlt].
    destruct ev as [frame|a|q out|tmo|d tmo| |]; simpl.
    + destruct (addFrame (buffer w0) frame (clock w0)) as [[fb' effs]|] eqn:E;
        [|discriminate].
      intros H. injection H as <-.
      unfold addFrame in E.
      destruct (trim _ _ _) as [fs|]; [|discriminate].
      pose proof (emitFrameAdded_stableListed
                    (config (set_frames (buffer w0) fs)) frame (clock w0) p
                    (listeners (set_frames (buffer w0) fs)) Hl) as Hemit.
      destruct (emitFrameAdded _ _ frame (clock w0)) as [ls e1].
      unfold checkPendingActions in E.
      set (fb2 := set_listeners _ ls) in E.
      set (toResolve := List.filter _ _) in E.
      pose proof (resolveAll_listeners frame (clock w0) toResolve fb2) as Hls.
      destruct (resolveAll fb2 frame (clock w0) toResolve) as [fb3 e2].
      injection E as <- <-. simpl in *.
      destruct Hemit as [Hst|[o Ho]].
      * left. unfold Inv, perform.
        rewrite applyEffects_buffer, applyEffects_nextPromise. simpl.
        rewrite Hls. auto.
      * right. unfold perform. eapply applyEffects_settles.
        apply in_app_iff. left. exact Ho.
    + destruct (registerAction_begin _ _ _); intros H; injection H as <-;
        left; split; simpl; auto; lia.
    + destruct (calls w0 !! q) as [call|]; intros H; injection H as <-;
        [|left; split; assumption].
      left. unfold Inv, perform.
      rewrite applyEffects_buffer, applyEffects_nextPromise. simpl.
      split; [|exact Hlt]. unfold registerAction_resume.
      destruct out as [res|e]; [|exact Hl].
      destruct (negb (success res)); [exact Hl|].
      destruct (isNonVisual (call_action call)); exact Hl.
    + intros H. injection H as <-. left. unfold Inv, perform.
      rewrite applyEffects_buffer, applyEffects_nextPromise. simpl.
      split; [|lia]. apply snoc_stableListed; [simpl; lia|exact Hl].
    + intros H. injection H as <-. left. unfold Inv, perform.
      rewrite applyEffects_buffer, applyEffects_nextPromise. simpl.
      split; [|lia]. apply snoc_stableListed; [simpl; lia|exact Hl].
    + intros H. injection H as <-. left. split; assumption.
    + intros H. injection H as <-. left. split; assumption.
  - exact Hm.
  - exact Harmed.
  - exists w1, w2. split; [reflexivity|]. split; [exact Hrun|].
    intros Hlate.
    exact (armed_late p (StableFrameTimeout p) Inv D w2 Ha2 Hlate).
Qed.

(** A wait for 500 ms of stability, of 5 seconds at most, while frames
    keep changing and the buffer is cleared. *)
Lemma waitForStableFrame_always_settles_witness :
  let w := boot DEFAULT_CONFIG in
  0 <= maxSize (config (buffer w))
  /\ (forall h, In h (listeners (buffer w)) -> handler_id h <> nextPromise w)
  /\ exists w1 w2,
       handle w (WaitForStableFrame 500 5000) = Some w1
       /\ run w1 [(100, AddFrame (Samples.mkFrame 1 true 100));
                  (400, AddFrame (Samples.mkFrame 2 true 30));
                  (700, Clear);
                  (800, AddFrame (Samples.mkFrame 3 true 30));
                  (5000, Idle)] = Some w2
       /\ promises w2 !! 0%nat
          = Some (Resolved (FrameValue (Samples.mkFrame 3 true 30))).
Proof.
  intros w.
  assert (Hm : 0 <= maxSize (config (buffer w))) by (simpl; lia).
  assert (Hnew : forall h, In h (listeners (buffer w)) ->
                 handler_id h <> nextPromise w) by (intros h []).
  destruct (waitForStableFrame_always_settles w 500 5000
              [(100, AddFrame (Samples.mkFrame 1 true 100));
               (400, AddFrame (Samples.mkFrame 2 true 30));
               (700, Clear);
               (800, AddFrame (Samples.mkFrame 3 true 30));
               (5000, Idle)] Hm Hnew) as (w1 & w2 & Hwait & Hrun & _).
  split; [exact Hm|]. split; [exact Hnew|].
  exists w1, w2. split; [exact Hwait|]. split; [exact Hrun|].
  vm_compute in Hwait. injection Hwait as <-.
  vm_compute in Hrun. injection Hrun as <-. reflexivity.
Defined.

End StableFrameWait.

(* ===================================================================== *)
(** * FrameBuffer: waitForStableFrame, from the call to the settlement *)
(* ===================================================================== *)

Section StableWaitCall.
Import FrameBuffer EventLoop.

Lemma significant_test (cfg : FrameBufferConfig) (frame : ScreencastFrame) :
  hasChange frame
  && negb (Qle_bool (deltaPercent frame) (stabilityThreshold cfg)) = true
  <-> significant cfg frame.
Proof.
  unfold significant. rewrite andb_true_iff, negb_true_iff.
  split; intros [H1 H2]; (split; [exact H1|]).
  - apply Qnot_le_lt. intros L. apply Qle_bool_iff in L. congruence.
  - destruct (Qle_bool _ _) eqn:E; [|reflexivity].
    apply Qle_bool_iff in E. exfalso. exact (Qlt_not_le _ _ H2 E).
Qed.

Lemma findHandler_watching (p : nat) (h : Handler) (fb : FrameBuffer.t) :
  watching p h fb -> findHandler fb p = Some h.
Proof.
  intros (Hid & (l1 & l2 & Hl & Hother) & _). unfold findHandler.
  rewrite Hl. clear Hl.
  induction l1 as [|k r IH]; simpl.
  - rewrite Hid, Nat.eqb_refl. reflexivity.
  - destruct (Nat.eqb_spec (handler_id k) p) as [E|E].
    + exfalso. apply (Hother k); [now left|exact E].
    + apply IH. intros x Hx. apply Hother. now right.
Qed.

Lemma off_watching (p : nat) (h : Handler) (fb : FrameBuffer.t) :
  watching p h fb -> ~ known (off fb p) p.
Proof.
  intros (Hid & (l1 & l2 & Hl & Hother) & Hpend) [(k & Hk & Ek)|Hp].
  - unfold off in Hk. simpl in Hk. apply filter_In in Hk as [_ Hk].
    apply negb_true_iff, Nat.eqb_neq in Hk. contradiction.
  - apply Hpend. exact Hp.
Qed.

(** What a frame does to a registered wait. *)
Lemma addFrame_watching (fb : FrameBuffer.t) (p : nat)
  (durationMs lastChangeTime : Z) (lastFrame : option ScreencastFrame)
  (frame : ScreencastFrame) (t : Z) :
  watching p (StableFrameHandler p durationMs lastChangeTime lastFrame) fb ->
  0 <= maxSize (config fb) ->
  exists fb' effs,
    addFrame fb frame t = Some (fb', effs)
    /\ (significant (config fb) frame ->
        watching p (StableFrameHandler p durationMs t (Some frame)) fb'
        /\ forall o, ~ In (Settle p o) effs)
    /\ (~ significant (config fb) frame ->
        durationMs <= t - lastChangeTime ->
        In (Settle p (Resolved (FrameValue frame))) effs
        /\ (forall o, In (Settle p o) effs -> o = Resolved (FrameValue frame))
        /\ In (ClearTimeout p) effs
        /\ ~ known fb' p)
    /\ (~ significant (config fb) frame ->
        t - lastChangeTime < durationMs ->
        watching p
          (StableFrameHandler p durationMs lastChangeTime (Some frame)) fb'
        /\ forall o, ~ In (Settle p o) effs).
Proof.
  intros (_ & (l1 & l2 & Hl & Hother) & Hpend) Hm.
  set (h := StableFrameHandler p durationMs lastChangeTime lastFrame) in *.
  pose proof (addFrame_steps fb frame t Hm) as Hrun.
  rewrite Hl in Hrun.
  change (l1 ++ h :: l2) with (l1 ++ [h] ++ l2) in Hrun.
  rewrite !emitFrameAdded_app in Hrun. cbn [fst snd] in Hrun.
  set (cfg := config fb) in *.
  set (L1 := fst (emitFrameAdded cfg l1 frame t)) in *.
  set (L2 := fst (emitFrameAdded cfg l2 frame t)) in *.
  set (E1 := snd (emitFrameAdded cfg l1 frame t)) in *.
  set (E2 := snd (emitFrameAdded cfg l2 frame t)) in *.
  assert (HL : forall k, In k (L1 ++ L2) -> handler_id k <> p).
  { intros k Hk. apply in_app_iff in Hk as [Hk|Hk].
    - destruct (proj1 (emitFrameAdded_spec cfg frame t l1) k Hk)
        as (h0 & H0 & E0).
      rewrite <- E0. apply Hother. apply in_app_iff. now left.
    - destruct (proj1 (emitFrameAdded_spec cfg frame t l2) k Hk)
        as (h0 & H0 & E0).
      rewrite <- E0. apply Hother. apply in_app_iff. now right. }
  assert (HE1 : forall o, ~ In (Settle p o) E1).
  { intros o Hin.
    destruct (proj2 (emitFrameAdded_spec cfg frame t l1) _ Hin)
      as (h0 & H0 & E0).
    apply (Hother h0); [apply in_app_iff; now left|exact E0]. }
  assert (HE2 : forall o, ~ In (Settle p o) E2).
  { intros o Hin.
    destruct (proj2 (emitFrameAdded_spec cfg frame t l2) _ Hin)
      as (h0 & H0 & E0).
    apply (Hother h0); [apply in_app_iff; now right|exact E0]. }
  set (own := emitFrameAdded cfg [h] frame t) in *.
  set (fbc := set_listeners _ _) in Hrun.
  assert (HEC : forall o, ~ In (Settle p o)
                             (snd (checkPendingActions fbc frame t))).
  { intros o Hin. apply Hpend.
    exact (checkPendingActions_quiet fbc frame t _ Hin). }
  assert (Hls : listeners (fst (checkPendingActions fbc frame t))
                = L1 ++ fst own ++ L2).
  { unfold checkPendingActions. rewrite resolveAll_listeners. reflexivity. }
  assert (Hps : ~ pendingFor p (fst (checkPendingActions fbc frame t))).
  { intros (q & Hq & Eq). apply Hpend. exists q. split; [|exact Eq].
    unfold checkPendingActions in Hq. apply resolveAll_sub in Hq. exact Hq. }
  eexists _, _. split; [exact Hrun|].
  assert (Hkeep : forall h',
            own = ([h'], []) -> handler_id h' = p ->
            watching p h' (fst (checkPendingActions fbc frame t))
            /\ forall o, ~ In (Settle p o)
                 ((E1 ++ snd own ++ E2)
                  ++ snd (checkPendingActions fbc frame t))).
  { intros h' Hown Hid'. rewrite Hown in *. cbn [fst snd] in *. split.
    - split; [exact Hid'|]. split; [|exact Hps].
      exists L1, L2. split; [exact Hls|exact HL].
    - intros o Hin. apply in_app_iff in Hin as [Hin|Hin]; [|exact (HEC o Hin)].
      apply in_app_iff in Hin as [Hin|Hin]; [exact (HE1 o Hin)|].
      exact (HE2 o Hin). }
  pose proof (significant_test cfg frame) as Hsig.
  split; [|split].
  - intros Hs. apply Hsig in Hs. apply Hkeep; [|reflexivity].
    unfold own. simpl. rewrite Hs. reflexivity.
  - intros Hn Hold.
    assert (Hown : own = ([], [ClearTimeout p;
                                Settle p (Resolved (FrameValue frame))])).
    { unfold own. simpl.
      destruct (hasChange frame && _) eqn:E;
        [exfalso; apply Hn, Hsig; reflexivity|].
      destruct (Z.leb_spec durationMs (t - lastChangeTime)); [reflexivity|lia]. }
    rewrite Hown in *. cbn [fst snd] in *. split; [|split; [|split]].
    + apply in_app_iff. left. apply in_app_iff. right.
      right. now left.
    + intros o Hin. apply in_app_iff in Hin as [Hin|Hin];
        [|destruct (HEC o Hin)].
      apply in_app_iff in Hin as [Hin|Hin]; [destruct (HE1 o Hin)|].
      destruct Hin as [E|[E|Hin]]; [discriminate| |destruct (HE2 o Hin)].
      injection E as <-. reflexivity.
    + apply in_app_iff. left. apply in_app_iff. right. now left.
    + intros [(k & Hk & Ek)|Hp]; [|exact (Hps Hp)].
      rewrite Hls in Hk. exact (HL k Hk Ek).
  - intros Hn Hyoung. apply Hkeep; [|reflexivity].
    unfold own. simpl.
    destruct (hasChange frame && _) eqn:E;
      [exfalso; apply Hn, Hsig; reflexivity|].
    destruct (Z.leb_spec durationMs (t - lastChangeTime)); [lia|reflexivity].
Qed.

(** C8, as the code has it.  [waitForStableFrame] registers a wait whose
    last-significant-change time is the time of the call and whose last
    frame is the latest buffered frame, and sets its timeout.  While the
    wait is registered, a frame whose [hasChange] flag is set and whose
    [deltaPercent] exceeds [stabilityThreshold] restarts the
    last-significant-change time and does not settle the wait; any other
    frame resolves the wait with that frame if the last significant change
    is at least [durationMs] old, and otherwise leaves it waiting; each
    frame becomes the last frame seen.  On the overall timeout the wait is
    resolved with the last frame it has seen - the latest buffered frame
    at the call if none arrived since - and rejected when there is
    none. *)
Theorem waitForStableFrame_behaviour (fb : FrameBuffer.t) (p : nat)
  (durationMs timeout now : Z) :
  ~ known fb p ->
  let called := waitForStableFrame fb p durationMs timeout now in
  (snd called = [SetTimeout (StableFrameTimeout p) timeout]
   /\ frames (fst called) = frames fb
   /\ pendingActions (fst called) = pendingActions fb
   /\ config (fst called) = config fb
   /\ watching p (StableFrameHandler p durationMs now (getLatestFrame fb))
        (fst called))
  /\ (forall fb' lastChangeTime lastFrame frame t,
        watching p (StableFrameHandler p durationMs lastChangeTime lastFrame)
          fb' ->
        0 <= maxSize (config fb') ->
        exists fb'' effs,
          addFrame fb' frame t = Some (fb'', effs)
          /\ (significant (config fb') frame ->
              watching p (StableFrameHandler p durationMs t (Some frame)) fb''
              /\ forall o, ~ In (Settle p o) effs)
          /\ (~ significant (config fb') frame ->
              durationMs <= t - lastChangeTime ->
              In (Settle p (Resolved (FrameValue frame))) effs
              /\ (forall o, In (Settle p o) effs ->
                  o = Resolved (FrameValue frame))
              /\ In (ClearTimeout p) effs
              /\ ~ known fb'' p)
          /\ (~ significant (config fb') frame ->
              t - lastChangeTime < durationMs ->
              watching p
                (StableFrameHandler p durationMs lastChangeTime (Some frame))
                fb''
              /\ forall o, ~ In (Settle p o) effs))
  /\ (forall fb' lastChangeTime lastFrame,
        watching p (StableFrameHandler p durationMs lastChangeTime lastFrame)
          fb' ->
        onStableFrameTimeout fb' p
        = (off fb' p,
           [Settle p match lastFrame with
                     | Some f => Resolved (FrameValue f)
                     | None => Rejected StableFrameTimeoutError
                     end])
        /\ ~ known (off fb' p) p).
Proof.
  intros Hfresh called. split; [|split].
  - unfold called, waitForStableFrame. cbn [fst snd].
    repeat split.
    + exists (listeners fb), []. split; [reflexivity|].
      intros k Hk Ek. rewrite app_nil_r in Hk.
      apply Hfresh. left. exists k. auto.
    + intros Hp. apply Hfresh. right. exact Hp.
  - intros fb' lastChangeTime lastFrame frame t Hw Hm.
    exact (addFrame_watching fb' p durationMs lastChangeTime lastFrame
             frame t Hw Hm).
  - intros fb' lastChangeTime lastFrame Hw. split.
    + unfold onStableFrameTimeout.
      rewrite (findHandler_watching p _ fb' Hw).
      destruct lastFrame; reflexivity.
    + exact (off_watching p _ fb' Hw).
Qed.

(** A wait for 500 ms of stability called at 1000 ms on a buffer that
    holds frame 1: a busy frame at 1200 ms restarts the stable period, a
    calm frame 300 ms later leaves the wait pending, and a calm frame at
    1700 ms resolves it. *)
Lemma waitForStableFrame_behaviour_witness :
  let fb := set_frames (FrameBuffer.create DEFAULT_CONFIG)
              [Samples.mkFrame 1 true 100] in
  let busy := Samples.mkFrame 2 true 5 in
  let calm := Samples.mkFrame 3 false 0 in
  let calmer := Samples.mkFrame 4 false 0 in
  ~ known fb 0
  /\ exists fb1 fb2 fb3 fb4 e2 e3 e4,
       waitForStableFrame fb 0 500 5000 1000
       = (fb1, [SetTimeout (StableFrameTimeout 0) 5000])
       /\ watching 0
            (StableFrameHandler 0 500 1000 (Some (Samples.mkFrame 1 true 100)))
            fb1
       /\ snd (onStableFrameTimeout fb1 0)
          = [Settle 0%nat
               (Resolved (FrameValue (Samples.mkFrame 1 true 100)))]
       /\ addFrame fb1 busy 1200 = Some (fb2, e2)
       /\ watching 0 (StableFrameHandler 0 500 1200 (Some busy)) fb2
       /\ addFrame fb2 calm 1500 = Some (fb3, e3)
       /\ watching 0 (StableFrameHandler 0 500 1200 (Some calm)) fb3
       /\ addFrame fb3 calmer 1700 = Some (fb4, e4)
       /\ In (Settle 0%nat (Resolved (FrameValue calmer))) e4.
Proof.
  intros fb busy calm calmer.
  assert (Hfresh : ~ known fb 0).
  { intros [(h & [] & _)|(q & [] & _)]. }
  split; [exact Hfresh|].
  destruct (waitForStableFrame_behaviour fb 0 500 5000 1000 Hfresh)
    as ((Heffs & _ & _ & _ & Hw1) & Hframe & Htimeout).
  set (fb1 := fst (waitForStableFrame fb 0 500 5000 1000)) in *.
  assert (Hsig : significant (config fb1) busy) by (split; reflexivity).
  assert (Hcalm : forall fbx, ~ significant (config fbx) calm)
    by (intros fbx [H _]; discriminate).
  assert (Hcalmer : forall fbx, ~ significant (config fbx) calmer)
    by (intros fbx [H _]; discriminate).
  destruct (Hframe fb1 1000 _ busy 1200 Hw1) as (fb2 & e2 & Hrun2 & Hbusy & _);
    [simpl; lia|].
  destruct (Hbusy Hsig) as [Hw2 _].
  destruct (Hframe fb2 1200 _ calm 1500 Hw2) as (fb3 & e3 & Hrun3 & _ & _ & Hyoung).
  { vm_compute in Hrun2. injection Hrun2 as <- _. simpl. lia. }
  destruct (Hyoung (Hcalm fb2)) as [Hw3 _]; [lia|].
  destruct (Hframe fb3 1200 _ calmer 1700 Hw3) as (fb4 & e4 & Hrun4 & _ & Hold & _).
  { vm_compute in Hrun2. injection Hrun2 as <- _.
    vm_compute in Hrun3. injection Hrun3 as <- _. simpl. lia. }
  destruct (Hold (Hcalmer fb3)) as [Hres _]; [lia|].
  exists fb1, fb2, fb3, fb4, e2, e3, e4.
  split; [reflexivity|]. split; [exact Hw1|].
  split; [rewrite (proj1 (Htimeout fb1 1000 _ Hw1)); reflexivity|].
  repeat (split; [assumption|]). exact Hres.
Defined.

(** C8 as worded fails twice.  With the default thresholds (forwarding at
    2 percent, stability at 0.5 percent) a frame with a delta of 1 percent
    has [hasChange = false]: it exceeds [stabilityThreshold], yet it does
    not restart the stable period - the wait called at 1000 ms is resolved
    by the calm frame at 1550 ms, less than 500 ms after it - and, arriving
    at 1600 ms, such a frame even resolves the wait itself.  And a wait
    that times out before any frame exists is rejected. *)
Lemma waitForStableFrame_ignores_unflagged_delta :
  let unflagged := Samples.mkFrame 1 false 1 in
  let calm := Samples.mkFrame 2 false 0 in
  (stabilityThreshold DEFAULT_CONFIG < deltaPercent unflagged)%Q
  /\ (exists w,
        run (boot DEFAULT_CONFIG)
          [(1000, WaitForStableFrame 500 5000);
           (1200, AddFrame unflagged);
           (1550, AddFrame calm)] = Some w
        /\ promises w !! 0%nat = Some (Resolved (FrameValue calm)))
  /\ (exists w,
        run (boot DEFAULT_CONFIG)
          [(1000, WaitForStableFrame 500 5000);
           (1600, AddFrame unflagged)] = Some w
        /\ promises w !! 0%nat = Some (Resolved (FrameValue unflagged)))
  /\ (exists w,
        run (boot DEFAULT_CONFIG)
          [(1000, WaitForStableFrame 500 5000);
           (6000, Idle)] = Some w
        /\ promises w !! 0%nat = Some (Rejected StableFrameTimeoutError)).
Proof.
  intros unflagged calm. split; [reflexivity|].
  split; [|split]; eexists; (split; [vm_compute; reflexivity|]);
    vm_compute; reflexivity.
Qed.

End StableWaitCall.

(* ===================================================================== *)
(** * StreamProcessor: lifecycle, forwarding and statistics *)
(* ===================================================================== *)

Section Lifecycle.
Import StreamProcessor StreamControl.

Lemma command_timerInSync (s : StreamControl.t) (c : Command) :
  timerInSync s -> timerInSync (command s c).
Proof.
  destruct s as [sp tmr]. unfold timerInSync. simpl. intros [Hc Ht].
  destruct c as [e| |[d k]]; simpl.
  - unfold start. simpl. rewrite Hc. simpl.
    destruct (isStreaming sp) eqn:E.
    + simpl. rewrite E. auto.
    + destruct e; simpl; [rewrite E|]; auto.
  - unfold stop. simpl. rewrite Hc. simpl.
    destruct (isStreaming sp) eqn:E; simpl; [|rewrite E]; auto.
  - unfold updateConfig. simpl.
    destruct d, k; simpl; destruct (isStreaming sp) eqn:E; simpl;
      rewrite ?E; auto.
Qed.

(** Half of a whole number of milliseconds, as [setInterval] runs it. *)
Lemma intervalDelay_half (k : Z) :
  intervalDelay (inject_Z k / 2)%Q
  = if (2 <=? k) && (k <=? 4294967294) then k / 2 else 1.
Proof.
  unfold intervalDelay.
  assert (H1 : Qle_bool 1 (inject_Z k / 2) = (2 <=? k)).
  { unfold Qle_bool, Qdiv, Qmult, Qinv, inject_Z. simpl.
    rewrite !Z.mul_1_r. reflexivity. }
  assert (H2 : Qle_bool (inject_Z k / 2) 2147483647 = (k <=? 4294967294)).
  { unfold Qle_bool, Qdiv, Qmult, Qinv, inject_Z. simpl.
    rewrite !Z.mul_1_r. reflexivity. }
  rewrite H1, H2. destruct (_ && _); [|reflexivity].
  unfold Qfloor, Qdiv, Qmult, Qinv, inject_Z. simpl.
  rewrite Z.mul_1_r. reflexivity.
Qed.

(** X11: for [start()], [stop()] and [updateConfig()] calls made one
    after the other on an initialised processor, in any order and with
    any outcome of the CDP commands: the keep-alive interval exists
    exactly while the processor is streaming, and it was set with half of
    the [keepAliveMs] currently configured - so it runs every
    [keepAliveMs / 2] milliseconds, rounded down, when [keepAliveMs] is
    between 2 and 2^32-2, and every millisecond otherwise. *)
Theorem keepAlive_timer_follows_streaming (cfg : StreamConfig)
  (cs : list Command) :
  let s := fold_left command cs (launch cfg) in
  let k := keepAliveMs (config (processor s)) in
  keepAliveTimer s
  = if isStreaming (processor s)
    then Some (if (2 <=? k) && (k <=? 4294967294) then k / 2 else 1)
    else None.
Proof.
  intros s k.
  assert (H : timerInSync s).
  { unfold s.
    generalize (launch cfg)
               (conj eq_refl eq_refl : timerInSync (launch cfg)).
    clear s k. induction cs as [|c r IH]; intros s0 H0; simpl; [exact H0|].
    apply IH, command_timerInSync, H0. }
  destruct H as [_ H]. rewrite H. unfold k.
  rewrite intervalDelay_half. reflexivity.
Qed.

End Lifecycle.

Section Forwarding.
Import StreamProcessor StreamControl.
Context {IM : Imaging}.

(** What one input does to the counters, and the id of what it emits. *)
Lemma react_counters (sp : StreamProcessor.t) (i : Input) :
  cdpSession sp = true ->
  let sp' := fst (react sp i) in
  let out := snd (react sp i) in
  cdpSession sp' = true
  /\ config sp' = config sp
  /\ cur_frameId sp <= cur_frameId sp' <= cur_frameId sp + 1
  /\ (forall f, out = Some f ->
        frameId f = cur_frameId sp' /\ cur_frameId sp' = cur_frameId sp + 1)
  /\ frameCount sp' = frameCount sp + (if isScreencast i then 1 else 0)
  /\ (isScreencast i = true -> cur_frameId sp' = cur_frameId sp + 1)
  /\ droppedFrameCount sp <= droppedFrameCount sp'
  /\ droppedFrameCount sp'
     + (if isScreencast i
        then match out with Some _ => 1 | None => 0 end else 0)
     = droppedFrameCount sp + (if isScreencast i then 1 else 0).
Proof.
  intros Hc.
  destruct i as [event now ts|now shot ts tsent|shot ts]; simpl.
  - unfold handleScreencastFrame. rewrite Hc. simpl.
    destruct (_ || _); simpl;
      (split; [assumption|]); (split; [reflexivity|]); (split; [lia|]);
      (split; [intros f E; try discriminate; injection E as <-; simpl; lia|]);
      repeat split; lia.
  - unfold keepAliveTick.
    destruct (_ && _); simpl.
    2:{ split; [assumption|]; split; [reflexivity|]; split; [lia|].
        split; [discriminate|]. repeat split; try lia; discriminate. }
    unfold captureFrame. rewrite Hc. simpl.
    destruct shot as [d|]; simpl;
      (split; [assumption|]); (split; [reflexivity|]); (split; [lia|]);
      (split; [intros f E; try discriminate; injection E as <-; simpl; lia|]);
      repeat split; try lia; discriminate.
  - unfold captureFrame. rewrite Hc. simpl.
    destruct shot as [d|]; simpl;
      (split; [assumption|]); (split; [reflexivity|]); (split; [lia|]);
      (split; [discriminate|]); repeat split; try lia; discriminate.
Qed.

Lemma reactAll_counters (inputs : list Input) :
  forall sp, cdpSession sp = true ->
  let sp' := fst (reactAll sp inputs) in
  let out := snd (reactAll sp inputs) in
  cur_frameId sp <= cur_frameId sp'
  /\ ascending out
  /\ Forall (fun f => cur_frameId sp < frameId f <= cur_frameId sp') out
  /\ frameCount sp' = frameCount sp + arrivals inputs
  /\ cur_frameId sp + arrivals inputs <= cur_frameId sp'
  /\ droppedFrameCount sp <= droppedFrameCount sp'
  /\ droppedFrameCount sp' - droppedFrameCount sp <= arrivals inputs
  /\ arrivals inputs - (droppedFrameCount sp' - droppedFrameCount sp)
     <= Z.of_nat (length out).
Proof.
  induction inputs as [|i r IH]; intros sp Hc; simpl.
  - unfold arrivals. simpl.
    repeat split; try lia; constructor.
  - pose proof (react_counters sp i Hc) as H. simpl in H.
    destruct (react sp i) as [sp1 o]. simpl in H.
    destruct H as (Hc1 & _ & Hid & Ho & Hfc & Hsc & Hd1 & Hd2).
    specialize (IH sp1 Hc1). simpl in IH.
    destruct (reactAll sp1 r) as [sp2 outs]. simpl in *.
    destruct IH as (Hid2 & Hasc & Hall & Hfc2 & Harr & Hd3 & Hd4 & Hlen).
    assert (Ea : arrivals (i :: r)
                 = (if isScreencast i then 1 else 0) + arrivals r).
    { unfold arrivals. simpl. destruct (isScreencast i); simpl; lia. }
    rewrite Ea.
    assert (Hall' : Forall (fun f => cur_frameId sp < frameId f
                                     <= cur_frameId sp2) outs).
    { eapply Forall_impl; [exact Hall|]. simpl. intros f Hf. lia. }
    split; [lia|]. split; [|split; [|split; [lia|split; [|split; [lia|split]]]]].
    + destruct o as [f|]; [|exact Hasc].
      destruct (Ho f eq_refl) as [Ef E1].
      constructor; [exact Hasc|].
      eapply Forall_impl; [exact Hall|]. simpl. intros g Hg. lia.
    + destruct o as [f|]; [|exact Hall'].
      destruct (Ho f eq_refl) as [Ef E1].
      constructor; [lia|exact Hall'].
    + destruct (isScreencast i); [rewrite (Hsc eq_refl) in *|]; lia.
    + destruct (isScreencast i), o; simpl in *; lia.
    + destruct (isScreencast i), o; simpl in Hd2; simpl length; lia.
Qed.

(** X12: when every input - screencast event, keep-alive tick, forced
    capture - is handled to its end before the next one starts, the
    frames the processor emits carry strictly ascending ids, all of them
    above the id counter at the start and none above the counter at the
    end. *)
Theorem emitted_ids_ascending (sp : StreamProcessor.t) (inputs : list Input) :
  cdpSession sp = true ->
  let out := snd (reactAll sp inputs) in
  ascending out
  /\ Forall (fun f => cur_frameId sp < frameId f
                      <= cur_frameId (fst (reactAll sp inputs))) out.
Proof.
  intros Hc. pose proof (reactAll_counters inputs sp Hc) as H. simpl in H.
  split; apply H.
Qed.

(** X13: the statistics of a processor that handled its inputs one by
    one since its construction: [frameCount] is the number of screencast
    events received, [droppedFrameCount] lies between 0 and [frameCount],
    [currentFrameId] is at least [frameCount], and at least
    [frameCount - droppedFrameCount] frames were emitted. *)
Theorem getStats_accounts (cfg : StreamConfig) (inputs : list Input) :
  let r := reactAll (processor (launch cfg)) inputs in
  let st := getStats (fst r) in
  stat_frameCount st = arrivals inputs
  /\ 0 <= stat_droppedFrameCount st <= stat_frameCount st
  /\ stat_frameCount st <= stat_currentFrameId st
  /\ stat_frameCount st - stat_droppedFrameCount st
     <= Z.of_nat (length (snd r)).
Proof.
  pose proof (reactAll_counters inputs (processor (launch cfg)) eq_refl) as H.
  simpl in H. simpl. lia.
Qed.

End Forwarding.

Section ForwardingSamples.
Import StreamProcessor StreamControl.

(** A processor that has its first frame receives a changed frame, a
    forced capture, an unchanged frame (dropped) and a keep-alive tick. *)
Lemma emitted_ids_ascending_witness :
  let sp := Samples.afterFirstFrame in
  let inputs :=
    [Screencast (Samples.screencast Samples.imageB) 1100 1100;
     Capture (Some Samples.imageB) 1200;
     Screencast (Samples.screencast Samples.imageB) 1300 1300;
     KeepAlive 3200 (Some Samples.imageB) 3200 3200] in
  cdpSession sp = true
  /\ (ascending (snd (reactAll (IM := Samples.toyImaging) sp inputs))
      /\ Forall (fun f => cur_frameId sp < frameId f
                  <= cur_frameId
                       (fst (reactAll (IM := Samples.toyImaging) sp inputs)))
           (snd (reactAll (IM := Samples.toyImaging) sp inputs)))
  /\ map frameId (snd (reactAll (IM := Samples.toyImaging) sp inputs))
     = [2; 5].
Proof.
  intros sp inputs. split; [reflexivity|]. split.
  - exact (emitted_ids_ascending (IM := Samples.toyImaging) sp inputs eq_refl).
  - vm_compute. reflexivity.
Defined.

End ForwardingSamples.

(* ===================================================================== *)
(** * The arithmetic of doubles: bounds on rounded results *)
(* ===================================================================== *)

Section Rounding.
Import SpecFloat.

Lemma pow2_pos (e : Z) : (0 < 2 ^ e)%Q.
Proof. apply Qpower_0_lt. reflexivity. Qed.

Lemma pow2_plus (a b : Z) : (2 ^ (a + b) == 2 ^ a * 2 ^ b)%Q.
Proof. apply Qpower_plus. discriminate. Qed.

Lemma pow2_Z (n : Z) : 0 <= n -> (2 ^ n == inject_Z (2 ^ n))%Q.
Proof. intros H. symmetry. apply (Zpower_Qpower 2 n H). Qed.

Lemma scaled_shift (m e j : Z) :
  0 <= j -> (scaled (m * 2 ^ j) e == scaled m (e + j))%Q.
Proof.
  intros Hj. unfold scaled.
  rewrite inject_Z_mult, pow2_plus, (pow2_Z j Hj). ring.
Qed.

Lemma scaled_le (m n e : Z) :
  (scaled m e <= scaled n e)%Q <-> m <= n.
Proof.
  unfold scaled. pose proof (pow2_pos e) as Hp. split; intros H.
  - apply Qmult_le_r in H; [|exact Hp]. rewrite Zle_Qle. exact H.
  - apply Qmult_le_r; [exact Hp|]. rewrite <- Zle_Qle. exact H.
Qed.

Lemma scaled_lt (m n e : Z) :
  (scaled m e < scaled n e)%Q <-> m < n.
Proof.
  unfold scaled. pose proof (pow2_pos e) as Hp. split; intros H.
  - apply Qmult_lt_r in H; [|exact Hp]. rewrite Zlt_Qlt. exact H.
  - apply Qmult_lt_r; [exact Hp|]. rewrite <- Zlt_Qlt. exact H.
Qed.

Lemma shr_1_below (x : Q) (mrs : shr_record) (e : Z) :
  below x mrs e -> below x (shr_1 mrs) (e + 1).
Proof.
  destruct mrs as [m r s]. unfold below. simpl. intros (Hm & Hle & Hlt).
  assert (Hstep : forall p b : Z, 0 <= b -> m = 2 * p + b ->
            (scaled p (e + 1) <= scaled m e)%Q
            /\ (0 < b -> (scaled p (e + 1) < scaled m e)%Q)).
  { intros p b Hb ->. rewrite <- (scaled_shift p e 1) by lia.
    split; [apply scaled_le|intros H; apply scaled_lt];
      change (2 ^ 1) with 2; lia. }
  destruct m as [|[p|p|]|p]; simpl; try lia.
  - destruct (Hstep 0 0) as [H1 _]; [lia|lia|].
    repeat split; [lia| |].
    + eapply Qle_trans; [exact H1|exact Hle].
    + intros H. eapply Qle_lt_trans; [exact H1|]. apply Hlt. exact H.
  - destruct (Hstep (Z.pos p) 1) as [H1 H2]; [lia|lia|].
    repeat split; [lia| |].
    + eapply Qle_trans; [exact H1|exact Hle].
    + intros _. eapply Qlt_le_trans; [apply H2; lia|exact Hle].
  - destruct (Hstep (Z.pos p) 0) as [H1 _]; [lia|lia|].
    repeat split; [lia| |].
    + eapply Qle_trans; [exact H1|exact Hle].
    + intros H. eapply Qle_lt_trans; [exact H1|]. apply Hlt. exact H.
  - destruct (Hstep 0 1) as [H1 H2]; [lia|lia|].
    repeat split; [lia| |].
    + eapply Qle_trans; [exact H1|exact Hle].
    + intros _. eapply Qlt_le_trans; [apply H2; lia|exact Hle].
Qed.

Lemma iter_shr_1_below (x : Q) (n : positive) :
  forall mrs e, below x mrs e -> below x (iter_pos shr_1 n mrs) (e + Z.pos n).
Proof.
  induction n as [n IH|n IH|]; intros mrs e H; simpl.
  - replace (e + Z.pos n~1) with (e + 1 + Z.pos n + Z.pos n) by lia.
    apply IH, IH, shr_1_below, H.
  - replace (e + Z.pos n~0) with (e + Z.pos n + Z.pos n) by lia.
    apply IH, IH, H.
  - apply shr_1_below, H.
Qed.

Lemma shr_below (x : Q) (mrs : shr_record) (e n : Z) :
  below x mrs e ->
  below x (fst (shr mrs e n)) (snd (shr mrs e n))
  /\ snd (shr mrs e n) = Z.max e (e + n).
Proof.
  intros H. unfold shr. destruct n as [|p|p]; simpl.
  - split; [exact H|lia].
  - split; [apply iter_shr_1_below, H|lia].
  - split; [exact H|lia].
Qed.

Lemma shr_fexp_below (x : Q) (m e : Z) (l : location) :
  0 <= m -> (scaled m e <= x)%Q ->
  (l <> loc_Exact -> (scaled m e < x)%Q) ->
  below x (fst (shr_fexp Double.prec Double.emax m e l))
    (snd (shr_fexp Double.prec Double.emax m e l))
  /\ snd (shr_fexp Double.prec Double.emax m e l)
     = Z.max e (fexp Double.prec Double.emax (Zdigits2 m + e)).
Proof.
  intros Hm Hle Hlt. unfold shr_fexp.
  destruct (shr_below x (shr_record_of_loc m l) e
              (fexp Double.prec Double.emax (Zdigits2 m + e) - e)) as [H1 H2].
  - unfold below. destruct l as [|[| |]]; simpl;
      (split; [exact Hm|]); (split; [exact Hle|]);
      intros H; try discriminate H; apply Hlt; discriminate.
  - split; [exact H1|]. rewrite H2. lia.
Qed.

Lemma digits2_pos_size (p : positive) : digits2_pos p = Pos.size p.
Proof. induction p; simpl; congruence. Qed.

Lemma Zdigits2_bounds (m : Z) :
  0 < m -> 2 ^ (Zdigits2 m - 1) <= m < 2 ^ Zdigits2 m.
Proof.
  destruct m as [|p|p]; try lia. intros _.
  change (Zdigits2 (Z.pos p)) with (Z.pos (digits2_pos p)).
  rewrite digits2_pos_size.
  pose proof (Pos.size_gt p) as Hgt. pose proof (Pos.size_le p) as Hle.
  apply Pos2Z.pos_lt_pos in Hgt. apply Pos2Z.pos_le_pos in Hle.
  rewrite Pos2Z.inj_pow in Hgt, Hle.
  split; [|exact Hgt].
  change (Z.pos p~0) with (2 * Z.pos p) in Hle.
  set (d := Z.pos (Pos.size p)) in *.
  assert (E : 2 ^ d = 2 * 2 ^ (d - 1)).
  { rewrite <- Z.pow_succ_r by (unfold d; lia). f_equal. lia. }
  change (Z.pos 2 ^ d) with (2 ^ d) in Hle. lia.
Qed.

Lemma Zdigits2_nonneg (m : Z) : 0 <= m -> 0 <= Zdigits2 m.
Proof. destruct m; simpl; lia. Qed.

Lemma Zdigits2_le (a b j : Z) :
  0 <= a -> 0 <= j -> a <= b * 2 ^ j -> Zdigits2 a <= Zdigits2 b + j.
Proof.
  intros Ha Hj Hab.
  destruct (Z.eq_dec a 0) as [->|Hne].
  { simpl. assert (0 <= Zdigits2 b); [|lia].
    destruct b; simpl; lia. }
  assert (Hb : 0 < b).
  { destruct (Z.lt_ge_cases 0 b); [assumption|].
    assert (b * 2 ^ j <= 0); [|lia].
    apply Z.mul_nonpos_nonneg; [lia|]. apply Z.pow_nonneg. lia. }
  pose proof (Zdigits2_bounds a ltac:(lia)) as [Ha1 _].
  pose proof (Zdigits2_bounds b Hb) as [_ Hb2].
  assert (H : 2 ^ (Zdigits2 a - 1) < 2 ^ (Zdigits2 b + j)).
  { rewrite Z.pow_add_r; [|pose proof (Zdigits2_nonneg b); lia|lia].
    eapply Z.le_lt_trans; [exact Ha1|].
    eapply Z.le_lt_trans; [exact Hab|].
    apply Z.mul_lt_mono_pos_r; [apply Z.pow_pos_nonneg; lia|exact Hb2]. }
  assert (Hd : 0 <= Zdigits2 b + j)
    by (pose proof (Zdigits2_nonneg b); lia).
  pose proof (proj2 (Z.pow_lt_mono_r_iff 2 (Zdigits2 a - 1) (Zdigits2 b + j)
                       ltac:(lia) Hd) H).
  lia.
Qed.

Lemma scaled_pow2 (a e : Z) : 0 <= a -> (scaled (2 ^ a) e == 2 ^ (e + a))%Q.
Proof.
  intros Ha. rewrite <- (Z.mul_1_l (2 ^ a)), scaled_shift by exact Ha.
  unfold scaled. ring.
Qed.

Lemma scaled_mul (m n e f : Z) :
  (scaled (m * n) (e + f) == scaled m e * scaled n f)%Q.
Proof. unfold scaled. rewrite inject_Z_mult, pow2_plus. ring. Qed.

(** The sum of digits and exponent is monotone in the value. *)
Lemma digits_exponent_le (m1 m2 e1 e2 : Z) :
  0 < m1 -> 0 < m2 ->
  (scaled m1 e1 <= scaled m2 e2)%Q ->
  Zdigits2 m1 + e1 <= Zdigits2 m2 + e2.
Proof.
  intros H1 H2 Hle.
  pose proof (Zdigits2_bounds m1 H1) as [Ha _].
  pose proof (Zdigits2_bounds m2 H2) as [_ Hb].
  pose proof (Zdigits2_nonneg m2 ltac:(lia)) as Hn2.
  assert (Hn1 : 0 <= Zdigits2 m1 - 1).
  { clear -H1. destruct m1 as [|p|p]; try lia.
    change (Zdigits2 (Z.pos p)) with (Z.pos (digits2_pos p)). lia. }
  assert (H : (2 ^ (e1 + (Zdigits2 m1 - 1)) < 2 ^ (e2 + Zdigits2 m2))%Q).
  { rewrite <- !scaled_pow2 by assumption.
    eapply Qle_lt_trans; [apply scaled_le; exact Ha|].
    eapply Qle_lt_trans; [exact Hle|]. apply scaled_lt. exact Hb. }
  apply Qpower_lt_compat_l_inv in H; [lia|reflexivity].
Qed.

(** Rounding a value that is at most [N * 2^k], for a mantissa [N] of at
    most 53 bits, gives a double that is at most [N * 2^k]. *)
Lemma round_atMost (x B : Q) (N k m e : Z) (l : location) :
  0 <= m -> (scaled m e <= x)%Q ->
  (l <> loc_Exact -> (scaled m e < x)%Q) ->
  (x <= B)%Q -> (B == scaled N k)%Q ->
  0 <= N -> Zdigits2 N <= Double.prec ->
  e <= k -> emin Double.prec Double.emax <= k ->
  k <= Double.emax - Double.prec ->
  atMost B k (binary_round_aux Double.prec Double.emax false m e l).
Proof.
  intros Hm Hle Hlt HxB HB HN HdN Hek Hmin Hmax.
  assert (Hgrid : forall e0, e0 <= k ->
            (B == scaled (N * 2 ^ (k - e0)) e0)%Q).
  { intros e0 H0. rewrite HB, scaled_shift by lia.
    replace (e0 + (k - e0)) with k by lia. reflexivity. }
  assert (Hdig : forall a e0, 0 <= a -> e0 <= k ->
            (scaled a e0 <= B)%Q ->
            fexp Double.prec Double.emax (Zdigits2 a + e0) <= k).
  { intros a e0 Ha H0 HaB. rewrite (Hgrid e0 H0) in HaB.
    apply scaled_le in HaB.
    pose proof (Zdigits2_le a N (k - e0) Ha ltac:(lia) HaB).
    unfold fexp. unfold Double.prec in *. lia. }
  unfold binary_round_aux.
  destruct (shr_fexp_below x m e l Hm Hle Hlt) as [Hb1 He1].
  destruct (shr_fexp Double.prec Double.emax m e l) as [mrs1 e1].
  cbn [fst snd] in Hb1, He1.
  assert (He1k : e1 <= k).
  { rewrite He1. pose proof (Hdig m e Hm Hek (Qle_trans _ _ _ Hle HxB)). lia. }
  destruct Hb1 as (Hm1 & Hle1 & Hlt1).
  set (rr := round_nearest_even (shr_m mrs1) (loc_of_shr_record mrs1)).
  assert (Hrr : 0 <= rr /\ (scaled rr e1 <= B)%Q).
  { assert (Hsame : (scaled (shr_m mrs1) e1 <= B)%Q)
      by exact (Qle_trans _ _ _ Hle1 HxB).
    assert (Hnext : shr_r mrs1 = true ->
                    (scaled (shr_m mrs1 + 1) e1 <= B)%Q).
    { intros Hr. rewrite (Hgrid e1 He1k). apply scaled_le.
      assert (H : (scaled (shr_m mrs1) e1
                   < scaled (N * 2 ^ (k - e1)) e1)%Q).
      { rewrite <- (Hgrid e1 He1k).
        eapply Qlt_le_trans; [|exact HxB]. apply Hlt1.
        rewrite Hr. reflexivity. }
      apply scaled_lt in H. lia. }
    unfold rr, round_nearest_even, loc_of_shr_record.
    destruct mrs1 as [m1 r1 s1]. cbn [shr_m shr_r shr_s] in *.
    destruct r1, s1; cbn iota.
    - split; [lia|]. apply Hnext. reflexivity.
    - destruct (Z.even m1); (split; [lia|]);
        [exact Hsame|apply Hnext; reflexivity].
    - split; [lia|exact Hsame].
    - split; [lia|exact Hsame]. }
  destruct Hrr as [Hrr0 HrrB].
  destruct (shr_fexp_below (scaled rr e1) rr e1 loc_Exact Hrr0 (Qle_refl _))
    as [Hb2 He2]; [intros H; destruct H; reflexivity|].
  destruct (shr_fexp Double.prec Double.emax rr e1 loc_Exact) as [mrs2 e2].
  cbn [fst snd] in Hb2, He2.
  assert (He2k : e2 <= k).
  { rewrite He2. pose proof (Hdig rr e1 Hrr0 He1k HrrB). lia. }
  destruct Hb2 as (Hm2 & Hle2 & _).
  destruct (shr_m mrs2) as [|p|p] eqn:Em; [now left| |lia].
  destruct (Z.leb_spec e2 (Double.emax - Double.prec)) as [_|H]; [|lia].
  right. exists p, e2. split; [reflexivity|]. split; [|exact He2k].
  exact (Qle_trans _ _ _ Hle2 HrrB).
Qed.

Lemma new_location_exact (n r : Z) :
  new_location n r = loc_Exact -> r = 0.
Proof.
  unfold new_location, new_location_even, new_location_odd.
  destruct (Z.even n); destruct (Z.eqb_spec r 0); auto; discriminate.
Qed.

(** A quotient of a smaller by a larger double is at most 1. *)
Lemma div_atMost_one (m1 m2 : positive) (e1 e2 : Z) :
  (scaled (Z.pos m1) e1 <= scaled (Z.pos m2) e2)%Q ->
  atMost 1 0
    (Double.div (S754_finite false m1 e1) (S754_finite false m2 e2)).
Proof.
  intros Hle. unfold Double.div, SFdiv. cbn [xorb].
  unfold SFdiv_core_binary.
  set (d1 := Zdigits2 (Z.pos m1)). set (d2 := Zdigits2 (Z.pos m2)).
  set (e' := Z.min (fexp Double.prec Double.emax (d1 + e1 - (d2 + e2)))
               (e1 - e2)).
  set (s := e1 - e2 - e').
  assert (Hs : 0 <= s) by (unfold s, e'; lia).
  set (m' := match s with
             | 0 => Z.pos m1
             | Z.pos _ => Z.shiftl (Z.pos m1) s
             | Z.neg _ => 0
             end).
  assert (Hm' : m' = Z.pos m1 * 2 ^ s).
  { unfold m'. destruct s as [|p|p] eqn:Es; [simpl; lia| |lia].
    rewrite Z.shiftl_mul_pow2 by lia. reflexivity. }
  pose proof (Z_div_mod m' (Z.pos m2) ltac:(lia)) as Hdiv.
  destruct (Z.div_eucl m' (Z.pos m2)) as [q r]. destruct Hdiv as [Hqr Hr].
  assert (Hm'0 : 0 <= m').
  { rewrite Hm'. apply Z.mul_nonneg_nonneg; [lia|]. apply Z.pow_nonneg. lia. }
  assert (Hq : 0 <= q) by nia.
  set (D := scaled (Z.pos m2) e2).
  assert (HD : (0 < D)%Q).
  { unfold D, scaled. apply Qmult_lt_0_compat; [|apply pow2_pos].
    rewrite <- (Zlt_Qlt 0). lia. }
  assert (Hnum : (scaled (Z.pos m1) e1 == scaled m' (e' + e2))%Q).
  { rewrite Hm', scaled_shift by exact Hs.
    replace (e' + e2 + s) with e1 by (unfold s; lia). reflexivity. }
  assert (He' : e' <= 0).
  { pose proof (digits_exponent_le (Z.pos m1) (Z.pos m2) e1 e2
                  ltac:(lia) ltac:(lia) Hle) as Hd.
    fold d1 d2 in Hd. unfold e', fexp, emin, Double.prec, Double.emax. lia. }
  apply (round_atMost (scaled (Z.pos m1) e1 / D) 1 1 0).
  - exact Hq.
  - apply Qle_shift_div_l; [exact HD|].
    unfold D. rewrite <- scaled_mul, Hnum. apply scaled_le. lia.
  - intros Hl. apply Qlt_shift_div_l; [exact HD|].
    unfold D. rewrite <- scaled_mul, Hnum. apply scaled_lt.
    assert (r <> 0); [|lia].
    intros ->. apply Hl. unfold new_location, new_location_even,
      new_location_odd. destruct (Z.even (Z.pos m2)); reflexivity.
  - apply Qle_shift_div_r; [exact HD|]. rewrite Qmult_1_l. exact Hle.
  - unfold scaled. simpl. reflexivity.
  - lia.
  - unfold Double.prec. simpl. lia.
  - exact He'.
  - unfold emin, Double.prec, Double.emax. lia.
  - unfold Double.prec, Double.emax. lia.
Qed.

(** A hundred times a double that is at most 1 is at most 100. *)
Lemma mul_100_atMost (f : Double.t) :
  atMost 1 0 f -> atMost 100 2 (Double.mul f (Double.of_Z 100)).
Proof.
  change (Double.of_Z 100) with (S754_finite false 7036874417766400 (-46)).
  intros [->|(m & e & -> & Hle & He)]; [now left|].
  unfold Double.mul, SFmul. cbn [xorb].
  assert (Hx : (scaled (Z.pos (m * 7036874417766400)) (e + -46)
                == scaled (Z.pos m) e * 100)%Q).
  { rewrite Pos2Z.inj_mul, scaled_mul.
    assert (H : (scaled 7036874417766400 (-46) == 100)%Q) by reflexivity.
    rewrite H. reflexivity. }
  apply (round_atMost (scaled (Z.pos (m * 7036874417766400)) (e + -46))
           100 25 2).
  - lia.
  - apply Qle_refl.
  - intros H. destruct H. reflexivity.
  - rewrite Hx. rewrite <- (Qmult_1_l 100) at 2.
    apply Qmult_le_compat_r; [exact Hle|discriminate].
  - reflexivity.
  - lia.
  - unfold Double.prec. simpl. lia.
  - lia.
  - unfold emin, Double.prec, Double.emax. lia.
  - unfold Double.prec, Double.emax. lia.
Qed.

Lemma digits2_pos_iter (p d : positive) :
  digits2_pos (Pos.iter xO p d) = (digits2_pos p + d)%positive.
Proof.
  induction d as [|d IH] using Pos.peano_ind.
  - simpl. lia.
  - rewrite Pos.iter_succ. simpl. rewrite IH. lia.
Qed.

(** A mantissa that needs no shift is kept as it is. *)
Lemma round_exact (s : bool) (m : positive) (e : Z) :
  fexp Double.prec Double.emax (Zdigits2 (Z.pos m) + e) <= e ->
  e <= Double.emax - Double.prec ->
  binary_round_aux Double.prec Double.emax s (Z.pos m) e loc_Exact
  = S754_finite s m e.
Proof.
  intros Hf He. unfold binary_round_aux, shr_fexp.
  assert (Hshr : shr (shr_record_of_loc (Z.pos m) loc_Exact) e
                   (fexp Double.prec Double.emax (Zdigits2 (Z.pos m) + e) - e)
                 = (shr_record_of_loc (Z.pos m) loc_Exact, e)).
  { unfold shr.
    destruct (fexp Double.prec Double.emax (Zdigits2 (Z.pos m) + e) - e)
      eqn:E; try reflexivity. lia. }
  cbn [shr_record_of_loc] in *.
  rewrite Hshr. cbn [shr_record_of_loc shr_m loc_of_shr_record
                     round_nearest_even shr_r shr_s].
  rewrite Hshr. cbn [shr_m].
  destruct (Z.leb_spec e (Double.emax - Double.prec)); [reflexivity|lia].
Qed.

(** An integer below 2^53 is a double. *)
Lemma of_Z_exact (z : Z) :
  0 < z < 2 ^ 53 ->
  exists m e,
    Double.of_Z z = S754_finite false m e
    /\ (scaled (Z.pos m) e == inject_Z z)%Q.
Proof.
  intros [Hz Hlt]. destruct z as [|p|p]; try lia.
  unfold Double.of_Z, binary_normalize, binary_round, shl_align.
  pose proof (Zdigits2_bounds (Z.pos p) Hz) as [Hlo _].
  change (Zdigits2 (Z.pos p)) with (Z.pos (digits2_pos p)) in Hlo.
  assert (Hd : Z.pos (digits2_pos p) <= 53).
  { assert (H : 2 ^ (Z.pos (digits2_pos p) - 1) < 2 ^ 53) by lia.
    apply Z.pow_lt_mono_r_iff in H; lia. }
  assert (Hf : fexp Double.prec Double.emax (Z.pos (digits2_pos p) + 0)
               = Z.pos (digits2_pos p) - 53).
  { unfold fexp, emin, Double.prec, Double.emax. lia. }
  rewrite Hf.
  destruct (Z.pos (digits2_pos p) - 53 - 0) as [|d|d] eqn:Ed; try lia.
  - exists p, 0. split.
    + apply round_exact; [|unfold Double.prec, Double.emax; lia].
      change (Zdigits2 (Z.pos p)) with (Z.pos (digits2_pos p)).
      unfold fexp, emin, Double.prec, Double.emax. lia.
    + unfold scaled. simpl. ring.
  - exists (Pos.iter xO p d), (Z.pos (digits2_pos p) - 53). split.
    + apply round_exact; [|unfold Double.prec, Double.emax; lia].
      change (Zdigits2 (Z.pos (Pos.iter xO p d)))
        with (Z.pos (digits2_pos (Pos.iter xO p d))).
      rewrite digits2_pos_iter.
      unfold fexp, emin, Double.prec, Double.emax. lia.
    + change (Pos.iter xO p d) with (shift_pos d p).
      rewrite shift_pos_correct, Z.pow_pos_fold, Z.mul_comm,
        scaled_shift by lia.
      replace (Z.pos (digits2_pos p) - 53 + Z.pos d) with 0 by lia.
      unfold scaled. simpl. ring.
Qed.

(** The rational of a double that is at most [B]. *)
Lemma atMost_to_Q (B : Q) (k : Z) (f : Double.t) :
  (0 <= B)%Q -> atMost B k f ->
  (0 <= Double.to_Q f)%Q /\ (Double.to_Q f <= B)%Q
  /\ forall q, Double.geb f q = Qle_bool q (Double.to_Q f).
Proof.
  intros HB [->|(m & e & -> & Hle & _)].
  - split; [apply Qle_refl|]. split; [exact HB|reflexivity].
  - unfold Double.to_Q. rewrite Qred_correct. fold (scaled (Z.pos m) e).
    split; [|split; [exact Hle|reflexivity]].
    unfold scaled. apply Qmult_le_0_compat.
    + rewrite <- (Zle_Qle 0). lia.
    + apply Qlt_le_weak, pow2_pos.
Qed.

(** The percentage of [diff] pixels of [total]. *)
Lemma percent_range (diff total : Z) :
  0 <= diff <= total -> 0 < total < 2 ^ 53 ->
  atMost 100 2
    (Double.mul (Double.div (Double.of_Z diff) (Double.of_Z total))
       (Double.of_Z 100)).
Proof.
  intros Hd Ht. apply mul_100_atMost.
  destruct (of_Z_exact total Ht) as (mt & et & -> & Evt).
  destruct (Z.eq_dec diff 0) as [->|Hne].
  { left. reflexivity. }
  destruct (of_Z_exact diff ltac:(lia)) as (md & ed & -> & Evd).
  apply div_atMost_one. rewrite Evd, Evt. rewrite <- Zle_Qle. lia.
Qed.

(** No differing pixel: the percentage is the double zero. *)
Lemma percent_zero (total : Z) :
  0 < total < 2 ^ 53 ->
  Double.mul (Double.div (Double.of_Z 0) (Double.of_Z total))
    (Double.of_Z 100)
  = S754_zero false.
Proof.
  intros Ht. destruct (of_Z_exact total Ht) as (mt & et & -> & _).
  reflexivity.
Qed.

End Rounding.

Section Sampling.
Import StreamProcessor StreamControl.
Context {IM : Imaging}.

(** X14: a screencast frame that arrives while the processor has no
    frame to compare it with - the first one after construction - is
    always forwarded, flagged as changed by 100 percent, whatever the
    threshold, the keep-alive time and the image are. *)
Theorem first_frame_forwarded (sp : StreamProcessor.t)
  (event : CDPScreencastFrameEvent) (now tstamp : Z) :
  cdpSession sp = true ->
  lastFrameData sp = None ->
  exists sp' f,
    handleScreencastFrame sp event now tstamp = (sp', Some f)
    /\ frameId f = cur_frameId sp + 1
    /\ data f = ev_data event
    /\ hasChange f = true
    /\ deltaPercent f = 100%Q
    /\ pendingFrame sp' = Some f
    /\ lastSentFrameTime sp' = now
    /\ droppedFrameCount sp' = droppedFrameCount sp.
Proof.
  intros Hc Hl. unfold handleScreencastFrame. rewrite Hc. simpl.
  rewrite Hl. simpl. eexists _, _. repeat split.
Qed.

(** What a dropped screencast frame changes. *)
Lemma dropped_frame (sp : StreamProcessor.t) (event : CDPScreencastFrameEvent)
  (now tstamp : Z) (prev : Buffer) :
  cdpSession sp = true ->
  lastFrameData sp = Some prev ->
  cmp_hasChange (compareFrames (config sp) prev
                   (Buffer_from_base64 (ev_data event))) = false ->
  now - lastSentFrameTime sp < keepAliveMs (config sp) ->
  let r := handleScreencastFrame sp event now tstamp in
  snd r = None
  /\ cdpSession (fst r) = true
  /\ config (fst r) = config sp
  /\ lastFrameData (fst r) = Some (Buffer_from_base64 (ev_data event))
  /\ lastSentFrameTime (fst r) = lastSentFrameTime sp
  /\ pendingFrame (fst r) = pendingFrame sp
  /\ droppedFrameCount (fst r) = droppedFrameCount sp + 1.
Proof.
  intros Hc Hl Hcmp Hk. unfold handleScreencastFrame. rewrite Hc. simpl.
  rewrite Hl. simpl. rewrite Hcmp. simpl.
  destruct (Z.leb_spec (keepAliveMs (config sp)) (now - lastSentFrameTime sp));
    [lia|]. simpl. repeat split; auto.
Qed.

(** X15: the comparison is always with the frame received last, dropped
    or not.  So of screencast frames of which each differs from the one
    before it by less than the threshold, none is forwarded while the
    keep-alive time has not elapsed - however much the last of them
    differs from the frame that was forwarded last - and each is counted
    as dropped. *)
Theorem gradual_change_not_forwarded (sp : StreamProcessor.t) (prev : Buffer)
  (evs : list (CDPScreencastFrameEvent * Z * Z)) :
  cdpSession sp = true ->
  lastFrameData sp = Some prev ->
  gradual (config sp) prev evs ->
  Forall (fun x => snd (fst x) - lastSentFrameTime sp
                   < keepAliveMs (config sp)) evs ->
  let r := reactAll sp (screencasts evs) in
  snd r = []
  /\ pendingFrame (fst r) = pendingFrame sp
  /\ lastSentFrameTime (fst r) = lastSentFrameTime sp
  /\ droppedFrameCount (fst r)
     = droppedFrameCount sp + Z.of_nat (length evs).
Proof.
  revert sp prev.
  induction evs as [|[[e now] ts] r IH]; intros sp prev Hc Hl Hg Hk.
  - simpl. repeat split. lia.
  - destruct Hg as [Hcmp Hg]. apply Forall_cons in Hk as [Hk1 Hk].
    simpl in Hk1.
    pose proof (dropped_frame sp e now ts prev Hc Hl Hcmp Hk1) as H.
    simpl in H. destruct H as (Ho & Hc1 & Hcfg & Hl1 & Hs1 & Hp1 & Hd1).
    cbn [screencasts map reactAll react fst snd].
    destruct (handleScreencastFrame sp e now ts) as [sp1 o]. simpl in *.
    subst o.
    specialize (IH sp1 _ Hc1 Hl1).
    rewrite Hcfg, Hs1 in IH. specialize (IH Hg Hk). simpl in IH.
    fold (screencasts r).
    destruct (reactAll sp1 (screencasts r)) as [sp2 outs]. simpl in *.
    destruct IH as (-> & Hp2 & Hs2 & Hd2).
    repeat split; try congruence. lia.
Qed.

(** X16: for images of fewer than 2^53 pixels and a [pixelmatch] that
    returns a count between 0 and the number of pixels, the
    [deltaPercent] of a comparison - computed in doubles - lies between 0
    and 100, and [diffPixelCount] does not exceed [totalPixels].  A
    comparison reports no change only if it measured one: both images
    decoded, the dimensions agreed, [pixelmatch] returned, and the
    percentage is strictly below the threshold.  When it measured,
    [hasChange] is exactly [deltaPercent >= deltaThreshold], and no
    differing pixel gives a percentage of exactly 0. *)
Theorem compareFrames_percent_range (cfg : StreamConfig)
  (prev cur : Buffer) :
  (forall a b w h d, pixelmatch a b w h = Some d ->
                     0 <= d <= Z.pos w * Z.pos h) ->
  (forall buf r, sharp_raw buf = Some r ->
                 Z.pos (raw_width r) * Z.pos (raw_height r) < 2 ^ 53) ->
  let c := compareFrames cfg prev cur in
  (0 <= cmp_deltaPercent c)%Q
  /\ (cmp_deltaPercent c <= 100)%Q
  /\ 0 <= diffPixelCount c <= totalPixels c
  /\ (cmp_hasChange c = false ->
      (cmp_deltaPercent c < deltaThreshold cfg)%Q
      /\ 0 < totalPixels c
      /\ ~ comparisonFails prev cur)
  /\ (~ comparisonFails prev cur ->
      cmp_hasChange c = Qle_bool (deltaThreshold cfg) (cmp_deltaPercent c)
      /\ (diffPixelCount c = 0 -> cmp_deltaPercent c = 0%Q)).
Proof.
  intros Hpm Hsize. cbv zeta. unfold compareFrames, comparisonFails.
  assert (Ha : forall P1 P2 Q : Prop, (~ Q -> False) ->
               (0 <= cmp_deltaPercent assumeChange)%Q
               /\ (cmp_deltaPercent assumeChange <= 100)%Q
               /\ 0 <= diffPixelCount assumeChange <= totalPixels assumeChange
               /\ (cmp_hasChange assumeChange = false -> P1)
               /\ (~ Q -> P2)).
  { intros P1 P2 Q HQ. simpl. repeat split; try lia; try discriminate.
    intros H. destruct (HQ H). }
  destruct (sharp_raw prev) as [a|] eqn:Ea; [|apply Ha; tauto].
  destruct (sharp_raw cur) as [b|]; [|apply Ha; tauto].
  destruct (Pos.eqb_spec (raw_width a) (raw_width b)) as [Ew|Ew];
    [|apply Ha; tauto].
  destruct (Pos.eqb_spec (raw_height a) (raw_height b)) as [Eh|Eh];
    [|apply Ha; tauto].
  cbn [negb orb].
  destruct (pixelmatch (raw_data a) (raw_data b) (raw_width a) (raw_height a))
    as [d|] eqn:E; [|apply Ha; tauto].
  apply Hpm in E. pose proof (Hsize prev a Ea) as Hlt.
  cbn [cmp_hasChange cmp_deltaPercent diffPixelCount totalPixels].
  set (n := Z.pos (raw_width a) * Z.pos (raw_height a)) in *.
  assert (Hn : 0 < n) by (unfold n; lia).
  pose proof (percent_range d n E (conj Hn Hlt)) as Hp.
  destruct (atMost_to_Q 100 2 _ ltac:(discriminate) Hp) as (H0 & H100 & Hge).
  split; [exact H0|]. split; [exact H100|]. split; [exact E|]. split.
  - intros Hb. rewrite Hge in Hb. split; [|split; [exact Hn|]].
    + apply Qnot_le_lt. intros Hle. apply Qle_bool_iff in Hle. congruence.
    + intros [H|[H|H]]; try contradiction. discriminate.
  - intros _. split; [apply Hge|]. intros ->.
    rewrite (percent_zero n (conj Hn Hlt)). reflexivity.
Qed.

End Sampling.

Section SamplingSamples.
Import StreamProcessor StreamControl.

(** The first frame an initialised processor receives. *)
Lemma first_frame_forwarded_witness :
  let sp := initialize (create Samples.streamConfig) in
  cdpSession sp = true
  /\ lastFrameData sp = None
  /\ exists sp' f,
       handleScreencastFrame (IM := Samples.toyImaging) sp
         (Samples.screencast Samples.imageA) 1000 1000 = (sp', Some f)
       /\ frameId f = 1
       /\ hasChange f = true.
Proof.
  intros sp. split; [reflexivity|]. split; [reflexivity|].
  destruct (first_frame_forwarded (IM := Samples.toyImaging) sp
              (Samples.screencast Samples.imageA) 1000 1000 eq_refl eq_refl)
    as (sp' & f & H & Hid & _ & Hch & _).
  exists sp', f. split; [exact H|]. split; [exact Hid|exact Hch].
Defined.

(** Three frames that light one more pixel of a hundred each, after a
    dark frame was forwarded at 1000 ms, with a threshold of 2 percent:
    none is forwarded, although the last differs from the dark frame by
    3 percent. *)
Lemma gradual_change_not_forwarded_witness :
  let sp := fst (handleScreencastFrame (IM := Samples.toyImaging)
                   (initialize (create Samples.streamConfig))
                   (Samples.screencast (Samples.imageLit 0)) 1000 1000) in
  let prev := list_byte_of_string (Samples.imageLit 0) in
  let evs := [(Samples.screencast (Samples.imageLit 1), 1100, 1100);
              (Samples.screencast (Samples.imageLit 2), 1200, 1200);
              (Samples.screencast (Samples.imageLit 3), 1300, 1300)] in
  cdpSession sp = true
  /\ lastFrameData sp = Some prev
  /\ gradual (IM := Samples.toyImaging) (config sp) prev evs
  /\ Forall (fun x => snd (fst x) - lastSentFrameTime sp
                      < keepAliveMs (config sp)) evs
  /\ snd (reactAll (IM := Samples.toyImaging) sp (screencasts evs)) = []
  /\ cmp_hasChange
       (compareFrames (IM := Samples.toyImaging) (config sp) prev
          (list_byte_of_string (Samples.imageLit 3))) = true.
Proof.
  intros sp prev evs.
  assert (Hc : cdpSession sp = true) by reflexivity.
  assert (Hl : lastFrameData sp = Some prev) by (vm_compute; reflexivity).
  assert (Hg : gradual (IM := Samples.toyImaging) (config sp) prev evs).
  { vm_compute. repeat split. }
  assert (Hk : Forall (fun x => snd (fst x) - lastSentFrameTime sp
                                < keepAliveMs (config sp)) evs).
  { repeat constructor. }
  split; [exact Hc|]. split; [exact Hl|]. split; [exact Hg|].
  split; [exact Hk|]. split.
  - exact (proj1 (gradual_change_not_forwarded (IM := Samples.toyImaging)
                    sp prev evs Hc Hl Hg Hk)).
  - vm_compute. reflexivity.
Defined.

Lemma toyDiff_range (a : list Byte.byte) :
  forall b, 0 <= Samples.toyDiff a b <= Z.of_nat (length a).
Proof.
  induction a as [|x r IH]; intros b; simpl Samples.toyDiff.
  - simpl. lia.
  - destruct b as [|y s]; [simpl; lia|].
    specialize (IH s). rewrite length_cons.
    destruct (Byte.eqb x y); lia.
Qed.

Lemma toyMatch_range (a b : list Byte.byte) (w h : positive) (d : Z) :
  pixelmatch (Imaging := Samples.toyImaging) a b w h = Some d ->
  0 <= d <= Z.pos w * Z.pos h.
Proof.
  simpl. unfold Samples.toyMatch.
  destruct (Z.eqb_spec (Z.of_nat (length a)) (Z.pos w * Z.pos h)) as [E|E];
    [|discriminate].
  intros H. injection H as <-. rewrite <- E. apply toyDiff_range.
Qed.

Lemma toyDecode_size (buf : Buffer) (r : RawImage) :
  sharp_raw (Imaging := Samples.toyImaging) buf = Some r ->
  Z.pos (raw_width r) * Z.pos (raw_height r) < 2 ^ 53.
Proof.
  simpl. unfold Samples.toyDecode.
  destruct buf as [|w [|h px]]; try discriminate.
  pose proof (Byte.to_N_bounded w) as Hw.
  pose proof (Byte.to_N_bounded h) as Hh.
  destruct (Z.of_N (Byte.to_N w)) as [|pw|pw] eqn:Ew; try discriminate.
  destruct (Z.of_N (Byte.to_N h)) as [|ph|ph] eqn:Eh; try discriminate.
  destruct (_ =? _); [|discriminate].
  intros H. injection H as <-. simpl.
  assert (Z.pos pw <= 255) by lia. assert (Z.pos ph <= 255) by lia.
  change (2 ^ 53) with 9007199254740992. nia.
Qed.

(** Two images of two pixels that differ in both. *)
Lemma compareFrames_percent_range_witness :
  let c := compareFrames (IM := Samples.toyImaging) Samples.streamConfig
             (list_byte_of_string Samples.imageA)
             (list_byte_of_string Samples.imageB) in
  (forall a b w h d,
     pixelmatch (Imaging := Samples.toyImaging) a b w h = Some d ->
     0 <= d <= Z.pos w * Z.pos h)
  /\ (forall buf r,
        sharp_raw (Imaging := Samples.toyImaging) buf = Some r ->
        Z.pos (raw_width r) * Z.pos (raw_height r) < 2 ^ 53)
  /\ (0 <= cmp_deltaPercent c)%Q
  /\ (cmp_deltaPercent c <= 100)%Q
  /\ diffPixelCount c = 2
  /\ totalPixels c = 2.
Proof.
  intros c. split; [exact toyMatch_range|]. split; [exact toyDecode_size|].
  destruct (compareFrames_percent_range (IM := Samples.toyImaging)
              Samples.streamConfig
              (list_byte_of_string Samples.imageA)
              (list_byte_of_string Samples.imageB) toyMatch_range
              toyDecode_size)
    as (H0 & H100 & _).
  split; [exact H0|]. split; [exact H100|].
  split; vm_compute; reflexivity.
Defined.

(** Rounding shows at the threshold: with 57 of 100 pixels differing and
    a threshold of 57, [(57 / 100) * 100] is 56.99999999999999 in doubles,
    and the frame is reported unchanged. *)
Lemma compareFrames_rounds_below_threshold :
  let cfg := StreamControl.with_deltaThreshold Samples.streamConfig 57 in
  let c := compareFrames (IM := Samples.toyImaging) cfg
             (list_byte_of_string (Samples.imageLit 0))
             (list_byte_of_string (Samples.imageLit 57)) in
  diffPixelCount c = 57 /\ totalPixels c = 100
  /\ cmp_deltaPercent c = (8022036836253695 # 140737488355328)%Q
  /\ (cmp_deltaPercent c < 57)%Q
  /\ cmp_hasChange c = false.
Proof. vm_compute. repeat split. Qed.

End SamplingSamples.

(* ===================================================================== *)
(** * ChromeStreamController: from the processor into the buffer *)
(* ===================================================================== *)

Section Pipeline.
Import StreamProcessor StreamControl.
Context {IM : Imaging}.

Lemma last_lastN {A : Type} (n : nat) (l : list A) :
  (1 <= n)%nat -> last (lastN n l) = last l.
Proof.
  intros Hn. destruct l as [|a r] using rev_ind; [reflexivity|].
  rewrite lastN_snoc by exact Hn. rewrite !last_snoc. reflexivity.
Qed.

(** X17: the frames a processor emits - its inputs handled one by one
    since its construction - and the controller forwards into its buffer
    leave that buffer, for a [maxBufferSize] that is not negative, with
    exactly the last [maxBufferSize] emitted frames, in strictly
    ascending id order.  So the latest frame of the buffer is the frame
    emitted last, and [getFramesSince] with the id of a buffered frame
    returns exactly the buffered frames with a greater id. *)
Theorem forwarded_frames_buffered (cfg : StreamConfig) (inputs : list Input)
  (clock : ScreencastFrame -> Z) :
  0 <= maxBufferSize cfg ->
  let emitted := snd (reactAll (processor (launch cfg)) inputs) in
  exists fb,
    forward (controllerBuffer cfg) emitted clock = Some fb
    /\ FrameBuffer.frames fb = lastN (Z.to_nat (maxBufferSize cfg)) emitted
    /\ ascending (FrameBuffer.frames fb)
    /\ (0 < maxBufferSize cfg ->
        FrameBuffer.getLatestFrame fb = last emitted)
    /\ (forall f, In f (FrameBuffer.frames fb) ->
        FrameBuffer.getFramesSince fb (frameId f)
        = List.filter (fun g => frameId f <? frameId g)
            (FrameBuffer.frames fb)).
Proof.
  intros Hm emitted.
  destruct (addFrames_frames (map (fun f => (f, clock f)) emitted)
              (controllerBuffer cfg)) as (fb & Hrun & Hfr).
  { exact Hm. }
  { simpl. exact Hm. }
  assert (Hmap : map fst (map (fun f => (f, clock f)) emitted) = emitted).
  { rewrite map_map. simpl. apply map_id. }
  simpl in Hfr. rewrite Hmap in Hfr.
  assert (Hasc : ascending (FrameBuffer.frames fb)).
  { rewrite Hfr. apply ascending_lastN.
    apply (reactAll_counters inputs (processor (launch cfg)) eq_refl). }
  exists fb. split; [exact Hrun|]. split; [exact Hfr|].
  split; [exact Hasc|]. split.
  - intros Hpos. unfold FrameBuffer.getLatestFrame. rewrite Hfr.
    apply last_lastN. lia.
  - intros f Hf. unfold FrameBuffer.getFramesSince.
    apply getFramesSince_present; [exact Hasc|]. exists f. auto.
Qed.

End Pipeline.

Section PipelineSamples.
Import StreamProcessor StreamControl.

(** A buffer of two frames behind a processor that receives a first
    frame, a changed one, an unchanged one and a changed one. *)
Lemma forwarded_frames_buffered_witness :
  let cfg :=
    {| viewportWidth := 1280; viewportHeight := 800; quality := 80;
       everyNthFrame := 1; deltaThreshold := 2; keepAliveMs := 2000;
       maxBufferSize := 2 |} in
  let inputs :=
    [Screencast (Samples.screencast Samples.imageA) 1000 1000;
     Screencast (Samples.screencast Samples.imageB) 1100 1100;
     Screencast (Samples.screencast Samples.imageB) 1200 1200;
     Screencast (Samples.screencast Samples.imageA) 1300 1300] in
  0 <= maxBufferSize cfg
  /\ exists fb,
       forward (controllerBuffer cfg)
         (snd (reactAll (IM := Samples.toyImaging) (processor (launch cfg))
                 inputs)) timestamp = Some fb
       /\ map frameId (FrameBuffer.frames fb) = [2; 4].
Proof.
  intros cfg inputs.
  assert (Hm : 0 <= maxBufferSize cfg) by (simpl; lia).
  split; [exact Hm|].
  destruct (forwarded_frames_buffered (IM := Samples.toyImaging) cfg inputs
              timestamp Hm) as (fb & Hrun & Hfr & _).
  exists fb. split; [exact Hrun|]. rewrite Hfr. vm_compute. reflexivity.
Defined.

End PipelineSamples.

(* ===================================================================== *)
(** * registerAction: the answer given by the deadline *)
(* ===================================================================== *)

Section DeadlineAnswer.
Import FrameBuffer EventLoop.

Lemma callback_frames (fb : FrameBuffer.t) (cb : TimerCallback) (now : Z) :
  frames (fst match cb with
              | ActionDeadline pending result before =>
                  onActionDeadline fb pending result before now
              | NextFrameTimeout p => onNextFrameTimeout fb p
              | StableFrameTimeout p => onStableFrameTimeout fb p
              end) = frames fb.
Proof.
  destruct cb as [pending result before|q|q]; simpl.
  - unfold onActionDeadline. destruct (indexOf _ _); reflexivity.
  - reflexivity.
  - unfold onStableFrameTimeout.
    destruct (findHandler fb q) as [[? ?|? ? ? [?|]]|]; reflexivity.
Qed.

Lemma fire_frames (w : World) (tm : Timer) :
  frames (buffer (fire w tm)) = frames (buffer w).
Proof.
  unfold fire, perform. rewrite applyEffects_buffer. simpl.
  apply callback_frames.
Qed.

(** A timer foreign to [p] does not settle [p]. *)
Lemma fire_foreign_promise (p : nat) (w : World) (x : Timer) :
  foreign p x ->
  promises (fire w x) !! p = promises w !! p.
Proof.
  intros [Hd Ho]. unfold fire, perform.
  rewrite applyEffects_untouched; [reflexivity|].
  intros o Hin. unfold deadlineOf in Hd.
  destruct (callback x) as [pending result before|q|q]; simpl in *.
  - pose proof (onActionDeadline_spec
                  (buffer (set_clock w (Z.max (clock w) (due x))))
                  pending result before (Z.max (clock w) (due x))) as H.
    simpl in H. destruct H as (_ & Hq & _).
    specialize (Hq _ Hin). simpl in Hq. destruct Hq as [E _]. auto.
  - destruct Hin as [E|[]]. injection E as E _. congruence.
  - pose proof (onStableFrameTimeout_spec
                  (buffer (set_clock w (Z.max (clock w) (due x)))) q) as H.
    simpl in H. destruct H as (_ & Hq & _).
    specialize (Hq _ Hin). simpl in Hq. congruence.
Qed.

Lemma fire_foreign (p : nat) (fs : list ScreencastFrame) (w : World)
  (x : Timer) :
  foreign p x -> unanswered p fs w -> unanswered p fs (fire w x).
Proof.
  intros Hf (Hp & (q & Hq & Hid) & Hfs & Hc & Hn).
  pose proof (fire_foreign_promise p w x Hf) as Hpr.
  destruct (fire_pending w x) as (_ & _ & Hcalls & Hnext).
  split; [congruence|]. split; [|split; [|split]].
  - pose proof (fire_keep (buffer (set_clock w (Z.max (clock w) (due x)))) x
                  (Z.max (clock w) (due x)) q Hq) as H.
    simpl in H. destruct H as [H|[o Ho]].
    + exists q. split; [|exact Hid]. unfold fire, perform.
      rewrite applyEffects_buffer. exact H.
    + exfalso.
      assert (Hs : is_Some (promises (fire w x) !! p)).
      { unfold fire, perform. eapply applyEffects_settles.
        rewrite <- Hid. exact Ho. }
      rewrite Hpr, Hp in Hs. destruct Hs as [? Hs]. discriminate.
  - rewrite fire_frames. exact Hfs.
  - rewrite Hcalls. exact Hc.
  - rewrite Hnext. exact Hn.
Qed.

Lemma indexOf_pendingFor (pending : PendingAction) (fb : FrameBuffer.t) :
  pendingFor (pa_id pending) fb ->
  exists i, indexOf pending (pendingActions fb) = Some i.
Proof.
  intros (q & Hq & Hid). unfold indexOf.
  destruct (findIndex _ (pendingActions fb)) as [i|] eqn:E; [eauto|].
  exfalso. pose proof (proj1 (findIndex_None _ _) E q Hq) as H.
  simpl in H. apply Nat.eqb_neq in H. contradiction.
Qed.

Lemma fire_deadline (p : nat) (fs : list ScreencastFrame) (w : World)
  (tm : Timer) pending result before :
  callback tm = ActionDeadline pending result before ->
  pa_id pending = p ->
  unanswered p fs w ->
  resolvedWith p (timedOut pending result before fs (due tm)) (fire w tm).
Proof.
  intros Hcb Hid (Hp & Hpend & Hfs & _ & _).
  unfold fire, perform. rewrite Hcb. unfold onActionDeadline.
  rewrite <- Hid in Hpend.
  destruct (indexOf_pendingFor pending
              (buffer (set_clock w (Z.max (clock w) (due tm)))) Hpend)
    as [i ->].
  cbn [fst snd applyEffects fold_left applyEffect]. unfold settle.
  cbn [promises set_promises set_buffer set_clock]. rewrite Hid, Hp.
  eexists. split; [apply lookup_insert_eq|].
  unfold timedOut, getLatestFrame. cbn. rewrite Hfs.
  repeat split. lia.
Qed.

Lemma fold_fire_value (p : nat) (o : Outcome) :
  forall l w, promises w !! p = Some o ->
  promises (fold_left fire l w) !! p = Some o.
Proof.
  induction l as [|tm r IH]; intros w H; simpl; [exact H|].
  apply IH. unfold fire, perform. apply applyEffects_keeps_value. exact H.
Qed.

Lemma fold_fire_foreign (p : nat) (fs : list ScreencastFrame) :
  forall l w,
  (forall x, In x l -> foreign p x) ->
  unanswered p fs w -> unanswered p fs (fold_left fire l w).
Proof.
  induction l as [|x r IH]; intros w Hl H; simpl; [exact H|].
  apply IH; [intros y Hy; apply Hl; now right|].
  apply fire_foreign; [apply Hl; now left|exact H].
Qed.

Lemma fold_fire_deadline (p : nat) (fs : list ScreencastFrame)
  (tm : Timer) pending result before :
  callback tm = ActionDeadline pending result before ->
  pa_id pending = p ->
  forall l w,
  (forall x, In x l -> x = tm \/ foreign p x) ->
  In tm l ->
  unanswered p fs w ->
  resolvedWith p (timedOut pending result before fs (due tm))
    (fold_left fire l w).
Proof.
  intros Hcb Hid. induction l as [|x r IH]; intros w Hl Hin H; [destruct Hin|].
  simpl. destruct (Hl x (or_introl eq_refl)) as [->|Hf].
  - destruct (fire_deadline p fs w tm pending result before Hcb Hid H)
      as (v & Hv & HP).
    exists v. split; [|exact HP]. apply fold_fire_value. exact Hv.
  - apply IH.
    + intros y Hy. apply Hl. now right.
    + destruct Hin as [->|Hin]; [|exact Hin].
      exfalso. apply (proj1 Hf). unfold deadlineOf. rewrite Hcb. exact Hid.
    + apply fire_foreign; assumption.
Qed.

Lemma fold_fire_nextPromise :
  forall l w, nextPromise (fold_left fire l w) = nextPromise w.
Proof.
  induction l as [|x r IH]; intros w; simpl; [reflexivity|].
  rewrite IH. apply fire_pending.
Qed.

Section OneCall.

Variable p : nat.
Variable tm : Timer.
Variable fs : list ScreencastFrame.
Variables (pending : PendingAction) (result : ActionResult)
  (before : ScreencastFrame).

Hypothesis Hcb : callback tm = ActionDeadline pending result before.
Hypothesis Hid : pa_id pending = p.

Lemma advance_awaits (w : World) (t : Z) :
  awaitsDeadline p tm fs w
  \/ resolvedWith p (timedOut pending result before fs (due tm)) w ->
  awaitsDeadline p tm fs (advance t w)
  \/ resolvedWith p (timedOut pending result before fs (due tm))
       (advance t w).
Proof.
  unfold advance. set (t' := Z.max (clock w) t).
  set (l := List.filter _ _). set (w0 := set_timers w _).
  intros [(Hu & Htm & Hclk & Hall)|(v & Hv & HP)].
  2:{ right. exists v. split; [|exact HP]. simpl.
      apply fold_fire_value. exact Hv. }
  assert (Hu0 : unanswered p fs w0) by exact Hu.
  assert (Hl : forall x, In x l -> x = tm \/ foreign p x).
  { intros x Hx. apply filter_In in Hx as [Hx _]. auto. }
  destruct (Z.leb_spec (due tm) t') as [Hle|Hgt].
  - right.
    destruct (fold_fire_deadline p fs tm pending result before Hcb Hid
                l w0 Hl) as (v & Hv & HP); [|exact Hu0|].
    + apply filter_In. split; [exact Htm|]. apply Z.leb_le. exact Hle.
    + exists v. split; [exact Hv|exact HP].
  - left.
    assert (Hl' : forall x, In x l -> foreign p x).
    { intros x Hx. destruct (Hl x Hx) as [->|Hf]; [|exact Hf].
      apply filter_In in Hx as [_ Hx]. apply Z.leb_le in Hx. lia. }
    pose proof (fold_fire_foreign p fs l w0 Hl' Hu0) as Hu1.
    split; [exact Hu1|]. split; [|split].
    + simpl. apply fold_fire_timer_kept. simpl.
      apply filter_In. split; [exact Htm|]. apply Z.ltb_lt. exact Hgt.
    + simpl. exact Hgt.
    + intros x Hx. simpl in Hx. apply fold_fire_timers_sub in Hx.
      simpl in Hx. apply filter_In in Hx as [Hx _]. auto.
Qed.

Lemma handle_awaits (w w' : World) (ev : Event) :
  noFrameEvent ev ->
  handle w ev = Some w' ->
  awaitsDeadline p tm fs w
  \/ resolvedWith p (timedOut pending result before fs (due tm)) w ->
  awaitsDeadline p tm fs w'
  \/ resolvedWith p (timedOut pending result before fs (due tm)) w'.
Proof.
  intros Hev E [Ha|(v & Hv & HP)].
  2:{ right. destruct (handle_batch w w' ev E)
        as (w0 & effs & -> & _ & Hp & _ & _).
      exists v. split; [|exact HP].
      apply applyEffects_keeps_value. rewrite Hp. exact Hv. }
  left. destruct Ha as ((Hp & Hpend & Hfs & Hc & Hn) & Htm & Hclk & Hall).
  assert (Hown : timer_owner (callback tm) = None) by (rewrite Hcb; reflexivity).
  destruct ev as [frame|a|q out|tmo|d tmo| |]; simpl in E;
    try destruct Hev.
  - destruct (registerAction_begin _ _ _) as [e|call];
      injection E as <-; simpl.
    + repeat split; simpl; auto; try lia.
      unfold settle. simpl.
      destruct (promises w !! nextPromise w); [exact Hp|].
      rewrite lookup_insert_ne by lia. exact Hp.
    + repeat split; simpl; auto; try lia.
      rewrite lookup_insert_ne by lia. exact Hc.
  - destruct (calls w !! q) as [call|] eqn:Eq; injection E as <-.
    2:{ repeat split; auto. }
    assert (Hq : q <> p) by congruence.
    unfold registerAction_resume.
    assert (Hsettle : forall o,
              awaitsDeadline p tm fs
                (perform (set_calls w (delete q (calls w)))
                   (buffer w, [Settle q o]))).
    { intros o. unfold perform. simpl. unfold settle. simpl.
      repeat split; simpl; auto.
      - destruct (promises w !! q); [exact Hp|].
        rewrite lookup_insert_ne by exact Hq. exact Hp.
      - rewrite lookup_delete_ne by exact Hq. exact Hc. }
    destruct out as [res|e]; [|apply Hsettle].
    destruct (negb (success res)); [apply Hsettle|].
    destruct (isNonVisual (call_action call)); [apply Hsettle|].
    unfold perform. simpl. repeat split; simpl; auto.
    + destruct Hpend as (x & Hx & Ex). exists x.
      split; [apply in_app_iff; now left|exact Ex].
    + rewrite lookup_delete_ne by exact Hq. exact Hc.
    + apply schedule_In. now right.
    + intros x Hx. apply schedule_In in Hx as [->|Hx]; [|auto].
      right. split; [|discriminate]. unfold deadlineOf. simpl. exact Hq.
  - injection E as <-. unfold perform. simpl.
    repeat split; simpl; auto; try lia.
    + apply schedule_In. now right.
    + intros x Hx. apply schedule_In in Hx as [->|Hx]; [|auto].
      right. split; [intros []|]. simpl. intros H. injection H as H. lia.
  - injection E as <-. unfold perform. simpl.
    repeat split; simpl; auto; try lia.
    + apply schedule_In. now right.
    + intros x Hx. apply schedule_In in Hx as [->|Hx]; [|auto].
      right. split; [intros []|]. simpl. intros H. injection H as H. lia.
  - injection E as <-. repeat split; auto.
Qed.

Lemma handle_noFrame_total (w : World) (ev : Event) :
  noFrameEvent ev -> exists w', handle w ev = Some w'.
Proof.
  destruct ev as [frame|a|q out|tmo|d tmo| |]; simpl; intros H;
    try destruct H; try (eexists; reflexivity).
  - destruct (registerAction_begin _ _ _); eexists; reflexivity.
  - destruct (calls w !! q); eexists; reflexivity.
Qed.

Lemma run_awaits :
  forall trace w,
  Forall (fun te => noFrameEvent (snd te)) trace ->
  awaitsDeadline p tm fs w
  \/ resolvedWith p (timedOut pending result before fs (due tm)) w ->
  exists w',
    run w trace = Some w'
    /\ (awaitsDeadline p tm fs w'
        \/ resolvedWith p (timedOut pending result before fs (due tm)) w').
Proof.
  induction trace as [|[t ev] r IH]; intros w Hq H; simpl.
  - exists w. auto.
  - apply Forall_cons in Hq as [Hev Hq]. simpl in Hev.
    unfold step. simpl.
    destruct (handle_noFrame_total (advance t w) ev Hev) as [w1 E].
    rewrite E. apply IH; [exact Hq|].
    eapply handle_awaits; [exact Hev|exact E|].
    apply advance_awaits. exact H.
Qed.

End OneCall.

(** X18: the answer of a deadline.  When the executor of a visual action
    has succeeded and afterwards no frame is added and the buffer is not
    cleared - whatever else is called - the promise of [registerAction]
    is resolved, not rejected, once [max(1, maxWaitMs)] milliseconds have
    passed: with the result of the executor, with the frame captured at
    the call as [beforeFrame], with the latest frame of the buffer as
    [afterFrame], and with [causedChange] true exactly when that frame
    has another id than [beforeFrame] - which is the case for a frame
    that arrived while the executor was running. *)
Theorem registerAction_deadline_answer (w : World) (p : nat)
  (call : ActionCall) (res : ActionResult) (t : Z)
  (trace : list (Z * Event)) :
  calls w !! p = Some call ->
  promises w !! p = None ->
  (p < nextPromise w)%nat ->
  (forall x, In x (timers w) -> foreign p x) ->
  success res = true ->
  isNonVisual (call_action call) = false ->
  Forall (fun te => noFrameEvent (snd te)) trace ->
  exists w1 w2,
    step w (t, ExecutorSettles p (Returned res)) = Some w1
    /\ run w1 trace = Some w2
    /\ (clock w1 + Z.max 1 (maxWaitMs (config (buffer w))) <= clock w2 ->
        exists v,
          promises w2 !! p = Some (Resolved (ActionValue v))
          /\ far_action v = call_action call
          /\ far_result v = res
          /\ beforeFrame v = Some (call_beforeFrame call)
          /\ afterFrame v = getLatestFrame (buffer w)
          /\ causedChange v
             = match getLatestFrame (buffer w) with
               | Some l => negb (frameId l =? frameId (call_beforeFrame call))
               | None => false
               end
          /\ clock w1 + timerDelay (maxWaitMs (config (buffer w)))
             - call_startTime call <= latencyMs v).
Proof.
  intros Hcall Hp Hn Hall Hs Hv Hq.
  set (wa := advance t w).
  set (pa := {| pa_id := p; pa_action := call_action call;
                pa_frameId := frameId (call_beforeFrame call);
                pa_timestamp := call_startTime call |}).
  assert (Hcfg : config (buffer wa) = config (buffer w))
    by apply advance_config.
  assert (Hcalls : calls wa !! p = Some call)
    by (unfold wa; rewrite advance_calls; exact Hcall).
  assert (Hpa : promises wa !! p = None
                /\ frames (buffer wa) = frames (buffer w)
                /\ nextPromise wa = nextPromise w
                /\ (forall x, In x (timers wa) -> foreign p x)).
  { unfold wa, advance. set (t' := Z.max (clock w) t).
    set (l := List.filter _ _). set (w0 := set_timers w _). simpl.
    assert (Hl : forall x, In x l -> foreign p x).
    { intros x Hx. apply filter_In in Hx as [Hx _]. auto. }
    assert (G : forall l0 w1, (forall x, In x l0 -> foreign p x) ->
              promises (fold_left fire l0 w1) !! p = promises w1 !! p
              /\ frames (buffer (fold_left fire l0 w1)) = frames (buffer w1)).
    { induction l0 as [|x r IH]; intros w1 H0; simpl; [auto|].
      destruct (IH (fire w1 x)) as [E1 E2]; [intros y Hy; apply H0; now right|].
      rewrite E1, E2, fire_frames, fire_foreign_promise; [auto|].
      apply H0. now left. }
    destruct (G l w0 Hl) as [E1 E2].
    split; [rewrite E1; unfold w0; simpl; exact Hp|].
    split; [rewrite E2; reflexivity|].
    split; [rewrite fold_fire_nextPromise; reflexivity|].
    intros x Hx. apply fold_fire_timers_sub in Hx. simpl in Hx.
    apply filter_In in Hx as [Hx _]. auto. }
  destruct Hpa as (Hp' & Hfs & Hn' & Hall').
  set (w1 := perform (set_calls wa (delete p (calls wa)))
               (registerAction_resume (buffer wa) p call (Returned res)
                  (clock wa))).
  assert (Hstep : step w (t, ExecutorSettles p (Returned res)) = Some w1).
  { unfold step. cbn [fst snd]. fold wa. unfold handle. rewrite Hcalls.
    reflexivity. }
  clearbody wa.
  set (tm := {| due := clock wa + timerDelay (maxWaitMs (config (buffer w)));
                callback := ActionDeadline pa res (call_beforeFrame call) |}).
  assert (Hclock : clock w1 = clock wa).
  { unfold w1, perform. rewrite applyEffects_clock. reflexivity. }
  assert (Ha : awaitsDeadline p tm (frames (buffer w)) w1).
  { unfold w1, registerAction_resume. rewrite Hs, Hv. simpl.
    unfold perform. simpl. rewrite Hcfg.
    repeat split; simpl; auto.
    - exists pa. split; [apply in_app_iff; right; now left|reflexivity].
    - apply lookup_delete_eq.
    - lia.
    - apply schedule_In. now left.
    - pose proof (timerDelay_pos (maxWaitMs (config (buffer w)))). lia.
    - intros x Hx. apply schedule_In in Hx as [->|Hx]; [now left|].
      right. auto. }
  destruct (run_awaits p tm (frames (buffer w)) pa res (call_beforeFrame call)
              eq_refl eq_refl trace w1 Hq (or_introl Ha))
    as (w2 & Hrun & H2).
  exists w1, w2. split; [exact Hstep|]. split; [exact Hrun|].
  intros Hlate.
  pose proof (timerDelay_le (maxWaitMs (config (buffer w)))) as Hd.
  destruct H2 as [(_ & _ & Hclk & _)|(v & Hval & HP)].
  { simpl in Hclk. lia. }
  destruct HP as (H1 & H2 & H3 & H4 & H5 & H6).
  exists v. rewrite Hclock. repeat split; auto.
Qed.

(** The click of [clickIssued]: a frame arrives while its executor runs,
    the executor succeeds at 30 ms, and nothing follows. *)
Lemma registerAction_deadline_answer_witness :
  exists w w2 v,
    clickOvertaken = Some w
    /\ is_Some (calls w !! 0%nat)
    /\ promises w !! 0%nat = None
    /\ (0 < nextPromise w)%nat
    /\ (forall x, In x (timers w) -> foreign 0 x)
    /\ run w [(30, ExecutorSettles 0
                     (Returned (Samples.okResult Samples.click)));
              (2030, Idle)] = Some w2
    /\ promises w2 !! 0%nat = Some (Resolved (ActionValue v))
    /\ afterFrame v = Some (Samples.mkFrame 2 true 40)
    /\ causedChange v = true.
Proof.
  destruct clickOvertaken as [w|] eqn:Ew; [|vm_compute in Ew; discriminate].
  assert (Hcall : calls w !! 0%nat
                  = Some {| call_action := Samples.click;
                            call_beforeFrame := Samples.mkFrame 1 true 100;
                            call_startTime := 20 |}).
  { vm_compute in Ew. injection Ew as <-. reflexivity. }
  assert (Hp : promises w !! 0%nat = None).
  { vm_compute in Ew. injection Ew as <-. reflexivity. }
  assert (Hn : (0 < nextPromise w)%nat).
  { vm_compute in Ew. injection Ew as <-. simpl. lia. }
  assert (Hall : forall x, In x (timers w) -> foreign 0 x).
  { vm_compute in Ew. injection Ew as <-. intros x []. }
  destruct (registerAction_deadline_answer w 0 _
              (Samples.okResult Samples.click) 30 [(2030, Idle)]
              Hcall Hp Hn Hall eq_refl eq_refl)
    as (w1 & w2 & Hstep & Hrun & Hlate).
  { repeat constructor. }
  destruct Hlate as (v & Hval & _ & _ & _ & Hafter & Hchange & _).
  { vm_compute in Ew. injection Ew as <-.
    vm_compute in Hstep. injection Hstep as <-.
    vm_compute in Hrun. injection Hrun as <-.
    vm_compute. discriminate. }
  exists w, w2, v. split; [reflexivity|]. split; [rewrite Hcall; eauto|].
  split; [exact Hp|]. split; [exact Hn|]. split; [exact Hall|].
  split; [cbn [run]; rewrite Hstep; exact Hrun|].
  split; [exact Hval|].
  vm_compute in Ew. injection Ew as <-.
  split; [rewrite Hafter|rewrite Hchange]; reflexivity.
Defined.

End DeadlineAnswer.

(* ===================================================================== *)
(** * InputController: scrolling and dragging *)
(* ===================================================================== *)

Section Pointer.
Import InputController.

(** X19: [handleScroll] moves the pointer to the coordinate and sends one
    wheel event there that scrolls along one axis only, by 100 pixels per
    unit: down and right by a positive amount, up and left by a negative
    one; horizontally for [left], [right] and whenever the modifier is
    [shift], vertically otherwise. *)
Theorem handleScroll_one_axis (coordinate : Q * Q)
  (direction : ScrollDirection) (amount : Q) (modifier : option ModifierKey) :
  exists deltaX deltaY,
    handleScroll coordinate direction amount modifier
    = [MouseMove (fst coordinate) (snd coordinate);
       MouseWheel (fst coordinate) (snd coordinate) deltaX deltaY;
       Sleep 100]
    /\ (deltaX = 0%Q \/ deltaY = 0%Q)
    /\ (direction = scroll_down \/ direction = scroll_right ->
        deltaX + deltaY == amount * 100)%Q
    /\ (direction = scroll_up \/ direction = scroll_left ->
        deltaX + deltaY == - (amount * 100))%Q
    /\ (modifier = Some shift \/ direction = scroll_left
        \/ direction = scroll_right -> deltaY = 0%Q)
    /\ (modifier <> Some shift ->
        direction = scroll_up \/ direction = scroll_down -> deltaX = 0%Q).
Proof.
  destruct coordinate as [x y]. unfold handleScroll, scrollDeltas. simpl.
  destruct direction, modifier as [[]|]; simpl;
    eexists _, _; (split; [reflexivity|]);
    (split; [auto|]);
    (split; [intros [H|H]; try discriminate H; ring|]);
    (split; [intros [H|H]; try discriminate H; ring|]);
    (split; [intros [H|[H|H]]; try discriminate H; reflexivity|]);
    intros Hm [H|H]; try discriminate H; try reflexivity;
    exfalso; apply Hm; reflexivity.
Qed.

(** X20: [handleDrag] presses the button at the start coordinate and
    releases it after the last of ten further moves, with no other press
    or release in between; in exact arithmetic that last move is to the
    end coordinate. *)
Theorem handleDrag_path (startCoordinate endCoordinate : Q * Q) :
  let ops := handleDrag startCoordinate endCoordinate in
  length (pointerPath ops) = 11%nat
  /\ (exists moves,
        ops = MouseMove (fst startCoordinate) (snd startCoordinate)
              :: MouseDown :: moves ++ [MouseUp]
        /\ List.filter isButton moves = [])
  /\ (exists x y,
        last (pointerPath ops) = Some (x, y)
        /\ (x == fst endCoordinate)%Q /\ (y == snd endCoordinate)%Q).
Proof.
  destruct startCoordinate as [sx sy], endCoordinate as [ex ey].
  unfold handleDrag, scaleCoordinate. cbn [fst snd].
  split; [reflexivity|]. split.
  - exists (dragSteps sx sy ex ey 1 10). split; reflexivity.
  - eexists _, _. split; [reflexivity|].
    split;
      match goal with
      | |- context [inject_Z ?z] =>
          let z' := eval vm_compute in z in change z with z'
      end; unfold inject_Z; field.
Qed.

End Pointer.

(* ===================================================================== *)
(** * Keep-alive frames in the buffer *)
(* ===================================================================== *)

Section KeepAliveDownstream.
Import StreamProcessor FrameBuffer.
Context {IM : Imaging}.

(** X21: a frame emitted by the keep-alive interval is flagged as
    changed by 100 percent, whatever the page shows.  In a buffer whose
    [stabilityThreshold] is below 100 it therefore counts as a change: a
    handler of [waitForStableFrame] is not resolved by it and starts its
    stable period again, and a pending action with an older reference
    frame is resolved by it only when [stabilityWaitMs] have passed since
    the action was registered. *)
Theorem keepAlive_frame_counts_as_change (sp sp' : StreamProcessor.t)
  (now : Z) (shot : option string) (tstamp tsent : Z) (f : ScreencastFrame)
  (cfg : FrameBufferConfig) :
  keepAliveTick sp now shot tstamp tsent = (sp', Some f) ->
  (stabilityThreshold cfg < 100)%Q ->
  hasChange f = true
  /\ deltaPercent f = 100%Q
  /\ (forall p durationMs lastChangeTime lastFrame t,
        runHandler cfg
          (StableFrameHandler p durationMs lastChangeTime lastFrame) f t
        = (Some (StableFrameHandler p durationMs t (Some f)), []))
  /\ (forall pending t,
        stableFor cfg f t pending
        = (pa_frameId pending <? frameId f)
          && (stabilityWaitMs cfg <=? t - pa_timestamp pending)).
Proof.
  intros E Hthr.
  assert (Hf : hasChange f = true /\ deltaPercent f = 100%Q).
  { unfold keepAliveTick in E.
    destruct (_ && _); [|discriminate].
    unfold captureFrame in E.
    destruct (negb (cdpSession sp)); [discriminate|].
    destruct shot as [d|]; [|discriminate].
    unfold createFrame in E. simpl in E. injection E as _ <-.
    simpl. destruct (lastFrameData sp); split; reflexivity. }
  destruct Hf as [Hc Hd].
  assert (Hq : Qle_bool (deltaPercent f) (stabilityThreshold cfg) = false).
  { rewrite Hd. destruct (Qle_bool 100 (stabilityThreshold cfg)) eqn:B;
      [|reflexivity].
    apply Qle_bool_iff in B. exfalso. exact (Qlt_not_le _ _ Hthr B). }
  split; [exact Hc|]. split; [exact Hd|]. split.
  - intros p d lct lf t. unfold runHandler. rewrite Hc, Hq. reflexivity.
  - intros pending t. unfold stableFor. rewrite Hq.
    destruct (pa_frameId pending <? frameId f); reflexivity.
Qed.

End KeepAliveDownstream.

Section KeepAliveDownstreamSamples.
Import StreamProcessor FrameBuffer.

(** A keep-alive tick 2200 ms after the first frame of a page that has
    not changed. *)
Lemma keepAlive_frame_counts_as_change_witness :
  exists sp' f,
    keepAliveTick (IM := Samples.toyImaging) Samples.afterFirstFrame 3200
      (Some Samples.imageA) 3200 3200 = (sp', Some f)
    /\ (stabilityThreshold DEFAULT_CONFIG < 100)%Q
    /\ hasChange f = true
    /\ runHandler DEFAULT_CONFIG (StableFrameHandler 0 500 1000 None) f 3200
       = (Some (StableFrameHandler 0 500 3200 (Some f)), []).
Proof.
  destruct (keepAliveTick (IM := Samples.toyImaging) Samples.afterFirstFrame
              3200 (Some Samples.imageA) 3200 3200) as [sp' [f|]] eqn:E;
    [|vm_compute in E; discriminate].
  assert (Hthr : (stabilityThreshold DEFAULT_CONFIG < 100)%Q)
    by reflexivity.
  destruct (keepAlive_frame_counts_as_change (IM := Samples.toyImaging)
              Samples.afterFirstFrame sp' 3200 (Some Samples.imageA)
              3200 3200 f DEFAULT_CONFIG E Hthr) as (Hc & _ & Hh & _).
  exists sp', f. split; [reflexivity|]. split; [exact Hthr|].
  split; [exact Hc|]. apply Hh.
Defined.

End KeepAliveDownstreamSamples.
